(** * Gesture-driven photo tree: classifier, stabilizer, mode machine and
      showcase scheduler

    A shallow embedding of
    - [src/services/gestureRecognition.ts] ([detectGesture],
      [calculateHandRotation]),
    - the stability logic of [HandTracker] and the gesture effect and
      [handleDeletePhoto] of [App] ([src/App.tsx]),
    - the per-frame controller of [PhotoCloud]
      ([src/components/PhotoCloud.tsx]).
    Further down: the prediction gate of [HandTracker],
    [generateFramePosition] and the upload of [App], the per-frame
    target of a [Frame] of [PhotoCloud] and the scaling step of
    [processImageFile].

    JavaScript numbers are modelled by the real numbers of the Standard
    Library: [Math.PI] is [PI], [Math.floor] is [Int_part], [%] is the
    truncated remainder [js_rem].  Counters that only ever hold small
    non-negative integers ([gestureConsistencyCount], [nextPhotoIndex],
    [lapCounter]) are [nat].  The two [Math.random()] draws of a frame are
    inputs of the frame. *)

From Stdlib Require Import Reals Lra Lia ZArith List String Bool Arith.
Import ListNotations.

Open Scope R_scope.

(* ================================================================== *)
(** * Numbers *)

Definition Rltb (x y : R) : bool := if Rlt_dec x y then true else false.
Definition Rleb (x y : R) : bool := if Rle_dec x y then true else false.

(** [Math.floor]. *)
Definition floor (x : R) : Z := Int_part x.

(** Rounding towards zero, as the quotient of JavaScript's [%] does. *)
Definition trunc (x : R) : Z :=
  if Rle_dec 0 x then Int_part x else (- Int_part (- x))%Z.

(** [x % y] on numbers: the remainder has the sign of the dividend. *)
Definition js_rem (x y : R) : R := x - y * IZR (trunc (x / y)).

(** [Math.atan2(y, x)]. *)
Definition atan2 (y x : R) : R :=
  if Rlt_dec 0 x then atan (y / x)
  else if Rlt_dec x 0 then
         (if Rle_dec 0 y then atan (y / x) + PI else atan (y / x) - PI)
  else if Rlt_dec 0 y then PI / 2
  else if Rlt_dec y 0 then - (PI / 2)
  else 0.

(* ================================================================== *)
(** * Types ([types.ts]) *)

Inductive AppMode := ASSEMBLED | DISPERSED | FOCUS.

Inductive GestureType := NONE | FIST | OPEN_PALM | PINCH | POINT.

Definition AppMode_eq_dec (a b : AppMode) : {a = b} + {a <> b}.
Proof. decide equality. Defined.

Definition GestureType_eq_dec (a b : GestureType) : {a = b} + {a <> b}.
Proof. decide equality. Defined.

Definition mode_eqb (a b : AppMode) : bool :=
  if AppMode_eq_dec a b then true else false.

Definition gesture_eqb (a b : GestureType) : bool :=
  if GestureType_eq_dec a b then true else false.

Definition Vec3 : Type := R * R * R.

Definition vx (v : Vec3) : R := fst (fst v).
Definition vy (v : Vec3) : R := snd (fst v).
Definition vz (v : Vec3) : R := snd v.

(** [PhotoData]; [url] and [aspectRatio] are only read by the renderer. *)
Record PhotoData := mkPhoto {
  id : string;
  treePosition : Vec3;
  scatterPosition : Vec3
}.

Record HandState := mkHand {
  gesture : GestureType;
  position : R * R;
  rotation : R;
  isPresent : bool
}.

Record NormalizedLandmark := mkLandmark { lx : R; ly : R; lz : R }.

(* ================================================================== *)
(** * Gesture classifier ([gestureRecognition.ts]) *)

Definition dist (p1 p2 : NormalizedLandmark) : R :=
  sqrt ((lx p1 - lx p2) ^ 2 + (ly p1 - ly p2) ^ 2 + (lz p1 - lz p2) ^ 2).

Definition origin : NormalizedLandmark := mkLandmark 0 0 0.

(** [landmarks[i]]; only used behind the [length < 21] guard with
    [i <= 20], where the element exists. *)
Definition lm (landmarks : list NormalizedLandmark) (i : nat) :=
  nth i landmarks origin.

Definition tips (landmarks : list NormalizedLandmark) :=
  [lm landmarks 8; lm landmarks 12; lm landmarks 16; lm landmarks 20].

Definition avgDistToWrist (landmarks : list NormalizedLandmark) : R :=
  fold_left (fun acc tip => acc + dist tip (lm landmarks 0))
            (tips landmarks) 0 / 4.

Definition pinchDist (landmarks : list NormalizedLandmark) : R :=
  dist (lm landmarks 4) (lm landmarks 8).

Definition detectGesture (landmarks : list NormalizedLandmark) : GestureType :=
  if (List.length landmarks <? 21)%nat then NONE
  else if Rltb (avgDistToWrist landmarks) 0.4 then FIST
  else if Rltb (pinchDist landmarks) 0.06 then PINCH
  else if Rltb 0.5 (avgDistToWrist landmarks) then OPEN_PALM
  else NONE.

(** [None] stands for the [TypeError] of reading [.x] of [undefined]. *)
Definition calculateHandRotation (landmarks : list NormalizedLandmark)
  : option R :=
  match nth_error landmarks 0, nth_error landmarks 9 with
  | Some wrist, Some middleMCP =>
      let centerX := (lx wrist + lx middleMCP) / 2 in
      Some ((centerX - 0.5) * 2)
  | _, _ => None
  end.

(* ================================================================== *)
(** * Gesture stabilizer ([HandTracker], [predictWebcam]) *)

Record StabilityRefs := mkRefs {
  stableGestureRef : GestureType;
  lastRawGestureRef : GestureType;
  gestureConsistencyCount : nat
}.

Definition initialRefs : StabilityRefs := mkRefs NONE NONE 0.

(** The stability logic run on a raw label. *)
Definition stabilize (rawGesture : GestureType) (r : StabilityRefs)
  : StabilityRefs :=
  let r1 :=
    if gesture_eqb rawGesture (lastRawGestureRef r)
    then mkRefs (stableGestureRef r) (lastRawGestureRef r)
                (S (gestureConsistencyCount r))
    else mkRefs (stableGestureRef r) rawGesture 1 in
  if (2 <=? gestureConsistencyCount r1)%nat
  then mkRefs rawGesture (lastRawGestureRef r1) (gestureConsistencyCount r1)
  else r1.

Definition neutralHand : HandState := mkHand NONE (0.5, 0.5) 0 false.

(** One prediction: [detections] is [detections.landmarks], one landmark
    list per detected hand.  The result is the new refs and the state
    given to [onHandUpdate]; [None] is a [TypeError] raised by
    [calculateHandRotation] before any ref is written. *)
Definition predict (detections : list (list NormalizedLandmark))
    (r : StabilityRefs) : option (StabilityRefs * HandState) :=
  match detections with
  | landmarks :: _ =>
      let rawGesture := detectGesture landmarks in
      match calculateHandRotation landmarks, nth_error landmarks 9 with
      | Some rot, Some l9 =>
          let r' := stabilize rawGesture r in
          Some (r', mkHand (stableGestureRef r') (1 - lx l9, ly l9) rot true)
      | _, _ => None
      end
  | [] => Some (mkRefs NONE NONE 0, neutralHand)
  end.

(** The raw label of a prediction, if a hand was detected. *)
Definition rawLabel (detections : list (list NormalizedLandmark))
  : option GestureType :=
  match detections with
  | landmarks :: _ => Some (detectGesture landmarks)
  | [] => None
  end.

(** The stabilizer seen from its raw inputs: [Some g] is a tick whose
    classification is [g], [None] a tick without a hand. *)
Definition tickRefs (r : StabilityRefs) (raw : option GestureType)
  : StabilityRefs :=
  match raw with
  | Some g => stabilize g r
  | None => mkRefs NONE NONE 0
  end.

Definition runRefs (raws : list (option GestureType)) : StabilityRefs :=
  fold_left tickRefs raws initialRefs.

(* ================================================================== *)
(** * Application state and mode machine ([App]) *)

Record AppState := mkApp {
  mode : AppMode;
  photos : list PhotoData;
  handState : HandState;
  focusId : option string;
  nextPhotoIndex : nat
}.

Definition initialApp : AppState := mkApp ASSEMBLED [] neutralHand None 0.

(** [!focusId]: [null] and the empty string are falsy. *)
Definition falsyId (f : option string) : bool :=
  match f with
  | None => true
  | Some s => String.eqb s EmptyString
  end.

(** [focusId === id] / [p.id !== focusId]. *)
Definition idIs (f : option string) (i : string) : bool :=
  match f with
  | None => false
  | Some s => String.eqb s i
  end.

(** The body of the gesture effect.  [None] would be the [TypeError] of
    [photo.id] on an out-of-range [photos[index]]. *)
Definition gestureEffect (st : AppState) : option AppState :=
  let h := handState st in
  if negb (isPresent h) then Some st
  else if gesture_eqb (gesture h) FIST && negb (mode_eqb (mode st) ASSEMBLED)
  then Some (mkApp ASSEMBLED (photos st) h None (nextPhotoIndex st))
  else if gesture_eqb (gesture h) OPEN_PALM then
    if mode_eqb (mode st) ASSEMBLED
    then Some (mkApp DISPERSED (photos st) h (focusId st) (nextPhotoIndex st))
    else if mode_eqb (mode st) FOCUS
    then Some (mkApp DISPERSED (photos st) h None (nextPhotoIndex st))
    else Some st
  else if gesture_eqb (gesture h) PINCH && mode_eqb (mode st) DISPERSED then
    if falsyId (focusId st) && (0 <? List.length (photos st))%nat then
      let index := (nextPhotoIndex st mod List.length (photos st))%nat in
      match nth_error (photos st) index with
      | Some photo =>
          Some (mkApp FOCUS (photos st) h (Some (id photo))
                      (nextPhotoIndex st + 1))
      | None => None
      end
    else Some st
  else Some st.

Definition handleDeletePhoto (i : string) (st : AppState) : AppState :=
  let newPhotos :=
    filter (fun p => negb (String.eqb (id p) i)) (photos st) in
  if idIs (focusId st) i
  then mkApp DISPERSED newPhotos (handState st) None (nextPhotoIndex st)
  else mkApp (mode st) newPhotos (handState st) (focusId st)
             (nextPhotoIndex st).

Definition onHandUpdate (newState : HandState) (st : AppState) : AppState :=
  mkApp (mode st) (photos st) newState (focusId st) (nextPhotoIndex st).

(* ================================================================== *)
(** * Showcase scheduler ([PhotoCloud]) *)

Inductive Phase := COOLDOWN | ACTIVE.

Record ShowcaseParticipant := mkParticipant {
  sp_id : string;
  offsetAngle : R;
  launchTime : R;
  hasPresented : bool;
  originalSlotAngle : R
}.

(** [Record<string, ShowcaseParticipant>]: a JavaScript object, kept as an
    association list in insertion order, which is the order [for ... in]
    visits its (non-numeric) keys in.  Keys are unique. *)
Definition ActiveMap : Type := list (string * ShowcaseParticipant).

Fixpoint objSet (k : string) (v : ShowcaseParticipant) (o : ActiveMap)
  : ActiveMap :=
  match o with
  | [] => [(k, v)]
  | (k', v') :: rest =>
      if String.eqb k' k then (k', v) :: rest else (k', v') :: objSet k v rest
  end.

Definition objDelete (k : string) (o : ActiveMap) : ActiveMap :=
  filter (fun kv => negb (String.eqb (fst kv) k)) o.

Definition objKeys (o : ActiveMap) : list string := map fst o.

Record ShowcaseSystemState := mkSys {
  active : ActiveMap;
  systemAngle : R;
  phase : Phase;
  cooldownUntil : R;
  lapCounter : nat
}.

(** The refs of the [PhotoCloud] controller. *)
Record Controller := mkController {
  spinVelocity : R;
  accumulatedSpin : R;
  spinRef : R;
  prevMode : AppMode;
  showcaseSystemRef : ShowcaseSystemState;
  prevSystemAngle : R
}.

(** The refs as created on the first render, the application starting in
    [ASSEMBLED]. *)
Definition initialController : Controller :=
  mkController 0 0 0 ASSEMBLED (mkSys [] 0 COOLDOWN 6 0) 0.

(** What one call of the [useFrame] callback reads: the props, the clock
    and the two [Math.random()] draws of the start of a cycle. *)
Record Frame := mkFrame {
  fr_photos : list PhotoData;
  fr_mode : AppMode;
  fr_focusId : option string;
  fr_time : R;
  fr_delta : R;
  fr_random1 : R;
  fr_random2 : R
}.

(** [a[i]] for an integral number [i]; [None] is [undefined]. *)
Definition arrayAt {A : Type} (a : list A) (i : Z) : option A :=
  if (i <? 0)%Z then None else nth_error a (Z.to_nat i).

Definition targetAngle : R := PI / 2.

(** Distance of a participant to the front of the camera: the
    [myAngle] / [normAngle] / [dist] computation of both loops. *)
Definition presentationDist (sysAngle : R) (p : ShowcaseParticipant) : R :=
  let myAngle := js_rem (sysAngle + offsetAngle p) (PI * 2) in
  let normAngle := js_rem (myAngle + PI * 2) (PI * 2) in
  let d := Rabs (normAngle - targetAngle) in
  if Rltb PI d then 2 * PI - d else d.

(** Distance of a participant to its slot of the rotating tree. *)
Definition slotDiff (time spin sysAngle : R) (p : ShowcaseParticipant) : R :=
  let treeRot := js_rem (time * 0.1 + spin) (PI * 2) in
  let slotWorldAngle := js_rem (treeRot + originalSlotAngle p) (PI * 2) in
  let currentOrbitAngle := js_rem (sysAngle + offsetAngle p) (PI * 2) in
  let n1 := js_rem (currentOrbitAngle + 2 * PI) (2 * PI) in
  let n2 := js_rem (slotWorldAngle + 2 * PI) (2 * PI) in
  let diff := Rabs (n1 - n2) in
  if Rltb PI diff then 2 * PI - diff else diff.

Definition slotAngleOf (p : PhotoData) : R :=
  atan2 (vx (treePosition p)) (vz (treePosition p)).

Definition candidatesOf (photos : list PhotoData) (focus : option string)
  : list PhotoData :=
  filter (fun p => negb (idIs focus (id p))) photos.

Definition firstIndex (rand : R) (n : Z) : Z := floor (rand * IZR n).

Definition secondIndex (idx1 n : Z) : Z :=
  let idx2 := Z.rem (idx1 + floor (IZR n / 2)) n in
  if (idx1 =? idx2)%Z then Z.rem (idx1 + 1) n else idx2.

(** 1. COOLDOWN -> START, once [time > sys.cooldownUntil].  The result is
    the new system state and the new [prevSystemAngle]; [None] is the
    [TypeError] of [p1.id] on an out-of-range index. *)
Definition startCycle (f : Frame) (sys : ShowcaseSystemState) (prev : R)
  : option (ShowcaseSystemState * R) :=
  let candidates := candidatesOf (fr_photos f) (fr_focusId f) in
  if (2 <=? List.length candidates)%nat then
    let n := Z.of_nat (List.length candidates) in
    let idx1 := firstIndex (fr_random1 f) n in
    let idx2 := secondIndex idx1 n in
    match arrayAt candidates idx1, arrayAt candidates idx2 with
    | Some p1, Some p2 =>
        let angle := fr_random2 f * PI * 2 in
        let a1 := mkParticipant (id p1) 0 (fr_time f) false (slotAngleOf p1) in
        let a2 := mkParticipant (id p2) PI (fr_time f + 0.7) false
                                (slotAngleOf p2) in
        Some (mkSys (objSet (id p2) a2 (objSet (id p1) a1 [])) angle ACTIVE
                    (cooldownUntil sys) 0,
              angle)
    | _, _ => None
    end
  else Some (sys, prev).

Definition launched (time : R) (p : ShowcaseParticipant) : bool :=
  Rleb (launchTime p) time.

Definition inPresentationZoneOf (time : R) (sys : ShowcaseSystemState)
  : bool :=
  existsb (fun kv =>
             launched time (snd kv)
             && (Rltb (presentationDist (systemAngle sys) (snd kv)) 0.4
                 && (2 <=? lapCounter sys)%nat))
          (active sys).

Definition markPresented (time sysAngle : R) (laps : nat)
    (p : ShowcaseParticipant) : ShowcaseParticipant :=
  if negb (hasPresented p) && launched time p && (2 <=? laps)%nat then
    if Rltb (presentationDist sysAngle p) 0.1
    then mkParticipant (sp_id p) (offsetAngle p) (launchTime p) true
                       (originalSlotAngle p)
    else p
  else p.

Definition returns (inZone : bool) (time spin sysAngle : R)
    (p : ShowcaseParticipant) : bool :=
  hasPresented p && negb inZone && Rltb (slotDiff time spin sysAngle p) 0.3.

(** 2. ACTIVE LOOP. *)
Definition activeLoop (f : Frame) (spin : R) (sys : ShowcaseSystemState)
    (prev : R) : ShowcaseSystemState * R :=
  let time := fr_time f in
  let inPresentationZone := inPresentationZoneOf time sys in
  let targetSpeed := if inPresentationZone then 0.3 else 2.5 in
  let angle := systemAngle sys + targetSpeed * fr_delta f in
  let laps := floor (angle / (PI * 2)) in
  let prevLaps := floor (prev / (PI * 2)) in
  let lapCounter' :=
    if (prevLaps <? laps)%Z then S (lapCounter sys) else lapCounter sys in
  let marked :=
    map (fun kv => (fst kv, markPresented time angle lapCounter' (snd kv)))
        (active sys) in
  let toRemove :=
    objKeys (filter (fun kv => returns inPresentationZone time spin angle
                                       (snd kv)) marked) in
  let sys1 := mkSys marked angle (phase sys) (cooldownUntil sys) lapCounter' in
  if (0 <? List.length toRemove)%nat then
    let remaining := fold_left (fun o k => objDelete k o) toRemove marked in
    if (List.length remaining =? 0)%nat
    then (mkSys remaining angle COOLDOWN (time + 6.0) lapCounter', angle)
    else (mkSys remaining angle (phase sys) (cooldownUntil sys) lapCounter',
          angle)
  else (sys1, angle).

(** Reset if mode changes. *)
Definition resetSystem (time : R) (sys : ShowcaseSystemState)
  : ShowcaseSystemState :=
  mkSys [] (systemAngle sys) COOLDOWN (time + 6.0) 0.

Definition scheduler (f : Frame) (spin : R) (sys : ShowcaseSystemState)
    (prev : R) : option (ShowcaseSystemState * R) :=
  if mode_eqb (fr_mode f) ASSEMBLED && (2 <=? List.length (fr_photos f))%nat
  then
    match phase sys with
    | COOLDOWN =>
        if Rltb (cooldownUntil sys) (fr_time f)
        then startCycle f sys prev
        else Some (sys, prev)
    | ACTIVE => Some (activeLoop f spin sys prev)
    end
  else Some (resetSystem (fr_time f) sys, prev).

(** PHYSICS (Common): the new spin velocity before friction. *)
Definition kick (mode prev : AppMode) (v : R) : R :=
  if mode_eqb prev mode then v
  else if mode_eqb mode DISPERSED && mode_eqb prev ASSEMBLED then -12.0
  else if mode_eqb mode ASSEMBLED then 20.0
  else if mode_eqb mode FOCUS then 0
  else v.

(** One call of the [useFrame] callback of [PhotoCloud]. *)
Definition useFrame (f : Frame) (c : Controller) : option Controller :=
  let friction := if mode_eqb (fr_mode f) DISPERSED then 0.82 else 0.85 in
  let v := kick (fr_mode f) (prevMode c) (spinVelocity c) * friction in
  let acc := accumulatedSpin c + v * fr_delta f in
  match scheduler f acc (showcaseSystemRef c) (prevSystemAngle c) with
  | Some (sys', prev') => Some (mkController v acc acc (fr_mode f) sys' prev')
  | None => None
  end.

(** Running the callback over successive frames. *)
Fixpoint runFrames (fs : list Frame) (c : Controller) : option Controller :=
  match fs with
  | [] => Some c
  | f :: rest =>
      match useFrame f c with
      | Some c' => runFrames rest c'
      | None => None
      end
  end.

(** The states the controller can be in: the initial refs and whatever a
    frame makes of a reachable state, for frames whose random draws are
    in [[0, 1)] as [Math.random()] promises. *)
Definition goodFrame (f : Frame) : Prop :=
  0 <= fr_random1 f < 1 /\ 0 <= fr_random2 f < 1.

Inductive reachable : Controller -> Prop :=
| reach_init : reachable initialController
| reach_frame f c c' :
    reachable c -> goodFrame f -> useFrame f c = Some c' -> reachable c'.

(* ================================================================== *)
(** * Notions used in the statements *)

Abbreviation sysOf c := (showcaseSystemRef c).

(** Euclidean distance of two 3D points, written out. *)
Definition euclid (a b : NormalizedLandmark) : R :=
  sqrt (Rsqr (lx a - lx b) + Rsqr (ly a - ly b) + Rsqr (lz a - lz b)).

(** The raw label [b] of a tick repeats the tick before it: that tick
    saw a hand and classified it as [b].  At start-up and after a tick
    without a hand there is nothing to repeat. *)
Definition repeatsPrevious (history : list (option GestureType))
    (b : GestureType) : bool :=
  match last history None with
  | Some a => gesture_eqb b a
  | None => false
  end.

(** Completed turns of an angle: [Math.floor(angle / (Math.PI * 2))]. *)
Definition fullTurns (a : R) : Z := floor (a / (PI * 2)).

(** ORBIT SPEED CONTROL: the speed the ACTIVE loop advances the angle by. *)
Definition orbitSpeed (time : R) (sys : ShowcaseSystemState) : R :=
  if inPresentationZoneOf time sys then 0.3 else 2.5.

(** A frame of the ACTIVE loop. *)
Definition activeFrame (f : Frame) (c : Controller) : Prop :=
  fr_mode f = ASSEMBLED
  /\ (2 <= List.length (fr_photos f))%nat
  /\ phase (sysOf c) = ACTIVE.

(** A run of successive frames of the ACTIVE loop, each advancing the
    clock by a non-negative step during which the orbit, at its top speed
    of 2.5, makes less than a full turn. *)
Inductive shortStepRun : Controller -> list Frame -> Controller -> Prop :=
| run_done c : shortStepRun c [] c
| run_frame c f c1 fs c' :
    activeFrame f c ->
    0 <= fr_delta f ->
    2.5 * fr_delta f < 2 * PI ->
    useFrame f c = Some c1 ->
    shortStepRun c1 fs c' ->
    shortStepRun c (f :: fs) c'.

(** A cooled-down system: no participant, in COOLDOWN, with the cooldown
    running at least until [T]. *)
Definition cooling (T : R) (sys : ShowcaseSystemState) : Prop :=
  phase sys = COOLDOWN /\ active sys = [] /\ T <= cooldownUntil sys.

(** The shape of the active map in each phase. *)
Definition wellFormed (sys : ShowcaseSystemState) : Prop :=
  NoDup (objKeys (active sys))
  /\ (phase sys = COOLDOWN -> active sys = [])
  /\ (phase sys = ACTIVE ->
      List.length (active sys) = 1%nat \/ List.length (active sys) = 2%nat).

(* ================================================================== *)
(** * Concrete inputs *)

(** A closed hand: the wrist at (0.5, 0.8), every other joint 0.2 above
    it, the thumb tip on the index tip. *)
Definition closedHand : list NormalizedLandmark :=
  mkLandmark 0.5 0.8 0 :: repeat (mkLandmark 0.5 0.6 0) 20.

(** A photo of a given id; the mode machine only reads ids. *)
Definition photoP (n : string) : PhotoData := mkPhoto n (0, 0, 0) (0, 0, 0).

Definition pinchingHand : HandState := mkHand PINCH (0.5, 0.5) 0 true.

(** Scenario C: pool [P0, P1, P2], cursor 0. *)
Definition scenarioC : AppState :=
  mkApp DISPERSED [photoP "P0"; photoP "P1"; photoP "P2"] pinchingHand None 0.

(** FOCUS on the second of two photos. *)
Definition focusedOnP1 : AppState :=
  mkApp FOCUS [photoP "P0"; photoP "P1"] neutralHand (Some "P1"%string) 2.

(** A cursor left at 7 by earlier selections, over a pool that deletions
    shrank to two items: the selection reads index [7 mod 2 = 1]. *)
Definition shrunkPool : AppState :=
  mkApp DISPERSED [photoP "P0"; photoP "P1"] pinchingHand None 7.

(** Two photos on the tree, at polar angles PI/2 and 0. *)
Definition photoA : PhotoData := mkPhoto "A" (1, 0, 0) (0, 0, 0).

Definition photoB : PhotoData := mkPhoto "B" (0, 0, 1) (0, 0, 0).

(** The frame at [time], [delta] after the previous one, in ASSEMBLED
    with the two photos and no focus.  The draws are only read by a
    frame that starts a cycle: item 0, system angle 3 PI / 2. *)
Definition assembledFrame (time delta : R) : Frame :=
  mkFrame [photoA; photoB] ASSEMBLED None time delta 0 (3 / 4).

(** The participants of the cycle started at time 2 PI by
    [assembledFrame]: A first, B half a turn behind and 0.7 later. *)
Definition partA (presented : bool) : ShowcaseParticipant :=
  mkParticipant "A" 0 (2 * PI) presented (PI / 2).

Definition partB : ShowcaseParticipant :=
  mkParticipant "B" PI (2 * PI + 0.7) false 0.

(** The controller in the ACTIVE phase of that cycle, the tree at rest. *)
Definition orbiting (ps : ActiveMap) (angle : R) (laps : nat) : Controller :=
  mkController 0 0 0 ASSEMBLED (mkSys ps angle ACTIVE 6 laps) angle.

Definition bothActive : ActiveMap :=
  [("A"%string, partA false); ("B"%string, partB)].

(* ================================================================== *)
(** * Further code of the cited files *)

Definition Reqb (x y : R) : bool := if Req_dec_T x y then true else false.

(** ** The prediction loop of [HandTracker] *)

(** The locals [lastVideoTime], [lastPredictionTime] of the effect and
    the stability refs. *)
Record TrackerState := mkTracker {
  lastVideoTime : R;
  lastPredictionTime : R;
  trackerRefs : StabilityRefs
}.

Definition initialTracker : TrackerState := mkTracker (-1) 0 initialRefs.

Definition PREDICTION_INTERVAL : R := 50.

(** One call of [predictWebcam] once the video and the landmarker are
    there: [now] is [performance.now()], [currentTime] the video's
    [currentTime], [detections] what [detectForVideo] would return.  The
    result is the new state and the hand state given to [onHandUpdate],
    if any.  [None] is the [TypeError] of [predict]; the next animation
    frame is then never requested. *)
Definition predictWebcam (now currentTime : R)
    (detections : list (list NormalizedLandmark)) (t : TrackerState)
  : option (TrackerState * option HandState) :=
  if Rleb PREDICTION_INTERVAL (now - lastPredictionTime t) then
    if negb (Reqb currentTime (lastVideoTime t)) then
      match predict detections (trackerRefs t) with
      | Some (r', h) => Some (mkTracker currentTime now r', Some h)
      | None => None
      end
    else Some (t, None)
  else Some (t, None).

(** An animation frame as the loop sees it. *)
Record AnimationFrame := mkAnimationFrame {
  af_now : R;
  af_currentTime : R;
  af_detections : list (list NormalizedLandmark)
}.

(** The hand states emitted over successive animation frames, each with
    the time of its prediction, until the loop ends. *)
Fixpoint runTracker (frames : list AnimationFrame) (t : TrackerState)
  : list (R * HandState) :=
  match frames with
  | [] => []
  | f :: rest =>
      match predictWebcam (af_now f) (af_currentTime f) (af_detections f) t
      with
      | Some (t', Some h) => (af_now f, h) :: runTracker rest t'
      | Some (t', None) => runTracker rest t'
      | None => []
      end
  end.

(** ** Uploads and the frame position generator of [App] *)

Definition TREE_HEIGHT : R := 13.
Definition TREE_RADIUS_BOTTOM : R := 4.8.

(** [generateFramePosition(index, totalExisting)]; [rand1], [rand2],
    [rand3] are its three [Math.random()] draws in program order.  The
    result is [(treePosition, scatterPosition)]. *)
Definition generateFramePosition (index totalExisting : nat)
    (rand1 rand2 rand3 : R) : Vec3 * Vec3 :=
  let i := (totalExisting + index)%nat in
  let minHPercent := 0.25 in
  let maxHPercent := 0.75 in
  let heightRange := maxHPercent - minHPercent in
  let heightCycle := 15%nat in
  let normalizedH :=
    minHPercent + (INR (i mod heightCycle) / INR heightCycle) * heightRange in
  let finalH := (normalizedH + (rand1 * 0.04 - 0.02)) * TREE_HEIGHT in
  let rMaxAtH :=
    (TREE_RADIUS_BOTTOM * (TREE_HEIGHT - finalH)) / TREE_HEIGHT in
  let rTree := rMaxAtH * (0.9 + rand2 * 0.1) in
  let goldenAngle := 2.39996 in
  let thetaTree := INR i * goldenAngle in
  let tx := cos thetaTree * rTree in
  let tz := sin thetaTree * rTree in
  let ty := finalH - TREE_HEIGHT / 2 in
  let rScatter := 6.0 + INR (i mod 3) * 1.5 + rand3 in
  let verticalBand := 0.8 in
  (* [yRatio] is computed by the source and never read *)
  let rndY := INR ((i * 13) mod 20) / 20 in
  let safeY := (rndY - 0.5) * verticalBand in
  let phi := acos safeY in
  let thetaScatter := INR i * goldenAngle in
  let sx := rScatter * sin phi * cos thetaScatter in
  let sy := rScatter * cos phi in
  let sz := rScatter * sin phi * sin thetaScatter in
  ((tx, ty, tz), (sx, sy, sz)).

(** The state update of [handleUpload]: [setPhotos(prev => [...prev,
    ...newPhotos])]. *)
Definition addPhotos (newPhotos : list PhotoData) (st : AppState)
  : AppState :=
  mkApp (mode st) (photos st ++ newPhotos) (handState st) (focusId st)
        (nextPhotoIndex st).

(** The states of [App]: it starts in ASSEMBLED without focus, with the
    photos loaded from storage on mount, if any; then hands are
    reported, the gesture effect runs, photos are deleted and
    uploaded. *)
Inductive appReachable : AppState -> Prop :=
| app_init loaded : appReachable (mkApp ASSEMBLED loaded neutralHand None 0)
| app_hand h st : appReachable st -> appReachable (onHandUpdate h st)
| app_effect st st' :
    appReachable st -> gestureEffect st = Some st' -> appReachable st'
| app_delete i st : appReachable st -> appReachable (handleDeletePhoto i st)
| app_upload newPhotos st :
    appReachable st -> appReachable (addPhotos newPhotos st).

(** ** Image scaling of [processImageFile] *)

Definition MAX_IMAGE_DIMENSION : R := 800.

(** The "Scale down if too large" step on [img.width], [img.height]:
    the width and height the canvas is then given. *)
Definition scaleDown (width height : R) : R * R :=
  if Rltb height width then
    if Rltb MAX_IMAGE_DIMENSION width
    then (MAX_IMAGE_DIMENSION, height * (MAX_IMAGE_DIMENSION / width))
    else (width, height)
  else
    if Rltb MAX_IMAGE_DIMENSION height
    then (width * (MAX_IMAGE_DIMENSION / height), MAX_IMAGE_DIMENSION)
    else (width, height).

(** ** The per-frame target of a [Frame] of [PhotoCloud] *)

(** [o[k]]. *)
Fixpoint objGet (k : string) (o : ActiveMap) : option ShowcaseParticipant :=
  match o with
  | [] => None
  | (k', v) :: rest => if String.eqb k' k then Some v else objGet k rest
  end.

(** [data.id.split('')]: the UTF-16 code units of an id.  An id is held
    as the bytes of its UTF-8 encoding: a byte below 128 is one unit, a
    sequence of two or three bytes is the unit of its code point, and a
    sequence of four bytes (a code point above 0xFFFF) is a surrogate
    pair.  A byte that starts no well-formed sequence is kept as it
    is. *)
Fixpoint codeUnits (bytes : list N) : list N :=
  match bytes with
  | [] => []
  | b0 :: rest =>
      let continues b := ((128 <=? b) && (b <? 192))%N in
      if (b0 <? 128)%N then b0 :: codeUnits rest
      else
        match rest with
        | b1 :: rest1 =>
            if ((192 <=? b0) && (b0 <? 224))%N && continues b1
            then (b0 mod 32 * 64 + b1 mod 64)%N :: codeUnits rest1
            else
              match rest1 with
              | b2 :: rest2 =>
                  if ((224 <=? b0) && (b0 <? 240))%N
                     && continues b1 && continues b2
                  then (b0 mod 16 * 4096 + b1 mod 64 * 64 + b2 mod 64)%N
                       :: codeUnits rest2
                  else
                    match rest2 with
                    | b3 :: rest3 =>
                        if ((240 <=? b0) && (b0 <? 248))%N && continues b1
                           && continues b2 && continues b3
                        then
                          let codePoint :=
                            (b0 mod 8 * 262144 + b1 mod 64 * 4096
                             + b2 mod 64 * 64 + b3 mod 64)%N in
                          let offset := (codePoint - 65536)%N in
                          (55296 + offset / 1024)%N
                          :: (56320 + offset mod 1024)%N
                          :: codeUnits rest3
                        else b0 :: codeUnits rest
                    | [] => b0 :: codeUnits rest
                    end
              | [] => b0 :: codeUnits rest
              end
        | [] => [b0]
        end
  end.

(** [idSeed]: the sum of [char.charCodeAt(0)] over the code units of the
    id. *)
Definition idSeed (s : string) : N :=
  fold_left (fun acc char => (acc + char)%N)
            (codeUnits (map Ascii.N_of_ascii (list_ascii_of_string s)))
            0%N.

(** What the callback of a [Frame] hands to the damping functions. *)
Record FrameTarget := mkTarget {
  targetPos : Vec3;
  targetRot : Vec3;
  targetScale : R;
  smoothTime : R
}.

(** [participant], when [isShowcaseActive]: in the map and launched. *)
Definition launchedParticipant (time : R) (data : PhotoData)
    (showcase : ShowcaseSystemState) : option ShowcaseParticipant :=
  match objGet (id data) (active showcase) with
  | Some p => if Rleb (launchTime p) time then Some p else None
  | None => None
  end.

Definition focusTarget (aspect time fov viewportAspect : R) : FrameTarget :=
  let distFromCamera := 4 in
  let zPos := 22 - distFromCamera in
  let vFOV := fov * PI / 180 in
  let visibleHeight := 2 * tan (vFOV / 2) * distFromCamera in
  let visibleWidth := visibleHeight * viewportAspect in
  mkTarget (0, 0 + sin (time * 1.5) * 0.15, zPos)
           (sin (time * 0.8) * 0.05, sin (time * 0.6) * 0.05, 0)
           (if Rltb ((visibleWidth * 0.8) / (visibleHeight * 0.8)) aspect
            then (visibleWidth * 0.8) / aspect
            else visibleHeight * 0.8)
           0.4.

Definition showcaseTarget (data : PhotoData) (time : R)
    (showcase : ShowcaseSystemState) (participant : ShowcaseParticipant)
  : FrameTarget :=
  let R0 := TREE_RADIUS_BOTTOM * 1.6 in
  let myAngle := systemAngle showcase + offsetAngle participant in
  let bob := sin (time * 2 + IZR (Z.of_N (idSeed (id data)))) * 0.5 in
  let normAngle := js_rem (myAngle + PI * 2) (PI * 2) in
  let d := Rabs (normAngle - PI / 2) in
  let d := if Rltb PI d then 2 * PI - d else d in
  let isPresentationZone := Rltb d 0.5 in
  if isPresentationZone && (2 <=? lapCounter showcase)%nat
  then mkTarget (cos myAngle * R0, 0 + bob, sin myAngle * R0) (0, 0, 0)
                1.9 0.6
  else mkTarget (cos myAngle * R0, 0 + bob, sin myAngle * R0)
                (0, - myAngle + PI / 2, 0) 1.25 0.6.

Definition treeTarget (data : PhotoData) (time currentSpin : R)
  : FrameTarget :=
  let p := treePosition data in
  let initialAngle := atan2 (vx p) (vz p) in
  let rotY := time * 0.1 + currentSpin in
  let x := vx p * cos rotY - vz p * sin rotY in
  let z := vx p * sin rotY + vz p * cos rotY in
  mkTarget (x, vy p, z) (0, initialAngle + rotY, 0) 1.25 0.5.

Definition dispersedTarget (data : PhotoData)
    (time currentSpin smoothedRot : R) : FrameTarget :=
  let p := scatterPosition data in
  let seed := IZR (Z.of_N (idSeed (id data))) in
  let rotTotal := (time * 0.1) + (smoothedRot * 3.0) + currentSpin in
  let x := vx p * cos rotTotal - vz p * sin rotTotal in
  let z := vx p * sin rotTotal + vz p * cos rotTotal in
  mkTarget (x, vy p + sin (time * 0.5 + seed) * 0.05, z)
           (sin (time * 0.5 + seed) * 0.05, cos (time * 0.3 + seed) * 0.05, 0)
           1.6 0.25.

(** The STATE MACHINE of the callback of a mounted [Frame]: [aspect] is
    the aspect of the loaded texture, [smoothedRot] the damped hand
    rotation, [fov] and [viewportAspect] come from the camera and the
    viewport. *)
Definition frameTarget (data : PhotoData) (aspect : R) (mode : AppMode)
    (isFocused : bool) (time currentSpin smoothedRot fov viewportAspect : R)
    (showcase : ShowcaseSystemState) : FrameTarget :=
  if isFocused && mode_eqb mode FOCUS
  then focusTarget aspect time fov viewportAspect
  else
    match launchedParticipant time data showcase, mode_eqb mode ASSEMBLED with
    | Some participant, true => showcaseTarget data time showcase participant
    | _, true => treeTarget data time currentSpin
    | _, false => dispersedTarget data time currentSpin smoothedRot
    end.

(** ** Further notions used in the statements *)

(** Successive prediction times, each at least the interval after the
    one before. *)
Fixpoint spacedFrom (prev : R) (emitted : list (R * HandState)) : Prop :=
  match emitted with
  | [] => True
  | (now, _) :: rest => prev + PREDICTION_INTERVAL <= now /\ spacedFrom now rest
  end.

(** The ways the gesture effect can act. *)
Inductive effectStep (st : AppState) : AppState -> Prop :=
| step_idle : effectStep st st
| step_fist :
    isPresent (handState st) = true ->
    gesture (handState st) = FIST ->
    mode st <> ASSEMBLED ->
    effectStep st (mkApp ASSEMBLED (photos st) (handState st) None
                         (nextPhotoIndex st))
| step_palm_assembled :
    isPresent (handState st) = true ->
    gesture (handState st) = OPEN_PALM ->
    mode st = ASSEMBLED ->
    effectStep st (mkApp DISPERSED (photos st) (handState st) (focusId st)
                         (nextPhotoIndex st))
| step_palm_focus :
    isPresent (handState st) = true ->
    gesture (handState st) = OPEN_PALM ->
    mode st = FOCUS ->
    effectStep st (mkApp DISPERSED (photos st) (handState st) None
                         (nextPhotoIndex st))
| step_pinch photo :
    isPresent (handState st) = true ->
    gesture (handState st) = PINCH ->
    mode st = DISPERSED ->
    falsyId (focusId st) = true ->
    nth_error (photos st) (nextPhotoIndex st mod List.length (photos st))
    = Some photo ->
    effectStep st (mkApp FOCUS (photos st) (handState st) (Some (id photo))
                         (nextPhotoIndex st + 1)).

(** The focus is set exactly in FOCUS mode, on an item of the pool. *)
Definition focusConsistent (st : AppState) : Prop :=
  (mode st = FOCUS <-> focusId st <> None)
  /\ (forall i, focusId st = Some i -> In i (map id (photos st))).

(** A participant as a frame may leave it: the same but for the
    presented flag, which is only ever raised. *)
Definition sameParticipant (p p' : ShowcaseParticipant) : Prop :=
  sp_id p' = sp_id p
  /\ offsetAngle p' = offsetAngle p
  /\ launchTime p' = launchTime p
  /\ originalSlotAngle p' = originalSlotAngle p
  /\ (hasPresented p = true -> hasPresented p' = true).

(** The participants of a sound system: keyed by their id, at offset 0
    or PI, presented only once two laps are counted. *)
Definition participantsSound (sys : ShowcaseSystemState) : Prop :=
  forall k p,
    In (k, p) (active sys) ->
    k = sp_id p
    /\ (offsetAngle p = 0 \/ offsetAngle p = PI)
    /\ (hasPresented p = true -> (2 <= lapCounter sys)%nat).

(** [r] is the distance of the angles [x] and [y] on the circle: the
    least [|x - y - 2 PI k|] over the integers [k]. *)
Definition circularDistance (r x y : R) : Prop :=
  0 <= r <= PI
  /\ (exists k : Z, r = Rabs (x - y - 2 * PI * IZR k))
  /\ (forall k : Z, r <= Rabs (x - y - 2 * PI * IZR k)).

(** ** Further concrete inputs *)

(** An open hand: the wrist at x = 0.2, every other joint at x = 0.4. *)
Definition openHand : list NormalizedLandmark :=
  mkLandmark 0.2 0.9 0 :: repeat (mkLandmark 0.4 0.2 0) 20.

(** A present hand whose stable gesture is OPEN_PALM. *)
Definition openPalmHand : HandState := mkHand OPEN_PALM (0.5, 0.5) 0 true.

(** FOCUS on the second of three photos, selected at cursor 1, the hand
    still pinching. *)
Definition pinchingOnP1 : AppState :=
  mkApp FOCUS [photoP "P0"; photoP "P1"; photoP "P2"] pinchingHand
        (Some "P1"%string) 2.

(** A pool of two with one item focused: one candidate only. *)
Definition focusedFrame (time delta : R) : Frame :=
  mkFrame [photoA; photoB] ASSEMBLED (Some "A"%string) time delta 0 0.

(* ================================================================== *)
(** * Basic facts *)

Lemma Rltb_true (x y : R) : Rltb x y = true <-> x < y.
Proof. unfold Rltb; destruct (Rlt_dec x y); split; intros; try easy. Qed.

Lemma Rltb_false (x y : R) : Rltb x y = false <-> y <= x.
Proof.
  unfold Rltb; destruct (Rlt_dec x y); split; intros; try easy; lra.
Qed.

Lemma Rleb_true (x y : R) : Rleb x y = true <-> x <= y.
Proof. unfold Rleb; destruct (Rle_dec x y); split; intros; try easy. Qed.

Lemma gesture_eqb_eq (a b : GestureType) : gesture_eqb a b = true <-> a = b.
Proof.
  unfold gesture_eqb; destruct (GestureType_eq_dec a b); split; easy.
Qed.

Lemma mode_eqb_eq (a b : AppMode) : mode_eqb a b = true <-> a = b.
Proof. unfold mode_eqb; destruct (AppMode_eq_dec a b); split; easy. Qed.

Lemma nth_error_nth_lm (landmarks : list NormalizedLandmark) i p :
  nth_error landmarks i = Some p -> lm landmarks i = p.
Proof. intros H; unfold lm; now apply nth_error_nth. Qed.

(* ================================================================== *)
(** * The classifier *)

Section Classifier.

Lemma dist_euclid a b : dist a b = euclid a b.
Proof. unfold dist, euclid, Rsqr; f_equal; ring. Qed.

Variable landmarks : list NormalizedLandmark.
Variables wrist indexTip middleTip ringTip pinkyTip : NormalizedLandmark.
Hypothesis at0 : nth_error landmarks 0 = Some wrist.
Hypothesis at8 : nth_error landmarks 8 = Some indexTip.
Hypothesis at12 : nth_error landmarks 12 = Some middleTip.
Hypothesis at16 : nth_error landmarks 16 = Some ringTip.
Hypothesis at20 : nth_error landmarks 20 = Some pinkyTip.

Lemma avgDistToWrist_mean :
  avgDistToWrist landmarks =
  (euclid indexTip wrist + euclid middleTip wrist
   + euclid ringTip wrist + euclid pinkyTip wrist) / 4.
Proof.
  unfold avgDistToWrist, tips; simpl.
  rewrite (nth_error_nth_lm _ _ _ at0), (nth_error_nth_lm _ _ _ at8),
    (nth_error_nth_lm _ _ _ at12), (nth_error_nth_lm _ _ _ at16),
    (nth_error_nth_lm _ _ _ at20).
  rewrite !dist_euclid; lra.
Qed.

(** C3. A sample of at least 21 points whose mean distance from the
    wrist (point 0) to the four non-thumb fingertips (points 8, 12, 16,
    20) is below 0.4 is classified FIST, whatever the thumb tip
    (point 4) is: the FIST test comes before the PINCH test. *)
Theorem fist_takes_priority :
  (21 <= List.length landmarks)%nat ->
  (euclid indexTip wrist + euclid middleTip wrist
   + euclid ringTip wrist + euclid pinkyTip wrist) / 4 < 0.4 ->
  detectGesture landmarks = FIST.
Proof.
  intros Hlen Hmean. unfold detectGesture.
  replace (List.length landmarks <? 21)%nat with false
    by (symmetry; apply Nat.ltb_ge; exact Hlen).
  rewrite avgDistToWrist_mean.
  now replace (Rltb _ 0.4) with true by (symmetry; now apply Rltb_true).
Qed.

End Classifier.

Lemma euclid_closedHand :
  euclid (mkLandmark 0.5 0.6 0) (mkLandmark 0.5 0.8 0) = 0.2.
Proof.
  unfold euclid; cbn [lx ly lz].
  replace (Rsqr (0.5 - 0.5) + Rsqr (0.6 - 0.8) + Rsqr (0 - 0))
    with (Rsqr 0.2) by (unfold Rsqr; lra).
  apply sqrt_Rsqr; lra.
Qed.

Lemma fist_takes_priority_witness :
  pinchDist closedHand < 0.06 /\ detectGesture closedHand = FIST.
Proof.
  split.
  - unfold pinchDist, closedHand, lm; cbn [repeat nth].
    rewrite dist_euclid; unfold euclid; cbn [lx ly lz].
    replace (Rsqr (0.5 - 0.5) + Rsqr (0.6 - 0.6) + Rsqr (0 - 0))
      with 0 by (unfold Rsqr; ring).
    rewrite sqrt_0; lra.
  - apply (fist_takes_priority closedHand (mkLandmark 0.5 0.8 0)
             (mkLandmark 0.5 0.6 0) (mkLandmark 0.5 0.6 0)
             (mkLandmark 0.5 0.6 0) (mkLandmark 0.5 0.6 0));
      try reflexivity.
    rewrite euclid_closedHand; lra.
Defined.

(* ================================================================== *)
(** * The stabilizer *)

Lemma runRefs_snoc (raws : list (option GestureType)) raw :
  runRefs (raws ++ [raw]) = tickRefs (runRefs raws) raw.
Proof. unfold runRefs; now rewrite fold_left_app. Qed.

Lemma runRefs_snoc2 (raws : list (option GestureType)) r1 r2 :
  runRefs (raws ++ [r1; r2]) = tickRefs (runRefs (raws ++ [r1])) r2.
Proof.
  change [r1; r2] with ([r1] ++ [r2]).
  now rewrite app_assoc, runRefs_snoc.
Qed.

(** A prediction that returns moves the refs as [tickRefs] does on its
    raw label, and emits the stable label. *)
Lemma predict_tickRefs (detections : list (list NormalizedLandmark))
    (r r' : StabilityRefs) (h : HandState) :
  predict detections r = Some (r', h) ->
  r' = tickRefs r (rawLabel detections) /\ gesture h = stableGestureRef r'.
Proof.
  unfold predict, rawLabel. destruct detections as [|landmarks rest].
  - intros H; injection H as <- <-. now cbn.
  - destruct (calculateHandRotation landmarks); [| discriminate].
    destruct (nth_error landmarks 9); [| discriminate].
    intros H; injection H as <- <-. now cbn.
Qed.

(** After a classified tick the last raw label is that tick's label and
    it has been counted at least once. *)
Lemma stabilize_last (g : GestureType) (r : StabilityRefs) :
  lastRawGestureRef (stabilize g r) = g
  /\ (1 <= gestureConsistencyCount (stabilize g r))%nat.
Proof.
  unfold stabilize.
  destruct (gesture_eqb g (lastRawGestureRef r)) eqn:E; cbn.
  - apply gesture_eqb_eq in E.
    destruct (gestureConsistencyCount r); cbn; split; auto; lia.
  - split; auto.
Qed.

(** The effect of a classified tick on a state whose last raw label has
    been counted. *)
Lemma stabilize_step (g : GestureType) (r : StabilityRefs) :
  (1 <= gestureConsistencyCount r)%nat ->
  stabilize g r =
  if GestureType_eq_dec g (lastRawGestureRef r)
  then mkRefs g g (S (gestureConsistencyCount r))
  else mkRefs (stableGestureRef r) g 1.
Proof.
  intros Hc. unfold stabilize, gesture_eqb.
  destruct (GestureType_eq_dec g (lastRawGestureRef r)) as [->|]; cbn.
  - destruct (gestureConsistencyCount r); [lia | reflexivity].
  - reflexivity.
Qed.

(** A classified tick, after any history: a label that repeats the tick
    before it is counted once more and becomes stable; any other label,
    the first one after start-up or a loss of the hand included, is
    counted once and leaves the stable label alone. *)
Lemma classified_tick (history : list (option GestureType))
    (b : GestureType) :
  runRefs (history ++ [Some b]) =
  if repeatsPrevious history b
  then mkRefs b b (S (gestureConsistencyCount (runRefs history)))
  else mkRefs (stableGestureRef (runRefs history)) b 1.
Proof.
  rewrite runRefs_snoc. cbn [tickRefs]. unfold repeatsPrevious.
  destruct history as [|x h _] using rev_ind.
  - cbn. destruct b; reflexivity.
  - rewrite last_last, runRefs_snoc. destruct x as [a|]; cbn [tickRefs].
    + destruct (stabilize_last a (runRefs h)) as [Hl Hc].
      rewrite stabilize_step by exact Hc. rewrite Hl. unfold gesture_eqb.
      destruct (GestureType_eq_dec b a); reflexivity.
    + destruct b; reflexivity.
Qed.

Section Stabilizer.

Variable history : list (option GestureType).

Let seen (a : GestureType) := runRefs (history ++ [Some a]).

Lemma seen_last a :
  lastRawGestureRef (seen a) = a
  /\ (1 <= gestureConsistencyCount (seen a))%nat.
Proof. unfold seen; rewrite runRefs_snoc; apply stabilize_last. Qed.

(** C4. After every sequence of ticks (classified ticks and ticks
    without a hand), a tick classified [b]:
    - if [b] repeats the label of the tick just before, increments the
      counter and makes [b] the stable label;
    - otherwise (another label before, or no classified tick before: at
      start-up and after a loss of the hand) sets the counter to 1, the
      last raw label to [b], and leaves the stable label as it was.
    So the stable label changes only on the second of two equal
    consecutive raw labels, and then to that label; a first tick never
    changes it.  Written out for a label [a] followed by [b]; and a
    one-tick flip [x, x, y, x] leaves the stable label at [x]. *)
Theorem stable_label_needs_two_consecutive :
  (forall b,
      let before := runRefs history in
      let after := runRefs (history ++ [Some b]) in
      lastRawGestureRef after = b
      /\ gestureConsistencyCount after
         = (if repeatsPrevious history b
            then S (gestureConsistencyCount before) else 1%nat)
      /\ stableGestureRef after
         = (if repeatsPrevious history b then b else stableGestureRef before)
      /\ (stableGestureRef after <> stableGestureRef before ->
          repeatsPrevious history b = true /\ stableGestureRef after = b))
  /\ (forall a b,
      let before := runRefs (history ++ [Some a]) in
      let after := runRefs (history ++ [Some a; Some b]) in
      lastRawGestureRef after = b
      /\ gestureConsistencyCount after
         = (if GestureType_eq_dec b a
            then S (gestureConsistencyCount before) else 1%nat)
      /\ stableGestureRef after
         = (if GestureType_eq_dec b a then b else stableGestureRef before))
  /\ (forall x y,
         y <> x ->
         stableGestureRef (runRefs (history ++ [Some x; Some x])) = x
         /\ stableGestureRef
              (runRefs (history ++ [Some x; Some x; Some y])) = x
         /\ stableGestureRef
              (runRefs (history ++ [Some x; Some x; Some y; Some x])) = x).
Proof.
  assert (Hstep : forall a b,
    runRefs (history ++ [Some a; Some b]) =
    if GestureType_eq_dec b a
    then mkRefs b b (S (gestureConsistencyCount (seen a)))
    else mkRefs (stableGestureRef (seen a)) b 1).
  { intros a b. rewrite runRefs_snoc2. cbn [tickRefs].
    destruct (seen_last a) as [Hl Hc]. fold (seen a).
    rewrite (stabilize_step b _ Hc), Hl. reflexivity. }
  split; [| split].
  - intros b before after. subst before after.
    rewrite classified_tick.
    destruct (repeatsPrevious history b); cbn;
      (split; [reflexivity | split; [reflexivity | split; [reflexivity |]]]).
    + intros _. split; reflexivity.
    + intros Hchanged. now contradiction Hchanged.
  - intros a b before after. subst before after.
    rewrite Hstep. fold (seen a).
    destruct (GestureType_eq_dec b a); cbn; auto.
  - intros x y Hxy.
    assert (H2 : stableGestureRef (runRefs (history ++ [Some x; Some x])) = x).
    { rewrite Hstep. destruct (GestureType_eq_dec x x); [reflexivity | easy]. }
    assert (H3 : runRefs (history ++ [Some x; Some x; Some y])
                 = mkRefs x y 1).
    { change [Some x; Some x; Some y] with ([Some x; Some x] ++ [Some y]).
      rewrite app_assoc, runRefs_snoc. cbn [tickRefs].
      rewrite stabilize_step.
      - rewrite !Hstep.
        destruct (GestureType_eq_dec x x); [cbn | easy].
        destruct (GestureType_eq_dec y x); [easy | reflexivity].
      - rewrite Hstep; destruct (GestureType_eq_dec x x); cbn; lia. }
    split; [exact H2 | split].
    + now rewrite H3.
    + change [Some x; Some x; Some y; Some x]
        with ([Some x; Some x; Some y] ++ [Some x]).
      rewrite app_assoc, runRefs_snoc, H3. cbn [tickRefs].
      rewrite stabilize_step by (cbn; lia). cbn.
      destruct (GestureType_eq_dec x y); [now subst | reflexivity].
Qed.

End Stabilizer.

(** OPEN_PALM is stable; one PINCH tick does not change it, a second
    one does. *)
Lemma stable_label_needs_two_consecutive_witness :
  PINCH <> OPEN_PALM
  /\ stableGestureRef
       (runRefs ([None] ++ [Some OPEN_PALM; Some OPEN_PALM; Some PINCH]))
     = OPEN_PALM
  /\ stableGestureRef
       (runRefs ([None; Some OPEN_PALM; Some OPEN_PALM]
                   ++ [Some PINCH; Some PINCH]))
     = PINCH.
Proof.
  split; [discriminate | split].
  - apply (proj2 (proj2 (stable_label_needs_two_consecutive [None]))
             OPEN_PALM PINCH); discriminate.
  - exact (proj2 (proj2 (proj1 (proj2 (stable_label_needs_two_consecutive
                     [None; Some OPEN_PALM; Some OPEN_PALM])) PINCH PINCH))).
Defined.

(** C5. A tick without landmarks resets the counter to 0 and both the
    last raw and the stable label to NONE at once, whatever they were,
    and emits gesture NONE, not present, position (0.5, 0.5) and
    rotation 0. *)
Theorem hand_loss_resets_immediately (r : StabilityRefs) :
  exists r' h,
    predict [] r = Some (r', h)
    /\ gestureConsistencyCount r' = 0%nat
    /\ lastRawGestureRef r' = NONE
    /\ stableGestureRef r' = NONE
    /\ gesture h = NONE
    /\ isPresent h = false
    /\ position h = (0.5, 0.5)
    /\ rotation h = 0.
Proof.
  exists (mkRefs NONE NONE 0), neutralHand; cbn; repeat split.
Qed.

(* ================================================================== *)
(** * The mode machine *)

Lemma mod_in_bounds {A : Type} (pool : list A) (cursor : nat) :
  pool <> [] -> (cursor mod List.length pool < List.length pool)%nat.
Proof.
  intros Hne. apply Nat.mod_upper_bound.
  destruct pool; [easy | discriminate].
Qed.

Lemma selection_defined {A : Type} (pool : list A) (cursor : nat) :
  pool <> [] ->
  exists x, nth_error pool (cursor mod List.length pool) = Some x.
Proof.
  intros Hne.
  destruct (nth_error pool (cursor mod List.length pool)) eqn:E; eauto.
  apply nth_error_None in E.
  pose proof (mod_in_bounds pool cursor Hne); lia.
Qed.

Lemma nonempty_length {A : Type} (pool : list A) :
  pool <> [] -> (0 <? List.length pool)%nat = true.
Proof. destruct pool; [easy | reflexivity]. Qed.

(** The PINCH branch of the effect, reached from DISPERSED. *)
Lemma gestureEffect_pinch (st : AppState) :
  isPresent (handState st) = true ->
  gesture (handState st) = PINCH ->
  mode st = DISPERSED ->
  gestureEffect st =
  if falsyId (focusId st) && (0 <? List.length (photos st))%nat then
    match nth_error (photos st)
                    (nextPhotoIndex st mod List.length (photos st)) with
    | Some photo =>
        Some (mkApp FOCUS (photos st) (handState st) (Some (id photo))
                    (nextPhotoIndex st + 1))
    | None => None
    end
  else Some st.
Proof.
  intros Hp Hg Hm. unfold gestureEffect. rewrite Hp, Hg, Hm. reflexivity.
Qed.

(** C6. In DISPERSED with no focus, a present hand and stable gesture
    PINCH: a non-empty pool leads to FOCUS on the item at index
    [cursor mod pool size] with the cursor advanced by exactly 1 (pool
    and hand state untouched); an empty pool leaves the state as it is. *)
Theorem pinch_selects_round_robin (st : AppState) :
  mode st = DISPERSED ->
  focusId st = None ->
  isPresent (handState st) = true ->
  gesture (handState st) = PINCH ->
  (photos st <> [] ->
   exists photo,
     nth_error (photos st) (nextPhotoIndex st mod List.length (photos st))
     = Some photo
     /\ gestureEffect st =
        Some (mkApp FOCUS (photos st) (handState st) (Some (id photo))
                    (nextPhotoIndex st + 1)))
  /\ (photos st = [] -> gestureEffect st = Some st).
Proof.
  intros Hm Hf Hp Hg. rewrite (gestureEffect_pinch st Hp Hg Hm), Hf.
  cbn [falsyId andb]. split.
  - intros Hne. rewrite (nonempty_length _ Hne).
    destruct (selection_defined (photos st) (nextPhotoIndex st) Hne)
      as [photo Hphoto].
    exists photo. now rewrite Hphoto.
  - intros ->. reflexivity.
Qed.

Lemma pinch_selects_round_robin_witness :
  gestureEffect scenarioC =
  Some (mkApp FOCUS (photos scenarioC) pinchingHand (Some "P0"%string) 1).
Proof.
  destruct (pinch_selects_round_robin scenarioC
              eq_refl eq_refl eq_refl eq_refl) as [Hsel _].
  destruct Hsel as [photo [Hnth Heff]]; [discriminate |].
  cbn in Hnth. injection Hnth as <-. exact Heff.
Defined.

(** C9. Deleting the focused item sets the mode to DISPERSED and clears
    the focus; deleting any other item leaves mode and focus as they
    were; in both cases the pool loses the items of that id.  So the
    delete handler can change the mode, for instance out of FOCUS. *)
Theorem delete_focused_disperses (i : string) (st : AppState) :
  photos (handleDeletePhoto i st)
  = filter (fun p => negb (String.eqb (id p) i)) (photos st)
  /\ (focusId st = Some i ->
      mode (handleDeletePhoto i st) = DISPERSED
      /\ focusId (handleDeletePhoto i st) = None)
  /\ (focusId st <> Some i ->
      mode (handleDeletePhoto i st) = mode st
      /\ focusId (handleDeletePhoto i st) = focusId st).
Proof.
  unfold handleDeletePhoto. split; [| split].
  - destruct (idIs (focusId st) i); reflexivity.
  - intros Hf. rewrite Hf. cbn [idIs]. rewrite String.eqb_refl. now cbn.
  - intros Hne. destruct (focusId st) as [s|]; cbn [idIs]; [| now cbn].
    destruct (String.eqb_spec s i) as [->|Hsi]; [now elim Hne | now cbn].
Qed.

Lemma delete_focused_disperses_witness :
  (mode focusedOnP1 = FOCUS
   /\ mode (handleDeletePhoto "P1" focusedOnP1) = DISPERSED
   /\ focusId (handleDeletePhoto "P1" focusedOnP1) = None)
  /\ (mode (handleDeletePhoto "P0" focusedOnP1) = FOCUS
      /\ focusId (handleDeletePhoto "P0" focusedOnP1) = Some "P1"%string).
Proof.
  split.
  - split; [reflexivity |].
    apply (proj1 (proj2 (delete_focused_disperses "P1" focusedOnP1))).
    reflexivity.
  - apply (proj2 (proj2 (delete_focused_disperses "P0" focusedOnP1))).
    discriminate.
Defined.

(** C10. The cursor is a raw counter: deleting leaves it as it is, however
    small the pool becomes, and the effect never decreases it.  The
    effect never reads outside the pool: it always returns, and whenever
    it selects (PINCH in DISPERSED, hand present, no focus, non-empty
    pool) the index [cursor mod pool size] is below the pool size and
    holds the selected item, for every cursor value. *)
Theorem focus_cursor_stays_in_bounds :
  (forall i st, nextPhotoIndex (handleDeletePhoto i st) = nextPhotoIndex st)
  /\ (forall st, exists st',
         gestureEffect st = Some st'
         /\ (nextPhotoIndex st <= nextPhotoIndex st')%nat)
  /\ (forall st,
         isPresent (handState st) = true ->
         gesture (handState st) = PINCH ->
         mode st = DISPERSED ->
         falsyId (focusId st) = true ->
         photos st <> [] ->
         (nextPhotoIndex st mod List.length (photos st)
          < List.length (photos st))%nat
         /\ exists photo,
             nth_error (photos st)
                       (nextPhotoIndex st mod List.length (photos st))
             = Some photo
             /\ option_map focusId (gestureEffect st)
                = Some (Some (id photo))).
Proof.
  split; [| split].
  - intros i st. unfold handleDeletePhoto.
    destruct (idIs (focusId st) i); reflexivity.
  - intros st. unfold gestureEffect.
    destruct (negb (isPresent (handState st))); [eauto |].
    destruct (gesture_eqb (gesture (handState st)) FIST
              && negb (mode_eqb (mode st) ASSEMBLED)); [eauto |].
    destruct (gesture_eqb (gesture (handState st)) OPEN_PALM).
    { destruct (mode_eqb (mode st) ASSEMBLED); [eauto |].
      destruct (mode_eqb (mode st) FOCUS); eauto. }
    destruct (gesture_eqb (gesture (handState st)) PINCH
              && mode_eqb (mode st) DISPERSED); [| eauto].
    destruct (falsyId (focusId st)); cbn [andb]; [| eauto].
    destruct (0 <? List.length (photos st))%nat eqn:Hlen; [| eauto].
    assert (Hne : photos st <> []).
    { intros E; rewrite E in Hlen; discriminate. }
    destruct (selection_defined (photos st) (nextPhotoIndex st) Hne)
      as [photo ->].
    eexists; split; [reflexivity | cbn; lia].
  - intros st Hp Hg Hm Hf Hne. split; [now apply mod_in_bounds |].
    destruct (selection_defined (photos st) (nextPhotoIndex st) Hne)
      as [photo Hphoto].
    exists photo; split; [exact Hphoto |].
    rewrite (gestureEffect_pinch st Hp Hg Hm), Hf, (nonempty_length _ Hne).
    cbn [andb]. now rewrite Hphoto.
Qed.

Lemma focus_cursor_stays_in_bounds_witness :
  nextPhotoIndex (handleDeletePhoto "P0" shrunkPool) = 7%nat
  /\ option_map focusId (gestureEffect shrunkPool)
     = Some (Some "P1"%string).
Proof.
  split.
  - apply (proj1 focus_cursor_stays_in_bounds).
  - destruct (proj2 (proj2 focus_cursor_stays_in_bounds) shrunkPool
                eq_refl eq_refl eq_refl eq_refl) as [_ [photo [Hnth Hsel]]];
      [discriminate |].
    cbn in Hnth. injection Hnth as <-. exact Hsel.
Defined.

(* ================================================================== *)
(** * Floors, remainders and indices *)

Lemma floor_spec (x : R) : IZR (floor x) <= x < IZR (floor x) + 1.
Proof. unfold floor; destruct (base_Int_part x); lra. Qed.

Lemma floor_unique (z : Z) (x : R) : IZR z <= x < IZR z + 1 -> floor x = z.
Proof. intros H; unfold floor; symmetry; apply Int_part_spec; lra. Qed.

Lemma floor_mono (x y : R) : x <= y -> (floor x <= floor y)%Z.
Proof.
  intros Hxy.
  destruct (floor_spec x) as [Hx _], (floor_spec y) as [_ Hy].
  assert (H : IZR (floor x) < IZR (floor y + 1)) by (rewrite plus_IZR; lra).
  apply lt_IZR in H; lia.
Qed.

Lemma floor_half (n : Z) : floor (IZR n / 2) = (n / 2)%Z.
Proof.
  apply floor_unique.
  pose proof (Z.div_mod n 2 ltac:(lia)) as Hdm.
  pose proof (Z.mod_pos_bound n 2 ltac:(lia)) as [Hlo Hhi].
  assert (E : IZR n = 2 * IZR (n / 2) + IZR (n mod 2)).
  { rewrite Hdm at 1. now rewrite plus_IZR, mult_IZR. }
  apply IZR_le in Hlo. assert (Hhi' : (n mod 2 <= 1)%Z) by lia.
  apply IZR_le in Hhi'. lra.
Qed.

Lemma firstIndex_in_range (rand : R) (n : Z) :
  0 <= rand < 1 -> (0 < n)%Z -> (0 <= firstIndex rand n < n)%Z.
Proof.
  intros [Hlo Hhi] Hn. unfold firstIndex.
  destruct (floor_spec (rand * IZR n)) as [Hfl Hfu].
  assert (Hn' : 0 < IZR n) by now apply (IZR_lt 0).
  assert (H0 : 0 <= rand * IZR n) by now apply Rmult_le_pos; lra.
  assert (H1 : rand * IZR n < IZR n) by nra.
  split.
  - assert (H : IZR (-1) < IZR (floor (rand * IZR n))) by lra.
    apply lt_IZR in H; lia.
  - apply lt_IZR; lra.
Qed.

Lemma secondIndex_in_range (idx1 n : Z) :
  (2 <= n)%Z -> (0 <= idx1 < n)%Z ->
  (0 <= secondIndex idx1 n < n)%Z /\ secondIndex idx1 n <> idx1.
Proof.
  intros Hn Hi. unfold secondIndex. rewrite floor_half.
  assert (Hh : (1 <= n / 2 < n)%Z).
  { split; [apply Z.div_le_lower_bound; lia | apply Z.div_lt; lia]. }
  rewrite Z.rem_mod_nonneg by lia.
  assert (Hm : ((idx1 + n / 2) mod n = idx1 + n / 2
                \/ (idx1 + n / 2) mod n = idx1 + n / 2 - n)%Z).
  { destruct (Z_lt_dec (idx1 + n / 2) n).
    - left; apply Z.mod_small; lia.
    - right; symmetry; apply (Z.mod_unique _ _ 1); lia. }
  pose proof (Z.mod_pos_bound (idx1 + n / 2) n ltac:(lia)) as Hb.
  destruct (Z.eqb_spec idx1 ((idx1 + n / 2) mod n)) as [E|E]; [lia |].
  split; [lia | congruence].
Qed.

Lemma arrayAt_in_range {A : Type} (a : list A) (i : Z) :
  (0 <= i < Z.of_nat (List.length a))%Z ->
  exists x, arrayAt a i = Some x /\ nth_error a (Z.to_nat i) = Some x.
Proof.
  intros Hi. unfold arrayAt.
  destruct (Z.ltb_spec i 0); [lia |].
  destruct (nth_error a (Z.to_nat i)) eqn:E; eauto.
  apply nth_error_None in E; lia.
Qed.

(** Filtering keeps the keys distinct. *)
Lemma filter_keeps_distinct {K V : Type} (key : V -> K) (keep : V -> bool)
    (xs : list V) (Hxs : NoDup (map key xs)) :
  NoDup (map key (filter keep xs)).
Proof.
  revert Hxs. induction xs as [|x xs IH]; cbn [map filter]; intros Hxs.
  - constructor.
  - apply NoDup_cons_iff in Hxs as [Hfresh Hrest].
    destruct (keep x); cbn [map]; [| now apply IH].
    apply NoDup_cons; [| now apply IH].
    intros Hin. apply Hfresh.
    apply in_map_iff in Hin as [y [Hy Hin]].
    apply filter_In in Hin as [Hin _].
    apply in_map_iff. now exists y.
Qed.

Lemma candidatesOf_spec (photos : list PhotoData) (focus : option string) p :
  In p (candidatesOf photos focus) <-> In p photos /\ focus <> Some (id p).
Proof.
  unfold candidatesOf. rewrite filter_In.
  destruct focus as [s|]; cbn.
  - destruct (String.eqb_spec s (id p)); cbn; split; intros [H1 H2];
      split; auto; congruence.
  - split; intros [H1 H2]; split; auto; discriminate.
Qed.

Lemma objSet_two (k1 k2 : string) (a1 a2 : ShowcaseParticipant) :
  k1 <> k2 -> objSet k2 a2 (objSet k1 a1 []) = [(k1, a1); (k2, a2)].
Proof.
  intros Hne; cbn. now destruct (String.eqb_spec k1 k2).
Qed.

(** The indices drawn at the start of a cycle are in range and differ. *)
Lemma startCycle_picks (f : Frame) :
  0 <= fr_random1 f < 1 ->
  (2 <= List.length (candidatesOf (fr_photos f) (fr_focusId f)))%nat ->
  let candidates := candidatesOf (fr_photos f) (fr_focusId f) in
  let n := Z.of_nat (List.length candidates) in
  let idx1 := firstIndex (fr_random1 f) n in
  let idx2 := secondIndex idx1 n in
  exists p1 p2,
    arrayAt candidates idx1 = Some p1
    /\ arrayAt candidates idx2 = Some p2
    /\ nth_error candidates (Z.to_nat idx1) = Some p1
    /\ nth_error candidates (Z.to_nat idx2) = Some p2
    /\ Z.to_nat idx1 <> Z.to_nat idx2.
Proof.
  intros Hr Hlen candidates n idx1 idx2.
  assert (Hi1 : (0 <= idx1 < n)%Z)
    by (apply firstIndex_in_range; [exact Hr | subst n candidates; lia]).
  destruct (secondIndex_in_range idx1 n ltac:(subst n candidates; lia) Hi1)
    as [Hi2 Hne].
  destruct (arrayAt_in_range candidates idx1 Hi1) as [p1 [Ha1 Hn1]].
  destruct (arrayAt_in_range candidates idx2 Hi2) as [p2 [Ha2 Hn2]].
  exists p1, p2; repeat split; auto.
  fold idx2 in Hne; lia.
Qed.

(* ================================================================== *)
(** * The scheduler: start of a cycle and forced reset *)

Lemma scheduler_assembled (f : Frame) (spin : R) (sys : ShowcaseSystemState)
    (prev : R) :
  fr_mode f = ASSEMBLED ->
  (2 <= List.length (fr_photos f))%nat ->
  scheduler f spin sys prev =
  match phase sys with
  | COOLDOWN =>
      if Rltb (cooldownUntil sys) (fr_time f)
      then startCycle f sys prev
      else Some (sys, prev)
  | ACTIVE => Some (activeLoop f spin sys prev)
  end.
Proof.
  intros Hm Hlen. unfold scheduler. rewrite Hm.
  now replace (2 <=? List.length (fr_photos f))%nat with true
    by (symmetry; now apply Nat.leb_le).
Qed.

Lemma scheduler_reset (f : Frame) (spin : R) (sys : ShowcaseSystemState)
    (prev : R) :
  fr_mode f <> ASSEMBLED \/ (List.length (fr_photos f) < 2)%nat ->
  scheduler f spin sys prev = Some (resetSystem (fr_time f) sys, prev).
Proof.
  intros H. unfold scheduler.
  destruct H as [H|H].
  - replace (mode_eqb (fr_mode f) ASSEMBLED) with false; [reflexivity |].
    symmetry. destruct (mode_eqb (fr_mode f) ASSEMBLED) eqn:E; auto.
    now apply mode_eqb_eq in E.
  - replace (2 <=? List.length (fr_photos f))%nat with false
      by (symmetry; now apply Nat.leb_gt).
    now rewrite andb_false_r.
Qed.

Lemma candidates_length_le (photos : list PhotoData) (focus : option string) :
  (List.length (candidatesOf photos focus) <= List.length photos)%nat.
Proof. apply filter_length_le. Qed.

(** C7. A frame in ASSEMBLED, in COOLDOWN, at a time past [cooldownUntil],
    with at least two candidates (items other than the focused one) in a
    pool of unique ids, the first draw being in [[0, 1)], starts a cycle:
    the active map then holds exactly two participants, keyed by the ids
    of two pool items that are not the focused one and differ; the first
    has offset 0 and launches now, the second has offset PI and launches
    0.7 later; neither has presented, and each records as its slot angle
    [atan2] of the x and z of its item's tree position. *)
Theorem cycle_start_creates_two_participants (f : Frame) (c : Controller) :
  fr_mode f = ASSEMBLED ->
  phase (sysOf c) = COOLDOWN ->
  cooldownUntil (sysOf c) < fr_time f ->
  (2 <= List.length (candidatesOf (fr_photos f) (fr_focusId f)))%nat ->
  NoDup (map id (fr_photos f)) ->
  0 <= fr_random1 f < 1 ->
  exists c' p1 p2 a1 a2,
    useFrame f c = Some c'
    /\ phase (sysOf c') = ACTIVE
    /\ active (sysOf c') = [(id p1, a1); (id p2, a2)]
    /\ List.length (active (sysOf c')) = 2%nat
    /\ In p1 (fr_photos f) /\ In p2 (fr_photos f)
    /\ fr_focusId f <> Some (id p1) /\ fr_focusId f <> Some (id p2)
    /\ id p1 <> id p2
    /\ sp_id a1 = id p1 /\ sp_id a2 = id p2
    /\ offsetAngle a1 = 0 /\ offsetAngle a2 = PI
    /\ launchTime a1 = fr_time f
    /\ launchTime a2 = fr_time f + 0.7
    /\ launchTime a2 - launchTime a1 = 0.7
    /\ hasPresented a1 = false /\ hasPresented a2 = false
    /\ originalSlotAngle a1
       = atan2 (vx (treePosition p1)) (vz (treePosition p1))
    /\ originalSlotAngle a2
       = atan2 (vx (treePosition p2)) (vz (treePosition p2)).
Proof.
  intros Hm Hph Hcd Hcand Hnd Hr.
  pose proof (candidates_length_le (fr_photos f) (fr_focusId f)) as Hle.
  destruct (startCycle_picks f Hr Hcand)
    as [p1 [p2 [Ha1 [Ha2 [Hn1 [Hn2 Hne]]]]]].
  assert (Hin1 : In p1 (candidatesOf (fr_photos f) (fr_focusId f)))
    by (eapply nth_error_In; eauto).
  assert (Hin2 : In p2 (candidatesOf (fr_photos f) (fr_focusId f)))
    by (eapply nth_error_In; eauto).
  apply candidatesOf_spec in Hin1 as [Hin1 Hf1].
  apply candidatesOf_spec in Hin2 as [Hin2 Hf2].
  assert (Hids : id p1 <> id p2).
  { intros E. apply Hne.
    pose proof (filter_keeps_distinct id
                  (fun p => negb (idIs (fr_focusId f) (id p)))
                  (fr_photos f) Hnd) as Hnd'.
    fold (candidatesOf (fr_photos f) (fr_focusId f)) in Hnd'.
    rewrite NoDup_nth_error in Hnd'. apply Hnd'.
    - rewrite length_map. apply nth_error_Some. now rewrite Hn1.
    - rewrite !nth_error_map, Hn1, Hn2. cbn. now rewrite E. }
  unfold useFrame.
  rewrite scheduler_assembled by (auto; lia).
  rewrite Hph.
  replace (Rltb (cooldownUntil (sysOf c)) (fr_time f)) with true
    by (symmetry; now apply Rltb_true).
  unfold startCycle.
  replace (2 <=? List.length (candidatesOf (fr_photos f) (fr_focusId f)))%nat
    with true by (symmetry; now apply Nat.leb_le).
  rewrite Ha1, Ha2, (objSet_two _ _ _ _ Hids).
  do 5 eexists. split; [reflexivity |].
  cbn [showcaseSystemRef phase active sp_id offsetAngle launchTime
       hasPresented originalSlotAngle List.length].
  repeat split; auto. cbn [launchTime]; lra.
Qed.

Lemma six_lt_2PI : 6 < 2 * PI.
Proof. pose proof PI2_3_2; lra. Qed.

Lemma cycle_start_creates_two_participants_witness :
  exists c',
    useFrame (assembledFrame (2 * PI) (2 * PI)) initialController = Some c'
    /\ phase (sysOf c') = ACTIVE
    /\ List.length (active (sysOf c')) = 2%nat.
Proof.
  destruct (cycle_start_creates_two_participants
              (assembledFrame (2 * PI) (2 * PI)) initialController)
    as [c' [p1 [p2 [a1 [a2 [Hrun [Hph [_ [Hlen _]]]]]]]]].
  - reflexivity.
  - reflexivity.
  - exact six_lt_2PI.
  - cbn; lia.
  - cbn; repeat constructor; cbn; intuition discriminate.
  - cbn [assembledFrame fr_random1]; lra.
  - exists c'; auto.
Defined.

Lemma useFrame_cooling (T : R) (g : Frame) (c : Controller) :
  cooling T (sysOf c) ->
  fr_time g <= T <= fr_time g + 6 ->
  exists c', useFrame g c = Some c' /\ cooling T (sysOf c').
Proof.
  intros [Hph [Hact HT]] [Hlo Hhi]. unfold useFrame, scheduler.
  destruct (mode_eqb (fr_mode g) ASSEMBLED
            && (2 <=? List.length (fr_photos g))%nat).
  - rewrite Hph.
    replace (Rltb (cooldownUntil (sysOf c)) (fr_time g)) with false
      by (symmetry; apply Rltb_false; lra).
    eexists; split; [reflexivity |]. now repeat split.
  - eexists; split; [reflexivity |].
    unfold cooling, resetSystem; cbn [showcaseSystemRef phase active
                                      cooldownUntil].
    repeat split; lra.
Qed.

Lemma runFrames_cooling (T : R) (gs : list Frame) :
  forall c,
    cooling T (sysOf c) ->
    Forall (fun g => fr_time g <= T <= fr_time g + 6) gs ->
    exists c', runFrames gs c = Some c' /\ cooling T (sysOf c').
Proof.
  induction gs as [|g gs IH]; intros c Hc Hall; cbn [runFrames].
  - eauto.
  - inversion Hall as [|? ? Hg Hgs]; subst.
    destruct (useFrame_cooling T g c Hc Hg) as [c1 [-> Hc1]].
    now apply IH.
Qed.

Lemma useFrame_reset (f : Frame) (c : Controller) :
  fr_mode f <> ASSEMBLED \/ (List.length (fr_photos f) < 2)%nat ->
  exists c',
    useFrame f c = Some c' /\ sysOf c' = resetSystem (fr_time f) (sysOf c).
Proof.
  intros Hout. unfold useFrame. rewrite (scheduler_reset _ _ _ _ Hout).
  eexists; split; reflexivity.
Qed.

(** C8. A frame whose mode is not ASSEMBLED, or whose pool has fewer than
    two items, resets the scheduler: no active participant, phase
    COOLDOWN, lap counter 0, cooldown until [now + 6].  After it, however
    the mode, the pool and the draws evolve, the frames run while the
    clock has not passed [now + 6] all return and leave the scheduler in
    COOLDOWN without participants: no cycle starts before a full 6 units
    have passed. *)
Theorem leaving_assembled_resets (f : Frame) (c : Controller) :
  fr_mode f <> ASSEMBLED \/ (List.length (fr_photos f) < 2)%nat ->
  exists c',
    useFrame f c = Some c'
    /\ active (sysOf c') = []
    /\ phase (sysOf c') = COOLDOWN
    /\ lapCounter (sysOf c') = 0%nat
    /\ cooldownUntil (sysOf c') = fr_time f + 6
    /\ forall gs,
        Forall (fun g => fr_time f <= fr_time g <= fr_time f + 6) gs ->
        exists c'',
          runFrames gs c' = Some c''
          /\ active (sysOf c'') = []
          /\ phase (sysOf c'') = COOLDOWN.
Proof.
  intros Hout.
  destruct (useFrame_reset f c Hout) as [c' [Hrun Hsys]].
  exists c'. split; [exact Hrun |]. rewrite Hsys.
  cbn [resetSystem active phase lapCounter cooldownUntil].
  repeat split; try reflexivity; try lra.
  intros gs Hgs.
  destruct (runFrames_cooling (fr_time f + 6) gs c') as [c'' [Hgo Hcool]].
  - rewrite Hsys. unfold cooling, resetSystem.
    cbn [phase active cooldownUntil]. repeat split; lra.
  - eapply Forall_impl; [| exact Hgs]. cbn beta. intros g Hg; lra.
  - destruct Hcool as [Hph [Hact _]]. exists c''; auto.
Qed.

(* ================================================================== *)
(** * The scheduler: how many participants are active *)

Lemma objDelete_length (k : string) (o : ActiveMap) :
  (List.length (objDelete k o) <= List.length o)%nat.
Proof. apply filter_length_le. Qed.

Lemma objDelete_NoDup (k : string) (o : ActiveMap) :
  NoDup (objKeys o) -> NoDup (objKeys (objDelete k o)).
Proof. apply filter_keeps_distinct. Qed.

Lemma deleteAll_shrinks (ks : list string) :
  forall o : ActiveMap,
    let o' := fold_left (fun o k => objDelete k o) ks o in
    (List.length o' <= List.length o)%nat
    /\ (NoDup (objKeys o) -> NoDup (objKeys o')).
Proof.
  induction ks as [|k ks IH]; intros o; cbn; [auto |].
  destruct (IH (objDelete k o)) as [Hlen Hnd].
  pose proof (objDelete_length k o).
  split; [lia | intros H'; now apply Hnd, objDelete_NoDup].
Qed.

Lemma marked_keys (g : ShowcaseParticipant -> ShowcaseParticipant)
    (o : ActiveMap) :
  objKeys (map (fun kv => (fst kv, g (snd kv))) o) = objKeys o.
Proof. unfold objKeys. rewrite map_map. now apply map_ext. Qed.

Lemma activeLoop_wellFormed (f : Frame) (spin : R)
    (sys : ShowcaseSystemState) (prev : R) :
  phase sys = ACTIVE ->
  wellFormed sys ->
  wellFormed (fst (activeLoop f spin sys prev)).
Proof.
  intros Hph [Hnd [_ Hact]]. specialize (Hact Hph).
  unfold activeLoop.
  set (inZone := inPresentationZoneOf (fr_time f) sys).
  set (angle := systemAngle sys + _ * fr_delta f).
  set (laps := if (_ <? _)%Z then _ else _).
  set (marked := map _ (active sys)).
  set (toRemove := objKeys _).
  assert (Hmlen : List.length marked = List.length (active sys))
    by (subst marked; apply length_map).
  assert (Hmnd : NoDup (objKeys marked))
    by (subst marked; now rewrite marked_keys).
  destruct (deleteAll_shrinks toRemove marked) as [Hlen Hnd'].
  specialize (Hnd' Hmnd).
  set (remaining := fold_left (fun o k => objDelete k o) toRemove marked)
    in *.
  destruct (0 <? List.length toRemove)%nat.
  - destruct (Nat.eqb_spec (List.length remaining) 0) as [E|E];
      cbn [fst]; unfold wellFormed; cbn [active phase].
    + split; [exact Hnd' | split; [| discriminate]].
      intros _. now apply length_zero_iff_nil.
    + rewrite Hph. split; [exact Hnd' | split; [discriminate |]].
      intros _; lia.
  - cbn [fst]; unfold wellFormed; cbn [active phase].
    rewrite Hph. split; [exact Hmnd | split; [discriminate |]].
    intros _; lia.
Qed.

Lemma startCycle_wellFormed (f : Frame) (sys sys' : ShowcaseSystemState)
    (prev prev' : R) :
  wellFormed sys ->
  startCycle f sys prev = Some (sys', prev') ->
  wellFormed sys'.
Proof.
  intros Hwf. unfold startCycle. cbv zeta.
  destruct (2 <=? _)%nat; [| intros H; injection H as <- _; exact Hwf].
  destruct (arrayAt _ _) as [p1|]; [| discriminate].
  destruct (arrayAt _ _) as [p2|]; [| discriminate].
  intros H; injection H as <- _.
  unfold wellFormed; cbn [active phase].
  destruct (String.eqb_spec (id p1) (id p2)) as [E|E]; cbn.
  - split; [| split; [discriminate | auto]].
    repeat constructor; cbn; tauto.
  - split; [| split; [discriminate | auto]].
    repeat constructor; cbn; intuition congruence.
Qed.

Lemma resetSystem_wellFormed (time : R) (sys : ShowcaseSystemState) :
  wellFormed (resetSystem time sys).
Proof.
  unfold wellFormed, resetSystem; cbn.
  split; [constructor | split; [reflexivity | discriminate]].
Qed.

Lemma scheduler_wellFormed (f : Frame) (spin : R)
    (sys sys' : ShowcaseSystemState) (prev prev' : R) :
  wellFormed sys ->
  scheduler f spin sys prev = Some (sys', prev') ->
  wellFormed sys'.
Proof.
  intros Hwf. unfold scheduler.
  destruct (_ && _).
  - destruct (phase sys) eqn:Hph.
    + destruct (Rltb _ _).
      * now apply startCycle_wellFormed.
      * intros H; injection H as <- _; exact Hwf.
    + intros H; injection H as H.
      pose proof (activeLoop_wellFormed f spin sys prev Hph Hwf) as Hw.
      now rewrite H in Hw.
  - intros H; injection H as <- _. apply resetSystem_wellFormed.
Qed.

Lemma useFrame_wellFormed (f : Frame) (c c' : Controller) :
  wellFormed (sysOf c) -> useFrame f c = Some c' -> wellFormed (sysOf c').
Proof.
  intros Hwf. unfold useFrame.
  destruct (scheduler f _ (sysOf c) (prevSystemAngle c))
    as [[sys' prev']|] eqn:E; [| discriminate].
  intros H; injection H as <-. cbn [showcaseSystemRef].
  eapply scheduler_wellFormed; eauto.
Qed.

(** The callback returns whenever the first draw is in [[0, 1)]. *)
Lemma scheduler_returns (f : Frame) (spin : R) (sys : ShowcaseSystemState)
    (prev : R) :
  0 <= fr_random1 f < 1 -> exists r, scheduler f spin sys prev = Some r.
Proof.
  intros Hr. unfold scheduler.
  destruct (_ && _); [| eauto].
  destruct (phase sys); [| eauto].
  destruct (Rltb _ _); [| eauto].
  unfold startCycle. cbv zeta.
  destruct (2 <=? _)%nat eqn:Hlen; [| eauto].
  apply Nat.leb_le in Hlen.
  destruct (startCycle_picks f Hr Hlen) as [p1 [p2 [Ha1 [Ha2 _]]]].
  rewrite Ha1, Ha2. eauto.
Qed.

Lemma useFrame_returns (f : Frame) (c : Controller) :
  0 <= fr_random1 f < 1 -> exists c', useFrame f c = Some c'.
Proof.
  intros Hr. unfold useFrame.
  destruct (scheduler_returns f
              (accumulatedSpin c
               + kick (fr_mode f) (prevMode c) (spinVelocity c)
                 * (if mode_eqb (fr_mode f) DISPERSED then 0.82 else 0.85)
                 * fr_delta f)
              (sysOf c) (prevSystemAngle c) Hr) as [[sys' prev'] ->].
  eauto.
Qed.

(** C1, amended. In every reachable state of the controller the keys of
    the active map are distinct, the map is empty while the phase is
    COOLDOWN, and it holds one or two participants while the phase is
    ACTIVE. *)
Theorem active_cardinality (c : Controller) :
  reachable c ->
  NoDup (objKeys (active (sysOf c)))
  /\ (phase (sysOf c) = COOLDOWN -> List.length (active (sysOf c)) = 0%nat)
  /\ (phase (sysOf c) = ACTIVE ->
      List.length (active (sysOf c)) = 1%nat
      \/ List.length (active (sysOf c)) = 2%nat).
Proof.
  intros Hreach.
  assert (Hwf : wellFormed (sysOf c)).
  { induction Hreach as [|f c c' _ IH _ Hrun].
    - unfold wellFormed; cbn.
      split; [constructor | split; [reflexivity | discriminate]].
    - eapply useFrame_wellFormed; eauto. }
  destruct Hwf as [Hnd [Hcool Hact]].
  split; [exact Hnd | split; [| exact Hact]].
  intros Hph. now rewrite (Hcool Hph).
Qed.

(* ================================================================== *)
(** * Evaluating the scheduler on concrete frames *)

Lemma trunc_nonneg (x : R) : 0 <= x -> trunc x = floor x.
Proof. intros H; unfold trunc, floor. now destruct (Rle_dec 0 x). Qed.

Lemma js_rem_eval (x y : R) (k : Z) (r : R) :
  0 < y -> (0 <= k)%Z -> 0 <= r < y -> x = IZR k * y + r -> js_rem x y = r.
Proof.
  intros Hy Hk Hr ->. unfold js_rem.
  assert (Hk' : 0 <= IZR k) by now apply (IZR_le 0).
  assert (Hq : (IZR k * y + r) / y = IZR k + r / y) by (field; lra).
  assert (Hry : 0 <= r / y < 1).
  { split.
    - apply Rmult_le_pos; [lra |]. left; now apply Rinv_0_lt_compat.
    - apply (Rmult_lt_reg_r y); [exact Hy |].
      replace (r / y * y) with r by (field; lra). lra. }
  rewrite trunc_nonneg by (rewrite Hq; lra).
  rewrite (floor_unique k) by (rewrite Hq; lra).
  ring.
Qed.

Lemma atan2_east : atan2 1 0 = PI / 2.
Proof.
  unfold atan2.
  destruct (Rlt_dec 0 0); [lra |].
  destruct (Rlt_dec 0 0); [lra |].
  destruct (Rlt_dec 0 1); [reflexivity | lra].
Qed.

Lemma atan2_north : atan2 0 1 = 0.
Proof.
  unfold atan2.
  destruct (Rlt_dec 0 1); [| lra].
  replace (0 / 1) with 0 by field. apply atan_0.
Qed.

Lemma not_in_zone_before_two_laps (time : R) (sys : ShowcaseSystemState) :
  (lapCounter sys < 2)%nat -> inPresentationZoneOf time sys = false.
Proof.
  intros Hlap. unfold inPresentationZoneOf.
  replace (2 <=? lapCounter sys)%nat with false
    by (symmetry; now apply Nat.leb_gt).
  induction (active sys) as [|kv l IH]; cbn; [reflexivity |].
  now rewrite IH, !andb_false_r.
Qed.

Lemma useFrame_orbiting (time delta : R) (ps : ActiveMap) (angle : R)
    (laps : nat) :
  useFrame (assembledFrame time delta) (orbiting ps angle laps)
  = Some (let r := activeLoop (assembledFrame time delta) 0
                     (mkSys ps angle ACTIVE 6 laps) angle in
          mkController 0 0 0 ASSEMBLED (fst r) (snd r)).
Proof.
  unfold useFrame, orbiting, assembledFrame.
  cbn [fr_mode fr_photos fr_time fr_delta prevMode spinVelocity
       accumulatedSpin showcaseSystemRef prevSystemAngle].
  rewrite scheduler_assembled by (cbn; auto).
  cbn [phase]. unfold kick.
  change (mode_eqb ASSEMBLED ASSEMBLED) with true.
  change (mode_eqb ASSEMBLED DISPERSED) with false. cbv iota zeta.
  replace (0 + 0 * 0.85 * delta) with 0 by lra.
  replace (0 * 0.85) with 0 by lra.
  now destruct (activeLoop _ 0 _ angle).
Qed.

Lemma markPresented_early (time a : R) (laps : nat)
    (p : ShowcaseParticipant) :
  (laps < 2)%nat -> markPresented time a laps p = p.
Proof.
  intros H. unfold markPresented.
  replace (2 <=? laps)%nat with false by (symmetry; now apply Nat.leb_gt).
  now rewrite andb_false_r.
Qed.

Lemma returns_unpresented (z : bool) (time spin a : R)
    (p : ShowcaseParticipant) :
  hasPresented p = false -> returns z time spin a p = false.
Proof. intros H. unfold returns. now rewrite H. Qed.

Lemma PI_pos : 0 < PI.
Proof. exact PI_RGT_0. Qed.

(** ** A run: start of a cycle, two laps, return of the first item *)

Lemma controller_ext v a s m sys p v' a' s' sys' p' :
  v = v' -> a = a' -> s = s' -> sys = sys' -> p = p' ->
  Some (mkController v a s m sys p) = Some (mkController v' a' s' m sys' p').
Proof. now intros -> -> -> -> ->. Qed.

Lemma sys_ext ps a ph cd n ps' a' cd' :
  ps = ps' -> a = a' -> cd = cd' ->
  mkSys ps a ph cd n = mkSys ps' a' ph cd' n.
Proof. now intros -> -> ->. Qed.

Lemma floor_0 : floor 0 = 0%Z.
Proof. apply floor_unique; lra. Qed.

(** The frame at 2 PI, past the initial cooldown of 6, starts the cycle. *)
Lemma trace_step1 :
  useFrame (assembledFrame (2 * PI) (2 * PI)) initialController
  = Some (orbiting bothActive (3 * PI / 2) 0).
Proof.
  unfold useFrame, initialController, assembledFrame.
  cbn [fr_mode fr_photos fr_time fr_delta prevMode spinVelocity
       accumulatedSpin showcaseSystemRef prevSystemAngle].
  rewrite scheduler_assembled by (cbn; auto).
  cbn [phase cooldownUntil fr_time].
  replace (Rltb 6 (2 * PI)) with true
    by (symmetry; apply Rltb_true, six_lt_2PI).
  unfold startCycle.
  cbn [fr_photos fr_focusId fr_random1 fr_random2 fr_time candidatesOf
       filter idIs negb List.length Nat.leb Z.of_nat Pos.of_succ_nat
       Pos.succ].
  unfold firstIndex.
  replace (0 * 2) with 0 by lra. rewrite floor_0.
  unfold secondIndex. rewrite floor_half.
  cbn [Z.div Z.add Z.rem Z.eqb arrayAt Z.ltb Z.compare Z.to_nat nth_error
       Pos.to_nat Pos.iter_op Nat.add].
  change (Z.rem (2 / 2) 2) with 1%Z. cbv iota.
  change (arrayAt [photoA; photoB] 1) with (Some photoB). cbv iota beta.
  rewrite objSet_two by discriminate.
  unfold kick.
  change (mode_eqb ASSEMBLED ASSEMBLED) with true.
  change (mode_eqb ASSEMBLED DISPERSED) with false. cbv iota.
  unfold slotAngleOf, photoA, photoB.
  cbn [treePosition vx vz fst snd id cooldownUntil].
  rewrite atan2_east, atan2_north.
  unfold orbiting, bothActive, partA, partB.
  apply controller_ext; try lra.
  apply sys_ext; try lra; reflexivity.
Qed.

(** The frame at 4 PI advances the angle by 5 PI: one lap is counted. *)
Lemma trace_step2 :
  useFrame (assembledFrame (4 * PI) (2 * PI))
           (orbiting bothActive (3 * PI / 2) 0)
  = Some (orbiting bothActive (13 * PI / 2) 1).
Proof.
  rewrite useFrame_orbiting. unfold activeLoop.
  rewrite not_in_zone_before_two_laps by (cbn; lia).
  cbn [systemAngle lapCounter fr_delta fr_time assembledFrame active phase
       cooldownUntil].
  pose proof PI_pos as Hpi.
  replace (3 * PI / 2 + 2.5 * (2 * PI)) with (13 * PI / 2) by lra.
  replace (13 * PI / 2 / (PI * 2)) with (3 + 1 / 4) by (field; lra).
  replace (3 * PI / 2 / (PI * 2)) with (3 / 4) by (field; lra).
  rewrite (floor_unique 3 (3 + 1 / 4)) by lra.
  rewrite (floor_unique 0 (3 / 4)) by lra.
  change (0 <? 3)%Z with true. cbv iota.
  unfold bothActive. cbn [map fst snd].
  rewrite !markPresented_early by lia.
  cbn [filter snd].
  rewrite !returns_unpresented by reflexivity.
  cbn [objKeys map List.length Nat.ltb Nat.leb fst snd].
  reflexivity.
Qed.

(** At system angle 93 PI / 2, A is in front of the camera, B opposite. *)
Lemma presentationDist_A b :
  presentationDist (93 * PI / 2) (partA b) = 0.
Proof.
  pose proof PI_pos as Hpi.
  unfold presentationDist, targetAngle. cbn [offsetAngle partA].
  rewrite (js_rem_eval (93 * PI / 2 + 0) (PI * 2) 23 (PI / 2)) by (lra || lia).
  rewrite (js_rem_eval (PI / 2 + PI * 2) (PI * 2) 1 (PI / 2)) by (lra || lia).
  replace (PI / 2 - PI / 2) with 0 by lra. rewrite Rabs_R0.
  now replace (Rltb PI 0) with false by (symmetry; apply Rltb_false; lra).
Qed.

Lemma presentationDist_B :
  presentationDist (93 * PI / 2) partB = PI.
Proof.
  pose proof PI_pos as Hpi.
  unfold presentationDist, targetAngle. cbn [offsetAngle partB].
  rewrite (js_rem_eval (93 * PI / 2 + PI) (PI * 2) 23 (3 * PI / 2))
    by (lra || lia).
  rewrite (js_rem_eval (3 * PI / 2 + PI * 2) (PI * 2) 1 (3 * PI / 2))
    by (lra || lia).
  replace (3 * PI / 2 - PI / 2) with PI by lra.
  rewrite Rabs_pos_eq by lra.
  now replace (Rltb PI PI) with false by (symmetry; apply Rltb_false; lra).
Qed.

(** At time 20 PI the tree has turned by 2 PI: A is on its slot. *)
Lemma slotDiff_A b :
  slotDiff (20 * PI) 0 (93 * PI / 2) (partA b) = 0.
Proof.
  pose proof PI_pos as Hpi.
  unfold slotDiff. cbn [offsetAngle originalSlotAngle partA].
  rewrite (js_rem_eval (20 * PI * 0.1 + 0) (PI * 2) 1 0) by (lra || lia).
  rewrite (js_rem_eval (0 + PI / 2) (PI * 2) 0 (PI / 2)) by (lra || lia).
  rewrite (js_rem_eval (93 * PI / 2 + 0) (PI * 2) 23 (PI / 2)) by (lra || lia).
  rewrite (js_rem_eval (PI / 2 + 2 * PI) (2 * PI) 1 (PI / 2)) by (lra || lia).
  replace (PI / 2 - PI / 2) with 0 by lra. rewrite Rabs_R0.
  now replace (Rltb PI 0) with false by (symmetry; apply Rltb_false; lra).
Qed.

(** The frame at 20 PI ends the second lap; A presents and returns. *)
Lemma trace_step3 :
  useFrame (assembledFrame (20 * PI) (16 * PI))
           (orbiting bothActive (13 * PI / 2) 1)
  = Some (orbiting [("B"%string, partB)] (93 * PI / 2) 2).
Proof.
  rewrite useFrame_orbiting. unfold activeLoop.
  rewrite not_in_zone_before_two_laps by (cbn; lia).
  cbn [systemAngle lapCounter fr_delta fr_time assembledFrame active phase
       cooldownUntil].
  pose proof PI_pos as Hpi.
  replace (13 * PI / 2 + 2.5 * (16 * PI)) with (93 * PI / 2) by lra.
  replace (93 * PI / 2 / (PI * 2)) with (23 + 1 / 4) by (field; lra).
  replace (13 * PI / 2 / (PI * 2)) with (3 + 1 / 4) by (field; lra).
  rewrite (floor_unique 23 (23 + 1 / 4)) by lra.
  rewrite (floor_unique 3 (3 + 1 / 4)) by lra.
  change (3 <? 23)%Z with true. cbv iota.
  unfold bothActive. cbn [map fst snd].
  assert (HA : markPresented (20 * PI) (93 * PI / 2) 2 (partA false)
               = partA true).
  { unfold markPresented. rewrite presentationDist_A.
    unfold launched. cbn [hasPresented launchTime partA negb Nat.leb andb].
    replace (Rleb (2 * PI) (20 * PI)) with true
      by (symmetry; apply Rleb_true; lra).
    now replace (Rltb 0 0.1) with true by (symmetry; apply Rltb_true; lra). }
  assert (HB : markPresented (20 * PI) (93 * PI / 2) 2 partB = partB).
  { unfold markPresented. rewrite presentationDist_B.
    replace (Rltb PI 0.1) with false
      by (symmetry; apply Rltb_false; pose proof PI2_1; lra).
    now destruct (_ && _). }
  rewrite HA, HB. cbn [filter snd].
  assert (HR : returns false (20 * PI) 0 (93 * PI / 2) (partA true) = true).
  { unfold returns. rewrite slotDiff_A. cbn [hasPresented partA negb andb].
    apply Rltb_true; lra. }
  rewrite HR.
  change (returns false (20 * PI) 0 (93 * PI / 2) partB) with false.
  reflexivity.
Qed.

Lemma assembledFrame_good (time delta : R) :
  goodFrame (assembledFrame time delta).
Proof. unfold goodFrame, assembledFrame; cbn [fr_random1 fr_random2]; lra. Qed.

Lemma reachable_step1 : reachable (orbiting bothActive (3 * PI / 2) 0).
Proof.
  eapply reach_frame;
    [apply reach_init | apply assembledFrame_good | apply trace_step1].
Qed.

Lemma reachable_step2 : reachable (orbiting bothActive (13 * PI / 2) 1).
Proof.
  eapply reach_frame;
    [apply reachable_step1 | apply assembledFrame_good | apply trace_step2].
Qed.

Lemma reachable_step3 :
  reachable (orbiting [("B"%string, partB)] (93 * PI / 2) 2).
Proof.
  eapply reach_frame;
    [apply reachable_step2 | apply assembledFrame_good | apply trace_step3].
Qed.

(** C1 as stated fails. With photos A and B: the cycle starts at time
    2 PI with system angle 3 PI / 2; the frame at 4 PI ends the first
    lap; the frame at 20 PI ends the second lap with A in front of the
    camera (angle PI / 2) and on its slot, so A presents and returns
    while B, half a turn away, stays.  The phase is ACTIVE and the map
    holds one participant. *)
Lemma one_participant_while_active :
  let c := orbiting [("B"%string, partB)] (93 * PI / 2) 2 in
  runFrames [assembledFrame (2 * PI) (2 * PI);
             assembledFrame (4 * PI) (2 * PI);
             assembledFrame (20 * PI) (16 * PI)] initialController = Some c
  /\ reachable c
  /\ phase (sysOf c) = ACTIVE
  /\ List.length (active (sysOf c)) = 1%nat
  /\ ~ (phase (sysOf c) = ACTIVE ->
        List.length (active (sysOf c)) = 0%nat
        \/ List.length (active (sysOf c)) = 2%nat).
Proof.
  cbv zeta. split; [| split; [exact reachable_step3 |]].
  - cbn [runFrames]. now rewrite trace_step1, trace_step2, trace_step3.
  - cbn. repeat split; auto. intros H. destruct (H eq_refl); discriminate.
Qed.

Lemma active_cardinality_witness :
  List.length (active (sysOf (orbiting bothActive (13 * PI / 2) 1))) = 1%nat
  \/ List.length (active (sysOf (orbiting bothActive (13 * PI / 2) 1)))
     = 2%nat.
Proof.
  apply (proj2 (proj2 (active_cardinality
                         (orbiting bothActive (13 * PI / 2) 1)
                         reachable_step2))).
  reflexivity.
Defined.

Lemma leaving_assembled_resets_witness :
  exists c',
    useFrame (mkFrame [photoA; photoB] DISPERSED None (5 * PI) PI 0 0)
             (orbiting bothActive (13 * PI / 2) 1) = Some c'
    /\ active (sysOf c') = []
    /\ phase (sysOf c') = COOLDOWN
    /\ cooldownUntil (sysOf c') = 5 * PI + 6
    /\ exists c'',
        runFrames [assembledFrame (5 * PI + 6) 6] c' = Some c''
        /\ active (sysOf c'') = []
        /\ phase (sysOf c'') = COOLDOWN.
Proof.
  destruct (leaving_assembled_resets
              (mkFrame [photoA; photoB] DISPERSED None (5 * PI) PI 0 0)
              (orbiting bothActive (13 * PI / 2) 1))
    as [c' [Hrun [Hact [Hph [_ [Hcd Hnext]]]]]].
  - left; discriminate.
  - exists c'. repeat split; auto.
    apply Hnext. constructor; [| constructor].
    cbn [fr_time assembledFrame]. lra.
Defined.

(* ================================================================== *)
(** * The scheduler: lap counting *)

Lemma floor_lt (x : R) (k : Z) : x < IZR k -> (floor x < k)%Z.
Proof.
  intros H. destruct (floor_spec x) as [Hlo _].
  apply lt_IZR; lra.
Qed.

Lemma floor_ge (x : R) (k : Z) : IZR k <= x -> (k <= floor x)%Z.
Proof.
  intros H. destruct (floor_spec x) as [_ Hhi].
  assert (H' : IZR k < IZR (floor x + 1)) by (rewrite plus_IZR; lra).
  apply lt_IZR in H'; lia.
Qed.

Lemma div_2PI_le (a k : R) : k * (PI * 2) <= a <-> k <= a / (PI * 2).
Proof.
  pose proof PI_pos as Hpi.
  assert (E : a = a / (PI * 2) * (PI * 2)) by (field; lra).
  split; intros H.
  - apply (Rmult_le_reg_r (PI * 2)); lra.
  - rewrite E. apply Rmult_le_compat_r; lra.
Qed.

Lemma div_2PI_lt (a k : R) : a < k * (PI * 2) <-> a / (PI * 2) < k.
Proof.
  pose proof PI_pos as Hpi.
  assert (E : a = a / (PI * 2) * (PI * 2)) by (field; lra).
  split; intros H.
  - apply (Rmult_lt_reg_r (PI * 2)); lra.
  - rewrite E. apply Rmult_lt_compat_r; lra.
Qed.

(** The completed turns grow exactly when the angle passes a multiple of
    2 PI. *)
Lemma fullTurns_crossing (a a' : R) :
  (fullTurns a < fullTurns a')%Z
  <-> exists k : Z, a < IZR k * (PI * 2) <= a'.
Proof.
  unfold fullTurns. split.
  - intros Hlt. exists (floor (a' / (PI * 2))).
    destruct (floor_spec (a' / (PI * 2))) as [Hlo' _].
    destruct (floor_spec (a / (PI * 2))) as [_ Hhi].
    split; [apply div_2PI_lt | now apply div_2PI_le].
    assert (H : (floor (a / (PI * 2)) + 1 <= floor (a' / (PI * 2)))%Z) by lia.
    apply IZR_le in H. rewrite plus_IZR in H. lra.
  - intros [k [Hlo Hhi]].
    apply div_2PI_lt in Hlo. apply div_2PI_le in Hhi.
    apply floor_lt in Hlo. apply floor_ge in Hhi. lia.
Qed.

(** An advance of less than a full turn passes at most one multiple. *)
Lemma fullTurns_short_step (a d : R) :
  0 <= d < 2 * PI ->
  (fullTurns a <= fullTurns (a + d) <= fullTurns a + 1)%Z.
Proof.
  intros [Hlo Hhi]. pose proof PI_pos as Hpi. unfold fullTurns.
  assert (Hd : 0 <= d / (PI * 2) < 1).
  { split.
    - apply div_2PI_le; lra.
    - apply div_2PI_lt; lra. }
  assert (E : (a + d) / (PI * 2) = a / (PI * 2) + d / (PI * 2))
    by (field; lra).
  split.
  - apply floor_mono. rewrite E; lra.
  - destruct (floor_spec (a / (PI * 2))) as [_ Hup].
    assert (H : (floor ((a + d) / (PI * 2)) < floor (a / (PI * 2)) + 2)%Z).
    { apply floor_lt. rewrite plus_IZR, E. lra. }
    lia.
Qed.

Lemma activeLoop_laps (f : Frame) (spin : R) (sys : ShowcaseSystemState)
    (prev : R) :
  let angle := systemAngle sys + orbitSpeed (fr_time f) sys * fr_delta f in
  let r := activeLoop f spin sys prev in
  systemAngle (fst r) = angle
  /\ snd r = angle
  /\ lapCounter (fst r)
     = (if (fullTurns prev <? fullTurns angle)%Z
        then S (lapCounter sys) else lapCounter sys).
Proof.
  unfold activeLoop, orbitSpeed, fullTurns. cbv zeta.
  destruct (0 <? _)%nat; [destruct (_ =? 0)%nat |]; cbn [fst snd systemAngle
    lapCounter]; auto.
Qed.

Lemma useFrame_active (f : Frame) (c : Controller) :
  activeFrame f c ->
  let angle :=
    systemAngle (sysOf c)
    + orbitSpeed (fr_time f) (sysOf c) * fr_delta f in
  exists c',
    useFrame f c = Some c'
    /\ systemAngle (sysOf c') = angle
    /\ prevSystemAngle c' = angle
    /\ lapCounter (sysOf c')
       = (if (fullTurns (prevSystemAngle c) <? fullTurns angle)%Z
          then S (lapCounter (sysOf c)) else lapCounter (sysOf c)).
Proof.
  intros [Hm [Hlen Hph]] angle. unfold useFrame.
  rewrite scheduler_assembled by auto. rewrite Hph.
  match goal with
  | |- context [activeLoop f ?spin ?sys ?prev] =>
      pose proof (activeLoop_laps f spin sys prev) as Hl;
      destruct (activeLoop f spin sys prev) as [sys' prev']
  end.
  cbv zeta in Hl. cbn [fst snd] in Hl. destruct Hl as [Ha [Hp Hl]].
  eexists; split; [reflexivity |].
  cbn [showcaseSystemRef prevSystemAngle]. subst angle. auto.
Qed.

(** The angle the laps are counted from is the system angle itself. *)
Lemma scheduler_prev (f : Frame) (spin : R) (sys sys' : ShowcaseSystemState)
    (prev prev' : R) :
  prev = systemAngle sys ->
  scheduler f spin sys prev = Some (sys', prev') ->
  prev' = systemAngle sys'.
Proof.
  intros Hprev. unfold scheduler.
  destruct (_ && _).
  - destruct (phase sys).
    + destruct (Rltb _ _).
      * unfold startCycle. cbv zeta.
        destruct (2 <=? _)%nat;
          [| intros H; injection H as <- <-; exact Hprev].
        destruct (arrayAt _ _); [| discriminate].
        destruct (arrayAt _ _); [| discriminate].
        intros H; injection H as <- <-. reflexivity.
      * intros H; injection H as <- <-; exact Hprev.
    + intros H; injection H as H.
      destruct (activeLoop_laps f spin sys prev) as [Ha [Hp _]].
      rewrite H in Ha, Hp. cbn [fst snd] in Ha, Hp. congruence.
  - intros H; injection H as <- <-. exact Hprev.
Qed.

Lemma reachable_prev (c : Controller) :
  reachable c -> prevSystemAngle c = systemAngle (sysOf c).
Proof.
  induction 1 as [|f c c' _ IH _ Hrun]; [reflexivity |].
  unfold useFrame in Hrun.
  destruct (scheduler f _ (sysOf c) (prevSystemAngle c))
    as [[sys' prev']|] eqn:E; [| discriminate].
  injection Hrun as <-. cbn [showcaseSystemRef prevSystemAngle].
  eapply scheduler_prev; eauto.
Qed.

Lemma orbitSpeed_bounds (time : R) (sys : ShowcaseSystemState) :
  0 < orbitSpeed time sys <= 2.5.
Proof. unfold orbitSpeed; destruct (inPresentationZoneOf time sys); lra. Qed.

Lemma step_bounds (time delta : R) (sys : ShowcaseSystemState) :
  0 <= delta -> 0 <= orbitSpeed time sys * delta <= 2.5 * delta.
Proof.
  intros Hd. pose proof (orbitSpeed_bounds time sys) as [Hlo Hhi].
  split; [apply Rmult_le_pos; lra | apply Rmult_le_compat_r; lra].
Qed.

Lemma shortStepRun_laps (c : Controller) (fs : list Frame) (c' : Controller) :
  shortStepRun c fs c' ->
  prevSystemAngle c = systemAngle (sysOf c) ->
  systemAngle (sysOf c) <= systemAngle (sysOf c')
  /\ Z.of_nat (lapCounter (sysOf c'))
     = (Z.of_nat (lapCounter (sysOf c))
        + (fullTurns (systemAngle (sysOf c'))
           - fullTurns (systemAngle (sysOf c))))%Z.
Proof.
  induction 1 as [c | c f c1 fs c' Hact Hd Hshort Hrun _ IH]; intros Hprev.
  - split; [lra | lia].
  - destruct (useFrame_active f c Hact) as [c2 [Hrun' [Ha [Hp Hl]]]].
    rewrite Hrun in Hrun'. injection Hrun' as <-.
    destruct (IH ltac:(congruence)) as [Hmono Hcount].
    pose proof (step_bounds (fr_time f) (fr_delta f) (sysOf c) Hd) as Hstep.
    pose proof (fullTurns_short_step (systemAngle (sysOf c))
                  (orbitSpeed (fr_time f) (sysOf c) * fr_delta f)
                  ltac:(lra)) as Hturns.
    rewrite <- Ha in Hturns. rewrite Hprev, <- Ha in Hl.
    split; [lra |].
    destruct (Z.ltb_spec (fullTurns (systemAngle (sysOf c)))
                         (fullTurns (systemAngle (sysOf c1)))); lia.
Qed.

(** C2, amended. In a reachable state, a frame of the ACTIVE loop with a
    non-negative step returns, does not decrease the system angle, and
    adds exactly 1 to the lap counter if the angle passed some multiple
    of 2 PI during the frame (whether one or several), and nothing
    otherwise.  Over a run of frames whose steps are short enough for the
    orbit to make less than a full turn per frame
    ([2.5 * delta < 2 PI]), the gain of the lap counter is the number of
    multiples passed, [floor (final / 2 PI) - floor (initial / 2 PI)]: it
    depends on the initial and final system angle only, not on the
    steps. *)
Theorem laps_counted_once_per_frame :
  (forall f c,
      reachable c -> activeFrame f c -> 0 <= fr_delta f ->
      exists c',
        useFrame f c = Some c'
        /\ systemAngle (sysOf c) <= systemAngle (sysOf c')
        /\ ((exists k : Z,
                systemAngle (sysOf c) < IZR k * (PI * 2)
                                      <= systemAngle (sysOf c')) ->
            lapCounter (sysOf c') = S (lapCounter (sysOf c)))
        /\ (~ (exists k : Z,
                  systemAngle (sysOf c) < IZR k * (PI * 2)
                                        <= systemAngle (sysOf c')) ->
            lapCounter (sysOf c') = lapCounter (sysOf c)))
  /\ (forall c fs c',
         reachable c -> shortStepRun c fs c' ->
         systemAngle (sysOf c) <= systemAngle (sysOf c')
         /\ Z.of_nat (lapCounter (sysOf c'))
            = (Z.of_nat (lapCounter (sysOf c))
               + (fullTurns (systemAngle (sysOf c'))
                  - fullTurns (systemAngle (sysOf c))))%Z).
Proof.
  split.
  - intros f c Hreach Hact Hd.
    destruct (useFrame_active f c Hact) as [c' [Hrun [Ha [_ Hl]]]].
    rewrite (reachable_prev c Hreach), <- Ha in Hl.
    pose proof (step_bounds (fr_time f) (fr_delta f) (sysOf c) Hd) as Hstep.
    exists c'. split; [exact Hrun | split; [lra |]].
    destruct (Z.ltb_spec (fullTurns (systemAngle (sysOf c)))
                         (fullTurns (systemAngle (sysOf c')))) as [Hlt|Hge].
    + split; [auto |]. intros Hno. elim Hno. now apply fullTurns_crossing.
    + split; [| auto]. intros Hcross.
      apply fullTurns_crossing in Hcross. lia.
  - intros c fs c' Hreach Hrun.
    apply (shortStepRun_laps c fs c' Hrun (reachable_prev c Hreach)).
Qed.

Lemma unmarked_before_two_laps (time a : R) (laps : nat)
    (ps : ActiveMap) :
  (laps < 2)%nat ->
  map (fun kv => (fst kv, markPresented time a laps (snd kv))) ps = ps.
Proof.
  intros Hl. induction ps as [|[k p] ps IH]; cbn [map fst snd]; [reflexivity |].
  now rewrite IH, markPresented_early.
Qed.

Lemma nothing_returns_unpresented (z : bool) (time spin a : R)
    (ps : ActiveMap) :
  Forall (fun kv => hasPresented (snd kv) = false) ps ->
  filter (fun kv => returns z time spin a (snd kv)) ps = [].
Proof.
  induction 1 as [|kv ps Hkv _ IH]; cbn [filter]; [reflexivity |].
  now rewrite (returns_unpresented _ _ _ _ _ Hkv).
Qed.

(** A frame of the ACTIVE loop that ends with fewer than two laps done
    only advances the angle and counts. *)
Lemma useFrame_quiet (time delta : R) (ps : ActiveMap) (angle : R)
    (laps : nat) :
  let angle' := angle + 2.5 * delta in
  let laps' :=
    if (fullTurns angle <? fullTurns angle')%Z then S laps else laps in
  (laps' < 2)%nat ->
  Forall (fun kv => hasPresented (snd kv) = false) ps ->
  useFrame (assembledFrame time delta) (orbiting ps angle laps)
  = Some (orbiting ps angle' laps').
Proof.
  intros angle' laps' Hl Hps.
  assert (Hl0 : (laps < 2)%nat).
  { subst laps'. destruct (_ <? _)%Z; lia. }
  rewrite useFrame_orbiting. unfold activeLoop.
  rewrite not_in_zone_before_two_laps by (cbn; lia).
  cbn [systemAngle lapCounter fr_delta fr_time assembledFrame active phase
       cooldownUntil].
  fold angle'. fold (fullTurns angle) (fullTurns angle'). fold laps'.
  rewrite (unmarked_before_two_laps _ _ _ _ Hl).
  rewrite (nothing_returns_unpresented _ _ _ _ _ Hps).
  reflexivity.
Qed.

Lemma fullTurns_eval (a : R) (k : Z) :
  IZR k * (PI * 2) <= a < (IZR k + 1) * (PI * 2) -> fullTurns a = k.
Proof.
  intros [Hlo Hhi]. apply floor_unique. split.
  - now apply div_2PI_le.
  - now apply div_2PI_lt.
Qed.

Lemma bothActive_unpresented :
  Forall (fun kv => hasPresented (snd kv) = false) bothActive.
Proof. repeat constructor. Qed.

(** Half the step of [trace_step2]: a frame at 3 PI, PI after the start. *)
Lemma half_step1 :
  useFrame (assembledFrame (3 * PI) PI) (orbiting bothActive (3 * PI / 2) 0)
  = Some (orbiting bothActive (4 * PI) 1).
Proof.
  pose proof PI_pos as Hpi.
  rewrite useFrame_quiet.
  - replace (3 * PI / 2 + 2.5 * PI) with (4 * PI) by lra.
    rewrite (fullTurns_eval (3 * PI / 2) 0), (fullTurns_eval (4 * PI) 2)
      by lra.
    reflexivity.
  - replace (3 * PI / 2 + 2.5 * PI) with (4 * PI) by lra.
    rewrite (fullTurns_eval (3 * PI / 2) 0), (fullTurns_eval (4 * PI) 2)
      by lra.
    cbn; lia.
  - exact bothActive_unpresented.
Qed.

Lemma half_step2 :
  exists c,
    useFrame (assembledFrame (4 * PI) PI) (orbiting bothActive (4 * PI) 1)
    = Some c
    /\ systemAngle (sysOf c) = 13 * PI / 2
    /\ lapCounter (sysOf c) = 2%nat.
Proof.
  pose proof PI_pos as Hpi.
  destruct (useFrame_active (assembledFrame (4 * PI) PI)
              (orbiting bothActive (4 * PI) 1))
    as [c [Hrun [Ha [_ Hl]]]].
  { repeat split; cbn; auto. }
  exists c. split; [exact Hrun |].
  unfold orbitSpeed in Ha, Hl.
  rewrite not_in_zone_before_two_laps in Ha, Hl by (cbn; lia).
  cbn [orbiting showcaseSystemRef systemAngle prevSystemAngle lapCounter
       assembledFrame fr_delta] in Ha, Hl.
  replace (4 * PI + 2.5 * PI) with (13 * PI / 2) in Ha, Hl by lra.
  rewrite (fullTurns_eval (4 * PI) 2), (fullTurns_eval (13 * PI / 2) 3)
    in Hl by lra.
  split; [exact Ha | exact Hl].
Qed.

(** C2 as stated fails. From the state the cycle starts in (system angle
    3 PI / 2, no lap), the same 2 PI of elapsed time lead to the same
    system angle 13 PI / 2, three multiples of 2 PI further, but to lap
    counter 1 when run as one frame and to lap counter 2 when run as two
    frames of PI each. *)
Lemma lap_count_depends_on_step_size :
  let start := orbiting bothActive (3 * PI / 2) 0 in
  reachable start
  /\ (fullTurns (13 * PI / 2) - fullTurns (3 * PI / 2) = 3)%Z
  /\ (exists c,
         runFrames [assembledFrame (4 * PI) (2 * PI)] start = Some c
         /\ systemAngle (sysOf c) = 13 * PI / 2
         /\ lapCounter (sysOf c) = 1%nat)
  /\ (exists c,
         runFrames [assembledFrame (3 * PI) PI; assembledFrame (4 * PI) PI]
                   start = Some c
         /\ systemAngle (sysOf c) = 13 * PI / 2
         /\ lapCounter (sysOf c) = 2%nat).
Proof.
  cbv zeta. pose proof PI_pos as Hpi.
  split; [exact reachable_step1 | split; [| split]].
  - rewrite (fullTurns_eval (13 * PI / 2) 3), (fullTurns_eval (3 * PI / 2) 0)
      by lra.
    reflexivity.
  - exists (orbiting bothActive (13 * PI / 2) 1).
    cbn [runFrames]. rewrite trace_step2. now cbn.
  - destruct half_step2 as [c [Hrun [Ha Hl]]].
    exists c. cbn [runFrames]. rewrite half_step1, Hrun. auto.
Qed.

(** Two frames of a quarter of PI each: the first passes 2 PI, the second
    passes no multiple. *)
Lemma quarter_steps :
  shortStepRun (orbiting bothActive (3 * PI / 2) 0)
               [assembledFrame (9 * PI / 4) (PI / 4);
                assembledFrame (5 * PI / 2) (PI / 4)]
               (orbiting bothActive (11 * PI / 4) 1).
Proof.
  pose proof PI_pos as Hpi.
  assert (E1 : 3 * PI / 2 + 2.5 * (PI / 4) = 17 * PI / 8) by lra.
  assert (E2 : 17 * PI / 8 + 2.5 * (PI / 4) = 11 * PI / 4) by lra.
  apply (run_frame _ _ (orbiting bothActive (17 * PI / 8) 1)).
  - repeat split; cbn; auto.
  - cbn [assembledFrame fr_delta]; lra.
  - cbn [assembledFrame fr_delta]; lra.
  - rewrite useFrame_quiet; rewrite ?E1;
      rewrite ?(fullTurns_eval (3 * PI / 2) 0),
        ?(fullTurns_eval (17 * PI / 8) 1) by lra;
      [reflexivity | cbn; lia | exact bothActive_unpresented].
  - apply (run_frame _ _ (orbiting bothActive (11 * PI / 4) 1)).
    + repeat split; cbn; auto.
    + cbn [assembledFrame fr_delta]; lra.
    + cbn [assembledFrame fr_delta]; lra.
    + rewrite useFrame_quiet; rewrite ?E2;
        rewrite ?(fullTurns_eval (17 * PI / 8) 1),
          ?(fullTurns_eval (11 * PI / 4) 1) by lra;
        [reflexivity | cbn; lia | exact bothActive_unpresented].
    + apply run_done.
Qed.

Lemma laps_counted_once_per_frame_witness :
  let c := orbiting bothActive (3 * PI / 2) 0 in
  let c' := orbiting bothActive (11 * PI / 4) 1 in
  systemAngle (sysOf c) <= systemAngle (sysOf c')
  /\ Z.of_nat (lapCounter (sysOf c'))
     = (Z.of_nat (lapCounter (sysOf c))
        + (fullTurns (systemAngle (sysOf c'))
           - fullTurns (systemAngle (sysOf c))))%Z.
Proof.
  exact (proj2 laps_counted_once_per_frame _ _ _
               reachable_step1 quarter_steps).
Defined.

(* ================================================================== *)
(** * More on the classifier *)

Lemma detectGesture_short (landmarks : list NormalizedLandmark) :
  (List.length landmarks < 21)%nat -> detectGesture landmarks = NONE.
Proof.
  intros H. unfold detectGesture.
  now replace (List.length landmarks <? 21)%nat with true
    by (symmetry; now apply Nat.ltb_lt).
Qed.

Lemma handRotation_undefined (landmarks : list NormalizedLandmark) :
  calculateHandRotation landmarks = None
  <-> (List.length landmarks < 10)%nat.
Proof.
  unfold calculateHandRotation.
  destruct (nth_error landmarks 9) as [m|] eqn:E9.
  - assert (H9 : (9 < List.length landmarks)%nat)
      by (apply nth_error_Some; congruence).
    destruct (nth_error landmarks 0) as [w|] eqn:E0.
    + split; [discriminate | lia].
    + apply nth_error_None in E0. lia.
  - apply nth_error_None in E9.
    destruct (nth_error landmarks 0); split; auto; lia.
Qed.

(** X1. A sample of fewer than 21 points is classified NONE, and no
    sample at all is classified POINT. *)
Theorem short_sample_is_none (landmarks : list NormalizedLandmark) :
  ((List.length landmarks < 21)%nat -> detectGesture landmarks = NONE)
  /\ detectGesture landmarks <> POINT.
Proof.
  split; [apply detectGesture_short |]. unfold detectGesture.
  - destruct (_ <? _)%nat; [discriminate |].
    destruct (Rltb _ 0.4); [discriminate |].
    destruct (Rltb _ 0.06); [discriminate |].
    destruct (Rltb 0.5 _); discriminate.
Qed.

Lemma short_sample_is_none_witness :
  detectGesture (repeat origin 20) = NONE.
Proof.
  apply (proj1 (short_sample_is_none (repeat origin 20))).
  cbn [List.length repeat]. lia.
Defined.

(** X2. On a sample of at least 21 points the label is decided by the
    mean fingertip distance and the pinch distance alone: FIST below
    0.4; otherwise PINCH when the pinch distance is below 0.06;
    otherwise OPEN_PALM above 0.5; otherwise, in the band from 0.4 to
    0.5 (both included), NONE. *)
Theorem classifier_partition (landmarks : list NormalizedLandmark) :
  (21 <= List.length landmarks)%nat ->
  let avg := avgDistToWrist landmarks in
  let pinch := pinchDist landmarks in
  (detectGesture landmarks = FIST <-> avg < 0.4)
  /\ (detectGesture landmarks = PINCH <-> 0.4 <= avg /\ pinch < 0.06)
  /\ (detectGesture landmarks = OPEN_PALM <-> 0.5 < avg /\ 0.06 <= pinch)
  /\ (detectGesture landmarks = NONE
      <-> 0.4 <= avg <= 0.5 /\ 0.06 <= pinch).
Proof.
  intros Hlen avg pinch. unfold detectGesture.
  replace (List.length landmarks <? 21)%nat with false
    by (symmetry; now apply Nat.ltb_ge).
  fold avg pinch.
  destruct (Rltb avg 0.4) eqn:E1;
    [apply Rltb_true in E1 | apply Rltb_false in E1].
  { repeat split; intros; try discriminate; try lra; auto. }
  destruct (Rltb pinch 0.06) eqn:E2;
    [apply Rltb_true in E2 | apply Rltb_false in E2].
  { repeat split; intros; try discriminate; try lra; auto. }
  destruct (Rltb 0.5 avg) eqn:E3;
    [apply Rltb_true in E3 | apply Rltb_false in E3];
    repeat split; intros; try discriminate; try lra; auto.
Qed.

Lemma classifier_partition_witness :
  detectGesture closedHand = FIST <-> avgDistToWrist closedHand < 0.4.
Proof.
  apply (classifier_partition closedHand).
  unfold closedHand; cbn [List.length repeat]. lia.
Defined.

(** X3. The rotation estimate is defined exactly for samples of at least
    10 points; it is [wrist.x + middleMCP.x - 1], so for coordinates
    normalized to [[0, 1]] it lies in [[-1, 1]]. *)
Theorem hand_rotation_range (landmarks : list NormalizedLandmark) :
  (calculateHandRotation landmarks = None
   <-> (List.length landmarks < 10)%nat)
  /\ (forall wrist middleMCP,
         nth_error landmarks 0 = Some wrist ->
         nth_error landmarks 9 = Some middleMCP ->
         0 <= lx wrist <= 1 ->
         0 <= lx middleMCP <= 1 ->
         exists rot,
           calculateHandRotation landmarks = Some rot
           /\ rot = lx wrist + lx middleMCP - 1
           /\ -1 <= rot <= 1).
Proof.
  split; [apply handRotation_undefined |].
  unfold calculateHandRotation.
  intros w m -> -> Hw Hm. eexists; split; [reflexivity |]. lra.
Qed.

Lemma hand_rotation_range_witness :
  exists rot,
    calculateHandRotation openHand = Some rot
    /\ rot = 0.2 + 0.4 - 1 /\ -1 <= rot <= 1.
Proof.
  apply (proj2 (hand_rotation_range openHand)
               (mkLandmark 0.2 0.9 0) (mkLandmark 0.4 0.2 0));
    try reflexivity; cbn [lx]; lra.
Defined.

(** X4. A prediction raises exactly when the first detected hand has
    fewer than 10 landmarks; a hand of 10 to 20 landmarks is accepted
    and its raw label is NONE. *)
Theorem predict_raises_on_short_hand
    (detections : list (list NormalizedLandmark)) (r : StabilityRefs) :
  (predict detections r = None
   <-> exists landmarks rest,
        detections = landmarks :: rest
        /\ (List.length landmarks < 10)%nat)
  /\ (forall landmarks rest,
         detections = landmarks :: rest ->
         (10 <= List.length landmarks < 21)%nat ->
         exists h,
           predict detections r = Some (stabilize NONE r, h)
           /\ isPresent h = true).
Proof.
  split.
  - unfold predict. destruct detections as [|landmarks rest].
    + split; [discriminate | intros [l [rs [H _]]]; discriminate].
    + pose proof (handRotation_undefined landmarks) as Hrot.
      destruct (calculateHandRotation landmarks) as [rot|] eqn:E.
      * assert (Hlen : ~ (List.length landmarks < 10)%nat)
          by (intros H; apply Hrot in H; discriminate).
        destruct (nth_error landmarks 9) eqn:E9.
        -- split; [discriminate |].
           intros [l [rs [H Hl]]]. injection H as <- <-. contradiction.
        -- apply nth_error_None in E9. lia.
      * split; [| reflexivity].
        intros _. exists landmarks, rest. split; [reflexivity |].
        now apply Hrot.
  - intros landmarks rest -> [Hlo Hhi]. unfold predict.
    rewrite (detectGesture_short landmarks Hhi).
    destruct (calculateHandRotation landmarks) as [rot|] eqn:E.
    + destruct (nth_error landmarks 9) eqn:E9.
      * eexists; split; reflexivity.
      * apply nth_error_None in E9. lia.
    + apply handRotation_undefined in E. lia.
Qed.

Lemma predict_raises_on_short_hand_witness :
  exists h,
    predict [repeat origin 12] initialRefs
    = Some (stabilize NONE initialRefs, h)
    /\ isPresent h = true.
Proof.
  apply (proj2 (predict_raises_on_short_hand [repeat origin 12] initialRefs)
               (repeat origin 12) []).
  - reflexivity.
  - cbn [List.length repeat]. lia.
Defined.

(* ================================================================== *)
(** * More on the stabilizer and the prediction loop *)

Lemma runRefs_repeat_snoc (history : list (option GestureType))
    (g : GestureType) (n : nat) :
  runRefs (history ++ repeat (Some g) (S n))
  = stabilize g (runRefs (history ++ repeat (Some g) n)).
Proof.
  cbn [repeat]. rewrite repeat_cons, app_assoc, runRefs_snoc. reflexivity.
Qed.

Lemma held_label (history : list (option GestureType)) (g : GestureType)
    (n : nat) :
  let r := runRefs (history ++ repeat (Some g) (S n)) in
  lastRawGestureRef r = g
  /\ (S n <= gestureConsistencyCount r)%nat
  /\ ((1 <= n)%nat -> stableGestureRef r = g).
Proof.
  induction n as [|n IH]; cbv zeta.
  - rewrite runRefs_repeat_snoc.
    destruct (stabilize_last g (runRefs (history ++ repeat (Some g) 0)))
      as [Hl Hc].
    repeat split; auto. intros H; exfalso; lia.
  - rewrite runRefs_repeat_snoc.
    cbv zeta in IH. destruct IH as [Hl [Hc _]].
    rewrite stabilize_step by lia. rewrite Hl.
    destruct (GestureType_eq_dec g g); [| easy].
    cbn [lastRawGestureRef gestureConsistencyCount stableGestureRef].
    repeat split; auto. lia.
Qed.

(** X5. A raw label held for [n >= 2] ticks in a row is the stable label
    at the end of those ticks, whatever came before; the counter is then
    at least [n]. *)
Theorem held_label_becomes_stable (history : list (option GestureType))
    (g : GestureType) (n : nat) :
  (2 <= n)%nat ->
  let r := runRefs (history ++ repeat (Some g) n) in
  stableGestureRef r = g
  /\ lastRawGestureRef r = g
  /\ (n <= gestureConsistencyCount r)%nat.
Proof.
  intros Hn. destruct n as [|n]; [lia |].
  destruct (held_label history g n) as [Hl [Hc Hs]].
  cbv zeta. repeat split; auto. apply Hs. lia.
Qed.

Lemma held_label_becomes_stable_witness :
  stableGestureRef
    (runRefs ([Some PINCH; None] ++ repeat (Some OPEN_PALM) 3)) = OPEN_PALM.
Proof.
  apply (held_label_becomes_stable [Some PINCH; None] OPEN_PALM 3). lia.
Defined.

(** X6. After any sequence of ticks: if the counter is at least 2 the
    stable label is the last raw label; if the counter is 0 (no
    classified tick since the start or the last loss of the hand) both
    labels are NONE; and a stable label other than NONE means that some
    tick was classified since. *)
Theorem stabilizer_invariant (history : list (option GestureType)) :
  let r := runRefs history in
  ((2 <= gestureConsistencyCount r)%nat ->
   stableGestureRef r = lastRawGestureRef r)
  /\ (gestureConsistencyCount r = 0%nat ->
      stableGestureRef r = NONE /\ lastRawGestureRef r = NONE)
  /\ (stableGestureRef r <> NONE -> (1 <= gestureConsistencyCount r)%nat).
Proof.
  cbv zeta.
  assert (H : ((2 <= gestureConsistencyCount (runRefs history))%nat ->
               stableGestureRef (runRefs history)
               = lastRawGestureRef (runRefs history))
              /\ (gestureConsistencyCount (runRefs history) = 0%nat ->
                  stableGestureRef (runRefs history) = NONE
                  /\ lastRawGestureRef (runRefs history) = NONE)).
  { induction history as [|raw history IH] using rev_ind.
    - cbn. split; [lia | auto].
    - rewrite runRefs_snoc. destruct raw as [g|]; cbn [tickRefs].
      + destruct IH as [IH2 IH0]. unfold stabilize.
        destruct (gesture_eqb g (lastRawGestureRef (runRefs history))) eqn:E;
          cbn [gestureConsistencyCount lastRawGestureRef stableGestureRef].
        * apply gesture_eqb_eq in E.
          destruct (gestureConsistencyCount (runRefs history)) as [|k];
            cbn; split; intros; try lia; auto.
        * cbn. split; intros; lia.
      + cbn. split; [lia | auto]. }
  destruct H as [H2 H0]. split; [exact H2 | split; [exact H0 |]].
  intros Hs.
  destruct (gestureConsistencyCount (runRefs history)) eqn:E; [| lia].
  destruct (H0 eq_refl) as [Hn _]. contradiction.
Qed.

Lemma stabilizer_invariant_witness :
  stableGestureRef (runRefs [Some FIST; Some FIST; Some FIST])
  = lastRawGestureRef (runRefs [Some FIST; Some FIST; Some FIST]).
Proof.
  apply (proj1 (stabilizer_invariant [Some FIST; Some FIST; Some FIST])).
  cbn. lia.
Defined.

(** X7. Whatever the animation frames (their clock, the video time, the
    detections), any two successive predictions are at least 50 ms
    apart, the first one at least 50 ms after the last prediction time
    the loop started with. *)
Theorem predictions_are_spaced (frames : list AnimationFrame)
    (t : TrackerState) :
  spacedFrom (lastPredictionTime t) (runTracker frames t).
Proof.
  revert t. induction frames as [|f frames IH]; intros t; cbn [runTracker].
  - exact I.
  - unfold predictWebcam.
    destruct (Rleb PREDICTION_INTERVAL (af_now f - lastPredictionTime t))
      eqn:Egate; [| apply IH].
    destruct (negb (Reqb (af_currentTime f) (lastVideoTime t)));
      [| apply IH].
    destruct (predict (af_detections f) (trackerRefs t)) as [[r' h]|];
      [| exact I].
    cbn [spacedFrom]. apply Rleb_true in Egate.
    split; [lra |].
    exact (IH (mkTracker (af_currentTime f) (af_now f) r')).
Qed.

(* ================================================================== *)
(** * More on the mode machine *)

Lemma mode_eqb_false (a b : AppMode) : mode_eqb a b = false <-> a <> b.
Proof. unfold mode_eqb; destruct (AppMode_eq_dec a b); split; easy. Qed.

Lemma gestureEffect_inv (st st' : AppState) :
  gestureEffect st = Some st' -> effectStep st st'.
Proof.
  unfold gestureEffect.
  destruct (isPresent (handState st)) eqn:Hp; cbn [negb];
    [| intros H; injection H as <-; constructor].
  destruct (gesture_eqb (gesture (handState st)) FIST) eqn:Hfist.
  { apply gesture_eqb_eq in Hfist.
    destruct (mode_eqb (mode st) ASSEMBLED) eqn:Hm; cbn [negb andb].
    - rewrite Hfist. cbn.
      intros H; injection H as <-; constructor.
    - apply mode_eqb_false in Hm.
      intros H; injection H as <-. now constructor. }
  cbn [andb].
  destruct (gesture_eqb (gesture (handState st)) OPEN_PALM) eqn:Hpalm.
  { apply gesture_eqb_eq in Hpalm.
    destruct (mode_eqb (mode st) ASSEMBLED) eqn:Hm.
    - apply mode_eqb_eq in Hm. intros H; injection H as <-. now constructor.
    - destruct (mode_eqb (mode st) FOCUS) eqn:Hm2.
      + apply mode_eqb_eq in Hm2.
        intros H; injection H as <-. now constructor.
      + intros H; injection H as <-; constructor. }
  destruct (gesture_eqb (gesture (handState st)) PINCH) eqn:Hpinch;
    [| intros H; injection H as <-; constructor].
  apply gesture_eqb_eq in Hpinch.
  destruct (mode_eqb (mode st) DISPERSED) eqn:Hm; cbn [andb];
    [| intros H; injection H as <-; constructor].
  apply mode_eqb_eq in Hm.
  destruct (falsyId (focusId st)) eqn:Hf; cbn [andb];
    [| intros H; injection H as <-; constructor].
  destruct (0 <? List.length (photos st))%nat;
    [| intros H; injection H as <-; constructor].
  destruct (nth_error _ _) as [photo|] eqn:Hnth; [| discriminate].
  intros H; injection H as <-. now apply step_pinch.
Qed.

Lemma gestureEffect_total (st : AppState) :
  exists st', gestureEffect st = Some st'.
Proof.
  unfold gestureEffect.
  destruct (negb _); [eauto |].
  destruct (_ && _); [eauto |].
  destruct (gesture_eqb _ OPEN_PALM).
  { destruct (mode_eqb _ ASSEMBLED); [eauto |].
    destruct (mode_eqb _ FOCUS); eauto. }
  destruct (_ && _); [| eauto].
  destruct (falsyId _); cbn [andb]; [| eauto].
  destruct (0 <? _)%nat eqn:Hlen; [| eauto].
  assert (Hne : photos st <> [])
    by (intros E; rewrite E in Hlen; discriminate).
  destruct (selection_defined (photos st) (nextPhotoIndex st) Hne)
    as [photo ->].
  eauto.
Qed.

Lemma gestureEffect_settled (st : AppState) :
  (isPresent (handState st) = true -> gesture (handState st) = FIST ->
   mode st = ASSEMBLED) ->
  (isPresent (handState st) = true -> gesture (handState st) = OPEN_PALM ->
   mode st = DISPERSED) ->
  (isPresent (handState st) = true -> gesture (handState st) = PINCH ->
   mode st = DISPERSED -> falsyId (focusId st) = true -> photos st = []) ->
  gestureEffect st = Some st.
Proof.
  intros Hfist Hpalm Hpinch.
  destruct (gestureEffect_total st) as [st' Hrun]. rewrite Hrun.
  destruct (gestureEffect_inv st st' Hrun)
    as [| Hp Hg Hm | Hp Hg Hm | Hp Hg Hm | photo Hp Hg Hm Hf Hnth].
  - reflexivity.
  - elim Hm; auto.
  - rewrite (Hpalm Hp Hg) in Hm. discriminate.
  - rewrite (Hpalm Hp Hg) in Hm. discriminate.
  - rewrite (Hpinch Hp Hg Hm Hf) in Hnth.
    destruct (nextPhotoIndex st mod _)%nat; discriminate.
Qed.

(** X8. The gesture effect always returns, and running it again on its
    result changes nothing: one run settles the state, so re-running it
    when its dependencies change does not select or switch twice. *)
Theorem gesture_effect_settles (st : AppState) :
  exists st', gestureEffect st = Some st' /\ gestureEffect st' = Some st'.
Proof.
  destruct (gestureEffect_total st) as [st' Hrun].
  exists st'. split; [exact Hrun |].
  destruct (gestureEffect_inv st st' Hrun)
    as [| Hp Hg Hm | Hp Hg Hm | Hp Hg Hm | photo Hp Hg Hm Hf Hnth].
  - exact Hrun.
  - apply gestureEffect_settled; cbn [handState mode gesture isPresent];
      intros; auto; congruence.
  - apply gestureEffect_settled; cbn [handState mode gesture isPresent];
      intros; auto; congruence.
  - apply gestureEffect_settled; cbn [handState mode gesture isPresent];
      intros; auto; congruence.
  - apply gestureEffect_settled; cbn [handState mode gesture isPresent];
      intros; auto; congruence.
Qed.

(** X9. The gesture effect never changes the pool or the hand state; it
    does nothing without a hand; a present FIST always leaves the mode
    ASSEMBLED; and the cursor only moves, by one, on a selection that
    takes DISPERSED to FOCUS. *)
Theorem gesture_effect_frame (st st' : AppState) :
  gestureEffect st = Some st' ->
  photos st' = photos st
  /\ handState st' = handState st
  /\ (isPresent (handState st) = false -> st' = st)
  /\ (isPresent (handState st) = true -> gesture (handState st) = FIST ->
      mode st' = ASSEMBLED)
  /\ (nextPhotoIndex st' <> nextPhotoIndex st ->
      nextPhotoIndex st' = S (nextPhotoIndex st)
      /\ mode st = DISPERSED /\ mode st' = FOCUS).
Proof.
  intros Hrun.
  assert (Hfist : isPresent (handState st) = true ->
                  gesture (handState st) = FIST -> mode st' = ASSEMBLED).
  { intros Hp Hg. unfold gestureEffect in Hrun. rewrite Hp, Hg in Hrun.
    cbn [negb] in Hrun.
    change (gesture_eqb FIST FIST) with true in Hrun.
    change (gesture_eqb FIST OPEN_PALM) with false in Hrun.
    change (gesture_eqb FIST PINCH) with false in Hrun.
    destruct (mode_eqb (mode st) ASSEMBLED) eqn:Hm;
      cbn [negb andb] in Hrun; injection Hrun as <-.
    - now apply mode_eqb_eq in Hm.
    - reflexivity. }
  destruct (gestureEffect_inv st st' Hrun)
    as [| Hp Hg Hm | Hp Hg Hm | Hp Hg Hm | photo Hp Hg Hm Hf Hnth];
    cbn [photos handState nextPhotoIndex mode] in *;
    repeat split; auto; try congruence; try (intros H; now elim H);
    try lia.
Qed.

Lemma gesture_effect_frame_witness :
  photos (mkApp FOCUS (photos scenarioC) pinchingHand (Some "P0"%string) 1)
  = photos scenarioC
  /\ nextPhotoIndex
       (mkApp FOCUS (photos scenarioC) pinchingHand (Some "P0"%string) 1)
     = S (nextPhotoIndex scenarioC).
Proof.
  destruct (gesture_effect_frame scenarioC
              (mkApp FOCUS (photos scenarioC) pinchingHand
                     (Some "P0"%string) 1) eq_refl)
    as [Hpool [_ [_ [_ Hcursor]]]].
  split; [exact Hpool |]. apply Hcursor. discriminate.
Defined.

Lemma handleDeletePhoto_keeps (i j : string) (ps : list PhotoData) :
  j <> i -> In j (map id ps) ->
  In j (map id (filter (fun p => negb (String.eqb (id p) i)) ps)).
Proof.
  intros Hne Hin. apply in_map_iff in Hin as [p [Hp Hin]].
  apply in_map_iff. exists p. split; [exact Hp |].
  apply filter_In. split; [exact Hin |].
  destruct (String.eqb_spec (id p) i); [congruence | reflexivity].
Qed.

(** X10. In every state [App] can reach, the focus target is set exactly
    when the mode is FOCUS, and it is then the id of an item of the
    pool: deleting, uploading and the gesture effect keep mode, focus
    and pool consistent.  In particular DISPERSED never has a focus. *)
Theorem focus_only_in_focus_mode (st : AppState) :
  appReachable st ->
  (mode st = FOCUS <-> focusId st <> None)
  /\ (forall i, focusId st = Some i -> In i (map id (photos st))).
Proof.
  intros Hreach. change (focusConsistent st).
  induction Hreach as [loaded | h st _ IH | st st' _ IH Hrun
                       | i st _ IH | newPhotos st _ IH].
  - split; cbn; [split; [discriminate | intros H; now elim H] |].
    discriminate.
  - exact IH.
  - destruct IH as [Hiff Hin].
    destruct (gestureEffect_inv st st' Hrun)
      as [| Hp Hg Hm | Hp Hg Hm | Hp Hg Hm | photo Hp Hg Hm Hf Hnth];
      unfold focusConsistent; cbn [mode focusId photos].
    + split; assumption.
    + split; [split; [discriminate | intros H; now elim H] | discriminate].
    + assert (Hnone : focusId st = None).
      { destruct (focusId st) eqn:E; [| reflexivity].
        assert (Hf : mode st = FOCUS) by (apply Hiff; discriminate).
        congruence. }
      rewrite Hnone.
      split; [split; [discriminate | intros H; now elim H] | discriminate].
    + split; [split; [discriminate | intros H; now elim H] | discriminate].
    + split; [split; [discriminate | reflexivity] |].
      intros i H; injection H as <-.
      apply in_map. eapply nth_error_In; eauto.
  - destruct IH as [Hiff Hin]. unfold focusConsistent, handleDeletePhoto.
    destruct (focusId st) as [j|] eqn:Hf; cbn [idIs].
    + destruct (String.eqb_spec j i) as [->|Hne]; cbn [mode focusId photos].
      * split; [split; [discriminate | intros H; now elim H] | discriminate].
      * split; [exact Hiff |].
        intros k H; injection H as <-.
        apply handleDeletePhoto_keeps; auto.
    + cbn [mode focusId photos]. split; [exact Hiff | discriminate].
  - destruct IH as [Hiff Hin]. unfold focusConsistent, addPhotos.
    cbn [mode focusId photos]. split; [exact Hiff |].
    intros i Hi. rewrite map_app. apply in_or_app. left. auto.
Qed.

Lemma delete_keeps_focus (i : string) (st : AppState) :
  focusId st <> Some i ->
  mode (handleDeletePhoto i st) = mode st
  /\ focusId (handleDeletePhoto i st) = focusId st
  /\ handState (handleDeletePhoto i st) = handState st.
Proof.
  intros Hne. unfold handleDeletePhoto.
  destruct (focusId st) as [s|]; cbn [idIs]; [| now cbn].
  destruct (String.eqb_spec s i) as [->|Hsi]; [now elim Hne | now cbn].
Qed.

(** X11. Deleting an item that is not the focused one never triggers the
    gesture effect: if the effect had nothing to do before the deletion
    it has nothing to do after it. *)
Theorem delete_unfocused_keeps_settled (i : string) (st : AppState) :
  gestureEffect st = Some st ->
  focusId st <> Some i ->
  gestureEffect (handleDeletePhoto i st) = Some (handleDeletePhoto i st).
Proof.
  intros Hset Hne.
  destruct (delete_keeps_focus i st Hne) as [Hmode [Hfocus Hhand]].
  apply gestureEffect_settled; rewrite ?Hmode, ?Hhand, ?Hfocus.
  - intros Hp Hg.
    destruct (mode st) eqn:Hm; auto; exfalso;
      unfold gestureEffect in Hset; rewrite Hp, Hg, Hm in Hset;
      cbn in Hset; injection Hset as Hset;
      apply (f_equal mode) in Hset; cbn in Hset; congruence.
  - intros Hp Hg.
    destruct (mode st) eqn:Hm; auto; exfalso;
      unfold gestureEffect in Hset; rewrite Hp, Hg, Hm in Hset;
      cbn in Hset; injection Hset as Hset;
      apply (f_equal mode) in Hset; cbn in Hset; congruence.
  - intros Hp Hg Hm Hf.
    assert (Hempty : photos st = []).
    { destruct (photos st) as [|p ps] eqn:Hps; [reflexivity |]. exfalso.
      rewrite (gestureEffect_pinch st Hp Hg Hm), Hf, Hps in Hset.
      cbn [List.length Nat.ltb Nat.leb andb] in Hset.
      destruct (nth_error _ _); [| discriminate].
      injection Hset as Hset.
      apply (f_equal mode) in Hset; cbn in Hset; congruence. }
    unfold handleDeletePhoto. rewrite Hempty.
    now destruct (idIs (focusId st) i).
Qed.

(** X12. Deleting the focused item while the hand still shows PINCH
    moves the focus on: the delete handler drops to DISPERSED without
    focus, and the gesture effect that follows selects, from the pool
    that remains, the item at [cursor mod size] and advances the cursor;
    if nothing remains the state stays DISPERSED. *)
Theorem delete_focused_while_pinching (i : string) (st : AppState) :
  isPresent (handState st) = true ->
  gesture (handState st) = PINCH ->
  focusId st = Some i ->
  let remaining :=
    filter (fun p => negb (String.eqb (id p) i)) (photos st) in
  (remaining <> [] ->
   exists photo,
     nth_error remaining (nextPhotoIndex st mod List.length remaining)
     = Some photo
     /\ gestureEffect (handleDeletePhoto i st)
        = Some (mkApp FOCUS remaining (handState st) (Some (id photo))
                      (nextPhotoIndex st + 1)))
  /\ (remaining = [] ->
      gestureEffect (handleDeletePhoto i st)
      = Some (mkApp DISPERSED [] (handState st) None (nextPhotoIndex st))).
Proof.
  intros Hp Hg Hf remaining.
  assert (Hdel : handleDeletePhoto i st
                 = mkApp DISPERSED remaining (handState st) None
                         (nextPhotoIndex st)).
  { unfold handleDeletePhoto. rewrite Hf. cbn [idIs].
    now rewrite String.eqb_refl. }
  rewrite Hdel. rewrite gestureEffect_pinch by (cbn [handState mode]; auto).
  cbn [focusId falsyId photos nextPhotoIndex handState andb]. split.
  - intros Hne. rewrite (nonempty_length _ Hne).
    destruct (selection_defined remaining (nextPhotoIndex st) Hne)
      as [photo Hphoto].
    exists photo. now rewrite Hphoto.
  - intros ->. reflexivity.
Qed.

Lemma delete_focused_while_pinching_witness :
  gestureEffect (handleDeletePhoto "P1" pinchingOnP1)
  = Some (mkApp FOCUS [photoP "P0"; photoP "P2"] pinchingHand
                (Some "P0"%string) 3).
Proof.
  destruct (proj1 (delete_focused_while_pinching "P1" pinchingOnP1
                     eq_refl eq_refl eq_refl)) as [photo [Hnth Hrun]].
  - discriminate.
  - cbn in Hnth. injection Hnth as <-. exact Hrun.
Defined.

Lemma focusedP0_reachable :
  appReachable
    (mkApp FOCUS (photos scenarioC) pinchingHand (Some "P0"%string) 1).
Proof.
  apply (app_effect scenarioC); [| reflexivity].
  apply (app_hand pinchingHand
           (mkApp DISPERSED (photos scenarioC) openPalmHand None 0)).
  apply (app_effect
           (mkApp ASSEMBLED (photos scenarioC) openPalmHand None 0));
    [| reflexivity].
  apply (app_hand openPalmHand
           (mkApp ASSEMBLED (photos scenarioC) neutralHand None 0)).
  apply app_init.
Qed.

Lemma focus_only_in_focus_mode_witness :
  In "P0"%string (map id (photos scenarioC)).
Proof.
  apply (proj2 (focus_only_in_focus_mode
                  (mkApp FOCUS (photos scenarioC) pinchingHand
                         (Some "P0"%string) 1)
                  focusedP0_reachable) "P0"%string).
  reflexivity.
Defined.

Lemma delete_unfocused_keeps_settled_witness :
  gestureEffect (handleDeletePhoto "P0" focusedOnP1)
  = Some (handleDeletePhoto "P0" focusedOnP1).
Proof.
  apply (delete_unfocused_keeps_settled "P0" focusedOnP1).
  - reflexivity.
  - discriminate.
Defined.

(* ================================================================== *)
(** * More on the scheduler *)

Lemma markPresented_same (time a : R) (laps : nat) (p : ShowcaseParticipant) :
  sameParticipant p (markPresented time a laps p).
Proof.
  unfold markPresented, sameParticipant.
  destruct (_ && _); [destruct (Rltb _ _) |]; cbn; auto 10.
Qed.

Lemma deleteAll_subset (ks : list string) :
  forall (o : ActiveMap) kv,
    In kv (fold_left (fun o k => objDelete k o) ks o) -> In kv o.
Proof.
  induction ks as [|k ks IH]; intros o kv; cbn [fold_left]; [auto |].
  intros H. apply IH in H. unfold objDelete in H.
  now apply filter_In in H.
Qed.

(** What the ACTIVE loop leaves in the map comes from the map, marked. *)
Lemma activeLoop_entries (f : Frame) (spin : R) (sys : ShowcaseSystemState)
    (prev : R) (k : string) (p' : ShowcaseParticipant) :
  In (k, p') (active (fst (activeLoop f spin sys prev))) ->
  exists p,
    In (k, p) (active sys)
    /\ p' = markPresented (fr_time f)
              (systemAngle (fst (activeLoop f spin sys prev)))
              (lapCounter (fst (activeLoop f spin sys prev))) p.
Proof.
  destruct (activeLoop_laps f spin sys prev) as [Ha [_ Hl]].
  rewrite Ha, Hl. clear Ha Hl.
  unfold activeLoop, orbitSpeed, fullTurns. cbv zeta.
  set (angle := systemAngle sys + _ * fr_delta f).
  set (laps := if (_ <? _)%Z then _ else _).
  set (marked := map _ (active sys)).
  set (toRemove := objKeys _).
  assert (Hmarked : In (k, p') marked ->
                    exists p, In (k, p) (active sys)
                              /\ p' = markPresented (fr_time f) angle laps p).
  { intros H. apply in_map_iff in H as [[k0 p] [E Hin]].
    cbn [fst snd] in E. injection E as <- <-. eauto. }
  destruct (0 <? List.length toRemove)%nat;
    [destruct (_ =? 0)%nat |]; cbn [fst active]; intros H;
    try apply deleteAll_subset in H; auto.
Qed.

(** X13. A frame run in the ACTIVE phase creates no participant and
    rewrites none: every entry of the map after the frame is an entry of
    the map before it, under the same key, with the same id, offset,
    launch time and slot angle; its presented flag is never lowered. *)
Theorem participants_are_immutable (f : Frame) (c c' : Controller) :
  phase (sysOf c) = ACTIVE ->
  useFrame f c = Some c' ->
  forall k p',
    In (k, p') (active (sysOf c')) ->
    exists p,
      In (k, p) (active (sysOf c))
      /\ sp_id p' = sp_id p
      /\ offsetAngle p' = offsetAngle p
      /\ launchTime p' = launchTime p
      /\ originalSlotAngle p' = originalSlotAngle p
      /\ (hasPresented p = true -> hasPresented p' = true).
Proof.
  intros Hph. unfold useFrame, scheduler. rewrite Hph.
  destruct (_ && _).
  - match goal with
    | |- context [activeLoop f ?spin ?sys ?prev] =>
        pose proof (activeLoop_entries f spin sys prev) as Hent;
        destruct (activeLoop f spin sys prev) as [sys' prev']
    end.
    intros H; injection H as <-. cbn [showcaseSystemRef fst] in *.
    intros k p' Hin. destruct (Hent k p' Hin) as [p [Hp ->]].
    exists p. split; [exact Hp |]. apply markPresented_same.
  - intros H; injection H as <-. cbn. intros k p' [].
Qed.

Lemma participants_are_immutable_witness :
  exists p,
    In ("B"%string, p) bothActive
    /\ sp_id partB = sp_id p
    /\ offsetAngle partB = offsetAngle p
    /\ launchTime partB = launchTime p
    /\ originalSlotAngle partB = originalSlotAngle p
    /\ (hasPresented p = true -> hasPresented partB = true).
Proof.
  apply (participants_are_immutable
           (assembledFrame (20 * PI) (16 * PI))
           (orbiting bothActive (13 * PI / 2) 1)
           (orbiting [("B"%string, partB)] (93 * PI / 2) 2)
           eq_refl trace_step3 "B"%string partB).
  left. reflexivity.
Defined.

Lemma markPresented_presented (time a : R) (laps : nat)
    (p : ShowcaseParticipant) :
  hasPresented (markPresented time a laps p) = true ->
  hasPresented p = true \/ (2 <= laps)%nat.
Proof.
  unfold markPresented.
  destruct (hasPresented p) eqn:Hp; cbn [negb andb]; [auto |].
  destruct (launched time p); cbn [andb]; [| rewrite Hp; discriminate].
  destruct (2 <=? laps)%nat eqn:Hl; [| rewrite Hp; discriminate].
  apply Nat.leb_le in Hl. auto.
Qed.

Lemma scheduler_participantsSound (f : Frame) (spin : R)
    (sys sys' : ShowcaseSystemState) (prev prev' : R) :
  participantsSound sys ->
  scheduler f spin sys prev = Some (sys', prev') ->
  participantsSound sys'.
Proof.
  intros Hs. unfold scheduler.
  destruct (_ && _).
  - destruct (phase sys).
    + destruct (Rltb _ _);
        [| intros H; injection H as <- _; exact Hs].
      unfold startCycle. cbv zeta.
      destruct (2 <=? _)%nat; [| intros H; injection H as <- _; exact Hs].
      destruct (arrayAt _ _) as [p1|]; [| discriminate].
      destruct (arrayAt _ _) as [p2|]; [| discriminate].
      intros H; injection H as <- _.
      intros k p. cbn [active lapCounter objSet].
      destruct (String.eqb_spec (id p1) (id p2)) as [E|E]; cbn [In].
      * intros [H|[]]; injection H as <- <-. cbn.
        repeat split; auto; discriminate.
      * intros [H|[H|[]]]; injection H as <- <-; cbn;
          repeat split; auto; discriminate.
    + intros H; injection H as H.
      pose proof (activeLoop_entries f spin sys prev) as Hent.
      destruct (activeLoop_laps f spin sys prev) as [_ [_ Hl]].
      rewrite H in Hent, Hl. cbn [fst] in Hent, Hl.
      intros k p' Hin. destruct (Hent k p' Hin) as [p [Hp ->]].
      destruct (Hs k p Hp) as [Hk [Hoff Hpres]].
      destruct (markPresented_same (fr_time f) (systemAngle sys')
                  (lapCounter sys') p) as [Hid [Ho _]].
      rewrite Hid, Ho. repeat split; auto.
      intros Hm. apply markPresented_presented in Hm as [Hm|Hm]; [| exact Hm].
      specialize (Hpres Hm). rewrite Hl.
      destruct (_ <? _)%Z; lia.
  - intros H; injection H as <- _. intros k p [].
Qed.

Lemma reachable_participantsSound (c : Controller) :
  reachable c -> participantsSound (sysOf c).
Proof.
  induction 1 as [|f c c' _ IH _ Hrun].
  - intros k p [].
  - unfold useFrame in Hrun.
    destruct (scheduler f _ (sysOf c) (prevSystemAngle c))
      as [[sys' prev']|] eqn:E; [| discriminate].
    injection Hrun as <-. cbn [showcaseSystemRef].
    eapply scheduler_participantsSound; eauto.
Qed.

(** X14. In every reachable state each active participant is stored
    under its own id, has angular offset 0 or PI, and is marked as
    presented only if at least two laps have been counted. *)
Theorem participants_sound (c : Controller) :
  reachable c ->
  forall k p,
    In (k, p) (active (sysOf c)) ->
    k = sp_id p
    /\ (offsetAngle p = 0 \/ offsetAngle p = PI)
    /\ (hasPresented p = true -> (2 <= lapCounter (sysOf c))%nat).
Proof. intros Hreach. exact (reachable_participantsSound c Hreach). Qed.

Lemma participants_sound_witness :
  "B"%string = sp_id partB
  /\ (offsetAngle partB = 0 \/ offsetAngle partB = PI)
  /\ (hasPresented partB = true -> (2 <= 2)%nat).
Proof.
  apply (participants_sound (orbiting [("B"%string, partB)] (93 * PI / 2) 2)
           reachable_step3 "B"%string partB).
  left. reflexivity.
Defined.

Lemma activeLoop_quiet (f : Frame) (spin : R) (sys : ShowcaseSystemState)
    (prev : R) :
  let angle := systemAngle sys + 2.5 * fr_delta f in
  let laps :=
    if (fullTurns prev <? fullTurns angle)%Z
    then S (lapCounter sys) else lapCounter sys in
  (laps < 2)%nat ->
  Forall (fun kv => hasPresented (snd kv) = false) (active sys) ->
  activeLoop f spin sys prev
  = (mkSys (active sys) angle (phase sys) (cooldownUntil sys) laps, angle).
Proof.
  intros angle laps Hl Hps.
  assert (Hl0 : (lapCounter sys < 2)%nat).
  { subst laps. destruct (_ <? _)%Z; lia. }
  unfold activeLoop.
  rewrite not_in_zone_before_two_laps by exact Hl0.
  fold angle. fold (fullTurns prev) (fullTurns angle). fold laps.
  rewrite (unmarked_before_two_laps _ _ _ _ Hl).
  rewrite (nothing_returns_unpresented _ _ _ _ _ Hps).
  reflexivity.
Qed.

(** X15. Nothing but the orbit happens before two laps are counted: if a
    frame of the ACTIVE loop, run in a reachable state, ends with a lap
    counter below 2, then the angle has advanced at full speed
    ([2.5 * delta]), no participant was marked or returned, and the
    phase is still ACTIVE. *)
Theorem no_return_before_two_laps (f : Frame) (c c' : Controller) :
  reachable c ->
  activeFrame f c ->
  useFrame f c = Some c' ->
  (lapCounter (sysOf c') < 2)%nat ->
  active (sysOf c') = active (sysOf c)
  /\ phase (sysOf c') = ACTIVE
  /\ systemAngle (sysOf c') = systemAngle (sysOf c) + 2.5 * fr_delta f.
Proof.
  intros Hreach Hact Hrun Hlaps.
  destruct (useFrame_active f c Hact) as [c2 [Hrun' [_ [_ Hl]]]].
  rewrite Hrun in Hrun'. injection Hrun' as <-.
  assert (Hl0 : (lapCounter (sysOf c) < 2)%nat).
  { rewrite Hl in Hlaps. destruct (_ <? _)%Z; lia. }
  assert (Hfresh : Forall (fun kv => hasPresented (snd kv) = false)
                          (active (sysOf c))).
  { apply Forall_forall. intros [k p] Hin. cbn [snd].
    destruct (hasPresented p) eqn:Hp; [| reflexivity].
    destruct (reachable_participantsSound c Hreach k p Hin) as [_ [_ H2]].
    specialize (H2 Hp). lia. }
  destruct Hact as [Hm [Hlen Hph]].
  unfold useFrame in Hrun.
  rewrite scheduler_assembled in Hrun by auto. rewrite Hph in Hrun.
  unfold orbitSpeed in Hl.
  rewrite not_in_zone_before_two_laps in Hl by exact Hl0.
  rewrite activeLoop_quiet in Hrun; auto.
  - injection Hrun as <-. cbn [showcaseSystemRef active phase systemAngle].
    auto.
  - cbv zeta. rewrite <- Hl. exact Hlaps.
Qed.

Lemma no_return_before_two_laps_witness :
  active (sysOf (orbiting bothActive (13 * PI / 2) 1))
  = active (sysOf (orbiting bothActive (3 * PI / 2) 0)).
Proof.
  apply (no_return_before_two_laps
           (assembledFrame (4 * PI) (2 * PI))
           (orbiting bothActive (3 * PI / 2) 0)
           (orbiting bothActive (13 * PI / 2) 1)
           reachable_step1).
  - repeat split; cbn; auto.
  - exact trace_step2.
  - cbn. lia.
Defined.

(** X16. The scheduler sleeps through the cooldown and through a lack of
    candidates: in ASSEMBLED with at least two photos and in COOLDOWN, a
    frame at a time not past [cooldownUntil], or with fewer than two
    photos other than the focused one, returns and leaves the system
    state and the lap reference as they are. *)
Theorem cooldown_is_dormant (f : Frame) (c : Controller) :
  fr_mode f = ASSEMBLED ->
  (2 <= List.length (fr_photos f))%nat ->
  phase (sysOf c) = COOLDOWN ->
  fr_time f <= cooldownUntil (sysOf c)
  \/ (List.length (candidatesOf (fr_photos f) (fr_focusId f)) < 2)%nat ->
  exists c',
    useFrame f c = Some c'
    /\ sysOf c' = sysOf c
    /\ prevSystemAngle c' = prevSystemAngle c.
Proof.
  intros Hm Hlen Hph Hwhy. unfold useFrame.
  rewrite scheduler_assembled by auto. rewrite Hph.
  destruct (Rltb (cooldownUntil (sysOf c)) (fr_time f)) eqn:E.
  - apply Rltb_true in E. destruct Hwhy as [Hw|Hw]; [lra |].
    unfold startCycle.
    replace (2 <=? List.length (candidatesOf (fr_photos f) (fr_focusId f)))%nat
      with false by (symmetry; now apply Nat.leb_gt).
    eexists; split; [reflexivity |]. now cbn.
  - eexists; split; [reflexivity |]. now cbn.
Qed.

Lemma cooldown_is_dormant_witness :
  exists c',
    useFrame (focusedFrame 7 1) initialController = Some c'
    /\ sysOf c' = sysOf initialController
    /\ prevSystemAngle c' = prevSystemAngle initialController.
Proof.
  apply (cooldown_is_dormant (focusedFrame 7 1) initialController).
  - reflexivity.
  - cbn; lia.
  - reflexivity.
  - right. cbn; lia.
Defined.

Lemma activeLoop_cooldown (f : Frame) (spin : R) (sys : ShowcaseSystemState)
    (prev : R) :
  phase sys = ACTIVE ->
  phase (fst (activeLoop f spin sys prev)) = COOLDOWN ->
  active (fst (activeLoop f spin sys prev)) = []
  /\ cooldownUntil (fst (activeLoop f spin sys prev)) = fr_time f + 6.
Proof.
  intros Hph. unfold activeLoop. cbv zeta.
  set (marked := map _ (active sys)).
  set (toRemove := objKeys _).
  set (remaining := fold_left (fun o k => objDelete k o) toRemove marked).
  destruct (0 <? List.length toRemove)%nat.
  - destruct (Nat.eqb_spec (List.length remaining) 0) as [E|E];
      cbn [fst phase active cooldownUntil].
    + intros _. apply length_zero_iff_nil in E. split; [exact E | lra].
    + rewrite Hph. discriminate.
  - cbn [fst phase]. rewrite Hph. discriminate.
Qed.

(** X17. However a cycle ends (the last participant returns, the mode
    leaves ASSEMBLED, the pool shrinks below two), the frame that takes
    the phase from ACTIVE to COOLDOWN leaves no participant and sets the
    cooldown to exactly 6 after its own time. *)
Theorem cycle_end_schedules_cooldown (f : Frame) (c c' : Controller) :
  phase (sysOf c) = ACTIVE ->
  useFrame f c = Some c' ->
  phase (sysOf c') = COOLDOWN ->
  active (sysOf c') = []
  /\ cooldownUntil (sysOf c') = fr_time f + 6.
Proof.
  intros Hph. unfold useFrame, scheduler. rewrite Hph.
  destruct (_ && _).
  - match goal with
    | |- context [activeLoop f ?spin ?sys ?prev] =>
        pose proof (activeLoop_cooldown f spin sys prev Hph) as Hend;
        destruct (activeLoop f spin sys prev) as [sys' prev']
    end.
    intros H; injection H as <-. exact Hend.
  - intros H; injection H as <-.
    cbn [showcaseSystemRef resetSystem phase active cooldownUntil].
    intros _. split; [reflexivity | lra].
Qed.

Lemma cycle_end_schedules_cooldown_witness :
  exists c',
    useFrame (mkFrame [photoA; photoB] FOCUS None (5 * PI) PI 0 0)
             (orbiting bothActive (13 * PI / 2) 1) = Some c'
    /\ active (sysOf c') = []
    /\ cooldownUntil (sysOf c') = 5 * PI + 6.
Proof.
  destruct (useFrame_reset
              (mkFrame [photoA; photoB] FOCUS None (5 * PI) PI 0 0)
              (orbiting bothActive (13 * PI / 2) 1))
    as [c' [Hrun Hsys]].
  - left; discriminate.
  - exists c'. split; [exact Hrun |].
    apply (cycle_end_schedules_cooldown
             (mkFrame [photoA; photoB] FOCUS None (5 * PI) PI 0 0)
             (orbiting bothActive (13 * PI / 2) 1) c' eq_refl Hrun).
    now rewrite Hsys.
Defined.

(** X18. The two indices drawn at the start of a cycle: for every number
    [n >= 2] of candidates and every draw in [[0, 1)], both are valid
    indices of the candidate array, the second is the first moved half
    the array further (wrapping around), and they differ; so the collision
    fallback is never taken and both array reads are defined. *)
Theorem cycle_indices_in_range (rand : R) (n : Z) :
  0 <= rand < 1 ->
  (2 <= n)%Z ->
  let idx1 := firstIndex rand n in
  let idx2 := secondIndex idx1 n in
  (0 <= idx1 < n)%Z
  /\ (0 <= idx2 < n)%Z
  /\ idx2 = ((idx1 + n / 2) mod n)%Z
  /\ idx2 <> idx1.
Proof.
  intros Hr Hn idx1 idx2.
  assert (H1 : (0 <= idx1 < n)%Z)
    by (apply firstIndex_in_range; [exact Hr | lia]).
  destruct (secondIndex_in_range idx1 n Hn H1) as [H2 Hne].
  repeat split; try tauto; auto.
  subst idx2. unfold secondIndex in *. rewrite floor_half in *.
  assert (Hh : (0 <= n / 2)%Z) by (apply Z.div_pos; lia).
  rewrite Z.rem_mod_nonneg in * by lia.
  destruct (Z.eqb_spec idx1 ((idx1 + n / 2) mod n)) as [E|E];
    [| reflexivity].
  exfalso. apply Hne. rewrite Z.rem_mod_nonneg by lia.
  assert (Hh2 : (1 <= n / 2 < n)%Z).
  { split; [apply Z.div_le_lower_bound; lia | apply Z.div_lt; lia]. }
  destruct (Z_lt_dec (idx1 + n / 2) n) as [Hlt|Hge].
  - rewrite Z.mod_small in E by lia. lia.
  - assert (Hm : ((idx1 + n / 2) mod n = idx1 + n / 2 - n)%Z)
      by (symmetry; apply (Z.mod_unique _ _ 1); lia).
    lia.
Qed.

Lemma cycle_indices_in_range_witness :
  (0 <= firstIndex (3 / 4) 5 < 5)%Z
  /\ (0 <= secondIndex (firstIndex (3 / 4) 5) 5 < 5)%Z
  /\ secondIndex (firstIndex (3 / 4) 5) 5
     = ((firstIndex (3 / 4) 5 + 5 / 2) mod 5)%Z
  /\ secondIndex (firstIndex (3 / 4) 5) 5 <> firstIndex (3 / 4) 5.
Proof.
  apply (cycle_indices_in_range (3 / 4) 5); [lra | lia].
Defined.

(* ================================================================== *)
(** * Angles *)

Lemma trunc_fraction (q : R) :
  (0 <= q -> 0 <= q - IZR (trunc q) < 1)
  /\ (q <= 0 -> -1 < q - IZR (trunc q) <= 0).
Proof.
  unfold trunc. destruct (Rle_dec 0 q) as [Hq|Hq].
  - pose proof (floor_spec q) as Hf. unfold floor in Hf.
    split; intros H; [lra |].
    assert (E : q = 0) by lra. subst q.
    pose proof floor_0 as H0. unfold floor in H0. rewrite H0. lra.
  - pose proof (floor_spec (- q)) as Hf. unfold floor in Hf.
    rewrite opp_IZR. split; intros H; lra.
Qed.

Lemma js_rem_range (x y : R) :
  0 < y ->
  (0 <= x -> 0 <= js_rem x y < y) /\ (x <= 0 -> - y < js_rem x y <= 0).
Proof.
  intros Hy. unfold js_rem.
  assert (E : x = y * (x / y)) by (field; lra).
  destruct (trunc_fraction (x / y)) as [Hpos Hneg].
  set (t := IZR (trunc (x / y))) in *.
  assert (Hinv : 0 < / y) by now apply Rinv_0_lt_compat.
  split; intros Hx.
  - assert (Hq : 0 <= x / y) by (apply Rmult_le_pos; lra).
    specialize (Hpos Hq).
    replace (x - y * t) with (y * (x / y - t)) by (field; lra).
    split; [apply Rmult_le_pos; lra | nra].
  - assert (Hq : x / y <= 0).
    { unfold Rdiv. replace 0 with (0 * / y) by ring.
      apply Rmult_le_compat_r; lra. }
    specialize (Hneg Hq).
    replace (x - y * t) with (y * (x / y - t)) by (field; lra).
    split; nra.
Qed.

Lemma js_rem_abs (x y : R) : 0 < y -> - y < js_rem x y < y.
Proof.
  intros Hy. destruct (js_rem_range x y Hy) as [Hpos Hneg].
  destruct (Rle_dec 0 x) as [Hx|Hx].
  - specialize (Hpos Hx). lra.
  - specialize (Hneg ltac:(lra)). lra.
Qed.

Lemma js_rem_shift (x y : R) : exists k : Z, js_rem x y = x - y * IZR k.
Proof. now exists (trunc (x / y)). Qed.

(** [(x % 2 PI + 2 PI) % 2 PI]: the representative in [[0, 2 PI)]. *)
Lemma normalized_angle (x : R) :
  let n := js_rem (js_rem x (PI * 2) + PI * 2) (PI * 2) in
  0 <= n < 2 * PI /\ exists k : Z, n = x - 2 * PI * IZR k.
Proof.
  cbv zeta. pose proof PI_pos as Hpi.
  pose proof (js_rem_abs x (PI * 2) ltac:(lra)) as Hm.
  destruct (js_rem_range (js_rem x (PI * 2) + PI * 2) (PI * 2) ltac:(lra))
    as [Hn _].
  specialize (Hn ltac:(lra)).
  split; [lra |].
  destruct (js_rem_shift x (PI * 2)) as [k1 E1].
  destruct (js_rem_shift (js_rem x (PI * 2) + PI * 2) (PI * 2)) as [k2 E2].
  exists (k1 + k2 - 1)%Z. rewrite E2, E1, minus_IZR, plus_IZR. simpl IZR.
  ring.
Qed.

(** The shorter way round: [d > PI ? 2 PI - d : d] on [d = |u|]. *)
Lemma shorter_way (u : R) :
  - (2 * PI) < u < 2 * PI ->
  let d := Rabs u in
  let r := if Rltb PI d then 2 * PI - d else d in
  0 <= r <= PI
  /\ (r = Rabs u \/ r = Rabs (u - 2 * PI) \/ r = Rabs (u + 2 * PI)).
Proof.
  intros Hu. cbv zeta. pose proof PI_pos as Hpi.
  destruct (Rltb PI (Rabs u)) eqn:E;
    [apply Rltb_true in E | apply Rltb_false in E].
  - destruct (Rle_dec 0 u) as [H0|H0].
    + rewrite (Rabs_pos_eq u) in * by lra.
      split; [lra |]. right; left.
      rewrite Rabs_left by lra. lra.
    + rewrite (Rabs_left u) in * by lra.
      split; [lra |]. right; right.
      rewrite Rabs_pos_eq by lra. lra.
  - split; [| auto]. split; [apply Rabs_pos | lra].
Qed.

Lemma least_over_turns (z r : R) (k : Z) :
  r <= PI -> r = Rabs (z - 2 * PI * IZR k) ->
  forall k' : Z, r <= Rabs (z - 2 * PI * IZR k').
Proof.
  intros Hr E k'. pose proof PI_pos as Hpi.
  destruct (Z.eq_dec k k') as [->|Hne]; [lra |].
  assert (Hgap : 1 <= Rabs (IZR k' - IZR k)).
  { destruct (Z_lt_dec k k') as [Hlt|Hge].
    - assert (H : (k + 1 <= k')%Z) by lia.
      apply IZR_le in H. rewrite plus_IZR in H.
      rewrite Rabs_pos_eq; lra.
    - assert (H : (k' + 1 <= k)%Z) by lia.
      apply IZR_le in H. rewrite plus_IZR in H.
      rewrite Rabs_left; lra. }
  replace (z - 2 * PI * IZR k')
    with ((z - 2 * PI * IZR k) - 2 * PI * (IZR k' - IZR k)) by ring.
  pose proof (Rabs_triang_inv (2 * PI * (IZR k' - IZR k))
                              (z - 2 * PI * IZR k)) as Htri.
  rewrite (Rabs_minus_sym (2 * PI * (IZR k' - IZR k))) in Htri.
  rewrite Rabs_mult, (Rabs_pos_eq (2 * PI)) in Htri by lra.
  nra.
Qed.

Lemma wrapped_is_circular (n x y : R) (k : Z) :
  0 <= n < 2 * PI -> n = x - 2 * PI * IZR k ->
  forall m (j : Z),
    0 <= m < 2 * PI -> m = y - 2 * PI * IZR j ->
    let d := Rabs (n - m) in
    circularDistance (if Rltb PI d then 2 * PI - d else d) x y.
Proof.
  intros Hn En m j Hm Em. cbv zeta.
  destruct (shorter_way (n - m) ltac:(lra)) as [Hr Hk].
  cbv zeta in Hr, Hk.
  set (r := if Rltb PI (Rabs (n - m)) then 2 * PI - Rabs (n - m)
            else Rabs (n - m)) in *.
  assert (Hex : exists k0 : Z, r = Rabs (x - y - 2 * PI * IZR k0)).
  { destruct Hk as [Hk|[Hk|Hk]].
    - exists (k - j)%Z. rewrite Hk, En, Em, minus_IZR. f_equal. ring.
    - exists (k - j + 1)%Z. rewrite Hk, En, Em, plus_IZR, minus_IZR.
      f_equal. simpl IZR. ring.
    - exists (k - j - 1)%Z. rewrite Hk, En, Em, !minus_IZR.
      f_equal. simpl IZR. ring. }
  split; [exact Hr | split; [exact Hex |]].
  destruct Hex as [k0 Hk0].
  apply (least_over_turns (x - y) r k0); [lra | exact Hk0].
Qed.

(** X19. The two angular tests of the scheduler measure distances on the
    circle, for every system angle, time and spin, negative ones
    included: [presentationDist] is the circular distance of the
    participant's orbit angle to PI / 2, and [slotDiff] its circular
    distance to the world angle [time * 0.1 + spin + originalSlotAngle]
    of its slot; both lie in [[0, PI]]. *)
Theorem angular_tests_are_circular (time spin a : R)
    (p : ShowcaseParticipant) :
  circularDistance (presentationDist a p) (a + offsetAngle p) (PI / 2)
  /\ circularDistance (slotDiff time spin a p) (a + offsetAngle p)
       (time * 0.1 + spin + originalSlotAngle p).
Proof.
  pose proof PI_pos as Hpi. split.
  - unfold presentationDist, targetAngle.
    destruct (normalized_angle (a + offsetAngle p)) as [Hn [k En]].
    cbv zeta in Hn, En.
    apply (wrapped_is_circular _ _ _ k Hn En (PI / 2) 0); [lra |].
    simpl IZR. ring.
  - unfold slotDiff. cbv zeta.
    assert (E2 : 2 * PI = PI * 2) by ring.
    set (orbit := js_rem (a + offsetAngle p) (PI * 2)).
    set (slotWorld :=
           js_rem (js_rem (time * 0.1 + spin) (PI * 2) + originalSlotAngle p)
                  (PI * 2)).
    assert (H1 : js_rem (orbit + 2 * PI) (2 * PI)
                 = js_rem (orbit + PI * 2) (PI * 2)) by now rewrite E2.
    assert (H2 : js_rem (slotWorld + 2 * PI) (2 * PI)
                 = js_rem (slotWorld + PI * 2) (PI * 2)) by now rewrite E2.
    rewrite H1, H2. subst orbit slotWorld.
    destruct (normalized_angle (a + offsetAngle p)) as [Hn [k En]].
    destruct (normalized_angle
                (js_rem (time * 0.1 + spin) (PI * 2) + originalSlotAngle p))
      as [Hm [j Em]].
    cbv zeta in Hn, En, Hm, Em.
    destruct (js_rem_shift (time * 0.1 + spin) (PI * 2)) as [j0 E0].
    apply (wrapped_is_circular _ _ _ k Hn En _ (j + j0)%Z Hm).
    rewrite Em, E0, plus_IZR. ring.
Qed.

(* ================================================================== *)
(** * The spin of the tree *)

Lemma kick_bound (m pm : AppMode) (v : R) :
  Rabs v <= 20 -> Rabs (kick m pm v) <= 20.
Proof.
  intros Hv. unfold kick.
  destruct (mode_eqb pm m); [exact Hv |].
  destruct (_ && _); [rewrite Rabs_left; lra |].
  destruct (mode_eqb m ASSEMBLED); [rewrite Rabs_pos_eq; lra |].
  destruct (mode_eqb m FOCUS); [rewrite Rabs_R0; lra | exact Hv].
Qed.

Lemma useFrame_spin (f : Frame) (c c' : Controller) :
  useFrame f c = Some c' ->
  let friction := if mode_eqb (fr_mode f) DISPERSED then 0.82 else 0.85 in
  spinVelocity c' = kick (fr_mode f) (prevMode c) (spinVelocity c) * friction
  /\ accumulatedSpin c' = accumulatedSpin c + spinVelocity c' * fr_delta f
  /\ spinRef c' = accumulatedSpin c'
  /\ prevMode c' = fr_mode f.
Proof.
  unfold useFrame.
  destruct (scheduler f _ (sysOf c) (prevSystemAngle c)) as [[sys' prev']|];
    [| discriminate].
  intros H; injection H as <-. cbn. auto.
Qed.

Lemma friction_bound (v : R) (m : AppMode) :
  Rabs v <= 20 ->
  Rabs (v * (if mode_eqb m DISPERSED then 0.82 else 0.85)) <= 17.
Proof.
  intros Hv. rewrite Rabs_mult.
  pose proof (Rabs_pos v) as H0.
  destruct (mode_eqb m DISPERSED);
    [rewrite (Rabs_pos_eq 0.82) by lra | rewrite (Rabs_pos_eq 0.85) by lra];
    lra.
Qed.

Lemma reachable_spin (c : Controller) :
  reachable c -> Rabs (spinVelocity c) <= 17 /\ spinRef c = accumulatedSpin c.
Proof.
  induction 1 as [|f c c' _ [IHv _] _ Hrun].
  - cbn. rewrite Rabs_R0. split; [lra | reflexivity].
  - destruct (useFrame_spin f c c' Hrun) as [Hv [_ [Hs _]]].
    split; [| exact Hs]. rewrite Hv.
    apply friction_bound, kick_bound. lra.
Qed.

(** X20. In every reachable state the spin velocity of the tree is at
    most 17 in absolute value and [spinRef] holds the accumulated spin;
    so a frame turns the tree by at most [17 * |delta|], and while the
    mode does not change the velocity just decays by the friction
    factor (0.82 in DISPERSED, 0.85 otherwise). *)
Theorem spin_is_bounded (c : Controller) :
  reachable c ->
  Rabs (spinVelocity c) <= 17
  /\ spinRef c = accumulatedSpin c
  /\ forall f c',
      useFrame f c = Some c' ->
      Rabs (accumulatedSpin c' - accumulatedSpin c) <= 17 * Rabs (fr_delta f)
      /\ (fr_mode f = prevMode c ->
          spinVelocity c'
          = spinVelocity c
            * (if mode_eqb (fr_mode f) DISPERSED then 0.82 else 0.85)).
Proof.
  intros Hreach. destruct (reachable_spin c Hreach) as [Hv Hs].
  split; [exact Hv | split; [exact Hs |]].
  intros f c' Hrun.
  destruct (useFrame_spin f c c' Hrun) as [Hv' [Ha _]]. cbv zeta in Hv'.
  split.
  - rewrite Ha.
    replace (accumulatedSpin c + spinVelocity c' * fr_delta f
             - accumulatedSpin c)
      with (spinVelocity c' * fr_delta f) by ring.
    rewrite Rabs_mult.
    apply Rmult_le_compat_r; [apply Rabs_pos |].
    rewrite Hv'. apply friction_bound, kick_bound. lra.
  - intros Hm. rewrite Hv'. unfold kick.
    replace (mode_eqb (prevMode c) (fr_mode f)) with true; [reflexivity |].
    symmetry. apply mode_eqb_eq. auto.
Qed.

Lemma spin_is_bounded_witness :
  Rabs (spinVelocity (orbiting bothActive (3 * PI / 2) 0)) <= 17.
Proof.
  exact (proj1 (spin_is_bounded (orbiting bothActive (3 * PI / 2) 0)
                                reachable_step1)).
Defined.

(* ================================================================== *)
(** * Where a frame is headed *)

(** An id of ASCII characters only, as [uuidv4] makes them, has one code
    unit per byte. *)
Lemma codeUnits_ascii (bytes : list N) :
  Forall (fun b => (b < 128)%N) bytes -> codeUnits bytes = bytes.
Proof.
  induction 1 as [|b0 rest Hb _ IH]; [reflexivity |].
  cbn [codeUnits]. apply N.ltb_lt in Hb. rewrite Hb, IH. reflexivity.
Qed.

(** The id made of U+0061, U+00E9, U+20AC and U+1F600, whose UTF-8
    encoding takes 1, 2, 3 and 4 bytes: five code units, the last two a
    surrogate pair. *)
Example idSeed_code_units :
  let s := string_of_list_ascii
             (map Ascii.ascii_of_N
                  [97; 195; 169; 226; 130; 172; 240; 159; 152; 128]%N) in
  codeUnits (map Ascii.N_of_ascii (list_ascii_of_string s))
  = [97; 233; 8364; 55357; 56832]%N
  /\ idSeed s = 120883%N.
Proof. split; vm_compute; reflexivity. Qed.

Lemma rotation_is_rigid (x z r : R) :
  Rsqr (x * cos r - z * sin r) + Rsqr (x * sin r + z * cos r)
  = Rsqr x + Rsqr z.
Proof.
  pose proof (sin2_cos2 r) as H. unfold Rsqr in *.
  transitivity ((x * x + z * z) * (sin r * sin r + cos r * cos r));
    [ring | rewrite H; ring].
Qed.

Lemma on_circle (theta r : R) :
  Rsqr (cos theta * r) + Rsqr (sin theta * r) = Rsqr r.
Proof.
  pose proof (sin2_cos2 theta) as H. unfold Rsqr in *.
  transitivity ((sin theta * sin theta + cos theta * cos theta) * (r * r));
    [ring | rewrite H; ring].
Qed.

Lemma frameTarget_assembled (data : PhotoData) (aspect : R)
    (isFocused : bool) (time currentSpin smoothedRot fov viewportAspect : R)
    (showcase : ShowcaseSystemState) :
  frameTarget data aspect ASSEMBLED isFocused time currentSpin smoothedRot
              fov viewportAspect showcase
  = match launchedParticipant time data showcase with
    | Some participant => showcaseTarget data time showcase participant
    | None => treeTarget data time currentSpin
    end.
Proof.
  unfold frameTarget. change (mode_eqb ASSEMBLED FOCUS) with false.
  change (mode_eqb ASSEMBLED ASSEMBLED) with true.
  rewrite andb_false_r. now destruct (launchedParticipant _ _ _).
Qed.

(** X21. In ASSEMBLED mode the target that the callback of a frame
    hands to the damping functions is one of two.  For an item that is
    an active participant whose launch time has come the target is on
    the showcase orbit: at distance [1.6 * TREE_RADIUS_BOTTOM] from the
    axis, at a height within 0.5 of 0, with scale 1.9 (only possible
    once two laps are counted) or 1.25.  For any other item, a
    participant not yet launched included, the target is its tree slot
    turned about the axis: same height and same distance from the axis
    as its tree position, with scale 1.25. *)
Theorem assembled_frame_placement (data : PhotoData) (aspect : R)
    (isFocused : bool) (time currentSpin smoothedRot fov viewportAspect : R)
    (showcase : ShowcaseSystemState) :
  let t := frameTarget data aspect ASSEMBLED isFocused time currentSpin
                       smoothedRot fov viewportAspect showcase in
  (forall participant,
      launchedParticipant time data showcase = Some participant ->
      Rsqr (vx (targetPos t)) + Rsqr (vz (targetPos t))
      = Rsqr (TREE_RADIUS_BOTTOM * 1.6)
      /\ -0.5 <= vy (targetPos t) <= 0.5
      /\ (targetScale t = 1.9 /\ (2 <= lapCounter showcase)%nat
          \/ targetScale t = 1.25))
  /\ (launchedParticipant time data showcase = None ->
      Rsqr (vx (targetPos t)) + Rsqr (vz (targetPos t))
      = Rsqr (vx (treePosition data)) + Rsqr (vz (treePosition data))
      /\ vy (targetPos t) = vy (treePosition data)
      /\ targetScale t = 1.25).
Proof.
  cbv zeta. rewrite frameTarget_assembled. split.
  - intros participant ->. unfold showcaseTarget. cbv zeta.
    set (myAngle := systemAngle showcase + offsetAngle participant).
    set (bob := sin _ * 0.5).
    assert (Hbob : -0.5 <= 0 + bob <= 0.5).
    { subst bob.
      pose proof (SIN_bound (time * 2 + IZR (Z.of_N (idSeed (id data))))).
      lra. }
    assert (Hcircle : Rsqr (cos myAngle * (TREE_RADIUS_BOTTOM * 1.6))
                      + Rsqr (sin myAngle * (TREE_RADIUS_BOTTOM * 1.6))
                      = Rsqr (TREE_RADIUS_BOTTOM * 1.6)).
    { apply on_circle. }
    destruct (Rltb _ 0.5); cbn [andb].
    + destruct (2 <=? lapCounter showcase)%nat eqn:Hl;
        cbn [targetPos targetScale vx vy vz fst snd];
        repeat split; auto; try lra.
      left. split; [reflexivity | now apply Nat.leb_le].
    + cbn [targetPos targetScale vx vy vz fst snd].
      repeat split; auto; lra.
  - intros ->. unfold treeTarget. cbv zeta.
    cbn [targetPos targetScale vx vy vz fst snd].
    repeat split. apply rotation_is_rigid.
Qed.

(** X22. The turn of the tree is a rotation by [-(time * 0.1 + spin)]
    of the polar angle measured as the scheduler measures slot angles:
    for an item whose tree position is
    [(rho sin alpha, y, rho cos alpha)] and that is not orbiting, the
    target position handed to the damping function is
    [(rho sin (alpha - rotY), y, rho cos (alpha - rotY))]. *)
Theorem tree_slot_turns (data : PhotoData) (aspect : R) (isFocused : bool)
    (time currentSpin smoothedRot fov viewportAspect : R)
    (showcase : ShowcaseSystemState) (rho alpha y : R) :
  launchedParticipant time data showcase = None ->
  treePosition data = (rho * sin alpha, y, rho * cos alpha) ->
  let rotY := time * 0.1 + currentSpin in
  targetPos (frameTarget data aspect ASSEMBLED isFocused time currentSpin
                         smoothedRot fov viewportAspect showcase)
  = (rho * sin (alpha - rotY), y, rho * cos (alpha - rotY)).
Proof.
  intros Hnone Hpos rotY. rewrite frameTarget_assembled, Hnone.
  unfold treeTarget. cbv zeta. rewrite Hpos.
  cbn [targetPos vx vy vz fst snd]. fold rotY.
  rewrite sin_minus, cos_minus. f_equal; [f_equal |]; ring.
Qed.

Lemma launched_A :
  launchedParticipant (4 * PI) photoA
                      (sysOf (orbiting bothActive (13 * PI / 2) 1))
  = Some (partA false).
Proof.
  unfold launchedParticipant, orbiting, bothActive, photoA.
  cbn [showcaseSystemRef active id objGet String.eqb Ascii.eqb Bool.eqb
       launchTime partA].
  pose proof PI_pos.
  now replace (Rleb (2 * PI) (4 * PI)) with true
    by (symmetry; apply Rleb_true; lra).
Qed.

Lemma assembled_frame_placement_witness :
  let t := frameTarget photoA 1 ASSEMBLED false (4 * PI) 0 0 50 1
                       (sysOf (orbiting bothActive (13 * PI / 2) 1)) in
  Rsqr (vx (targetPos t)) + Rsqr (vz (targetPos t))
  = Rsqr (TREE_RADIUS_BOTTOM * 1.6)
  /\ -0.5 <= vy (targetPos t) <= 0.5
  /\ (targetScale t = 1.9 /\ (2 <= 1)%nat \/ targetScale t = 1.25).
Proof.
  exact (proj1 (assembled_frame_placement photoA 1 false (4 * PI) 0 0 50 1
                  (sysOf (orbiting bothActive (13 * PI / 2) 1)))
               (partA false) launched_A).
Defined.

Lemma photoA_polar :
  treePosition photoA = (1 * sin (PI / 2), 0, 1 * cos (PI / 2)).
Proof.
  rewrite sin_PI2, cos_PI2. unfold photoA. cbn [treePosition].
  f_equal; [f_equal |]; lra.
Qed.

Lemma tree_slot_turns_witness :
  targetPos (frameTarget photoA 1 ASSEMBLED false 5 0 0 50 1
                         (sysOf initialController))
  = (1 * sin (PI / 2 - (5 * 0.1 + 0)), 0, 1 * cos (PI / 2 - (5 * 0.1 + 0))).
Proof.
  exact (tree_slot_turns photoA 1 false 5 0 0 50 1 (sysOf initialController)
                         1 (PI / 2) 0 eq_refl photoA_polar).
Defined.

(** X23. The target of a focused frame in FOCUS mode, as handed to the
    damping functions, is 4 in front of the camera (z = 18), on the axis,
    bobbing by at most 0.15, and sized to fit: for a positive aspect of
    photo and viewport and a field of view between 0 and 180 degrees, the
    target height [scale] and width [scale * aspect] stay within 80% of
    the visible height and width at that distance, one of the two
    exactly. *)
Theorem focused_frame_fits (data : PhotoData) (aspect : R)
    (time currentSpin smoothedRot fov viewportAspect : R)
    (showcase : ShowcaseSystemState) :
  0 < aspect -> 0 < viewportAspect -> 0 < fov < 180 ->
  let t := frameTarget data aspect FOCUS true time currentSpin smoothedRot
                       fov viewportAspect showcase in
  let visibleHeight := 2 * tan (fov * PI / 180 / 2) * 4 in
  let visibleWidth := visibleHeight * viewportAspect in
  vx (targetPos t) = 0 /\ vz (targetPos t) = 18
  /\ -0.15 <= vy (targetPos t) <= 0.15
  /\ 0 < targetScale t <= 0.8 * visibleHeight
  /\ targetScale t * aspect <= 0.8 * visibleWidth
  /\ (targetScale t = 0.8 * visibleHeight
      \/ targetScale t * aspect = 0.8 * visibleWidth).
Proof.
  intros Ha Hv Hfov. cbv zeta. pose proof PI_pos as Hpi.
  unfold frameTarget. change (mode_eqb FOCUS FOCUS) with true.
  cbn [andb]. unfold focusTarget. cbv zeta.
  cbn [targetPos targetScale vx vy vz fst snd].
  assert (Htan : 0 < tan (fov * PI / 180 / 2)).
  { apply tan_gt_0; [nra | nra]. }
  set (vh := 2 * tan (fov * PI / 180 / 2) * 4) in *.
  assert (Hvh : 0 < vh) by (subst vh; lra).
  pose proof (SIN_bound (time * 1.5)) as Hsin.
  assert (E : vh * viewportAspect * 0.8 / (vh * 0.8) = viewportAspect).
  { assert (E8 : 0.8 = 4 / 5) by lra. rewrite E8. field. lra. }
  rewrite E.
  split; [reflexivity | split; [lra | split; [lra |]]].
  destruct (Rltb viewportAspect aspect) eqn:Hcmp;
    [apply Rltb_true in Hcmp | apply Rltb_false in Hcmp].
  - assert (Es : vh * viewportAspect * 0.8 / aspect * aspect
                 = 0.8 * (vh * viewportAspect)).
    { assert (E8 : 0.8 = 4 / 5) by lra. rewrite E8. field. lra. }
    assert (Hpos : 0 < vh * viewportAspect * 0.8 / aspect).
    { apply Rmult_lt_0_compat; [nra | now apply Rinv_0_lt_compat]. }
    assert (Hle : vh * viewportAspect * 0.8 / aspect <= 0.8 * vh).
    { apply (Rmult_le_reg_r aspect); [exact Ha |]. rewrite Es. nra. }
    repeat split; auto; try lra.
  - split; [split; lra | split; [nra | left; lra]].
Qed.

Lemma focused_frame_fits_witness :
  let t := frameTarget photoA 2 FOCUS true 0 0 0 90 1
                       (sysOf initialController) in
  vx (targetPos t) = 0 /\ vz (targetPos t) = 18.
Proof.
  destruct (focused_frame_fits photoA 2 0 0 0 90 1 (sysOf initialController))
    as [Hx [Hz _]]; [lra | lra | lra |].
  split; [exact Hx | exact Hz].
Defined.

(* ================================================================== *)
(** * Generated positions *)

Lemma INR_mod_bound (i n : nat) :
  (0 < n)%nat -> 0 <= INR (i mod n) <= INR n - 1.
Proof.
  intros Hn. pose proof (Nat.mod_upper_bound i n ltac:(lia)) as Hlt.
  split; [apply pos_INR |].
  assert (H : (i mod n + 1 <= n)%nat) by lia.
  apply le_INR in H. rewrite plus_INR in H. simpl INR in H. lra.
Qed.

(** X24. The assembled position of a generated frame lies on the tree:
    for draws in [[0, 1)] its height is in the middle band of the tree
    ([-3.51 <= y < 3.08], the tree spanning [-6.5 .. 6.5]), and its
    distance from the axis is between 90% and 100% of the radius of the
    cone at that height. *)
Theorem tree_position_on_cone (index totalExisting : nat)
    (rand1 rand2 rand3 : R) :
  0 <= rand1 < 1 -> 0 <= rand2 < 1 ->
  let p := fst (generateFramePosition index totalExisting
                                      rand1 rand2 rand3) in
  let coneRadius :=
    TREE_RADIUS_BOTTOM * (TREE_HEIGHT / 2 - vy p) / TREE_HEIGHT in
  -3.51 <= vy p < 3.08
  /\ 0 < coneRadius
  /\ 0.9 * coneRadius <= sqrt (Rsqr (vx p) + Rsqr (vz p)) < coneRadius.
Proof.
  intros H1 H2. unfold generateFramePosition. cbv zeta.
  cbn [fst snd vx vy vz].
  set (i := (totalExisting + index)%nat).
  pose proof (INR_mod_bound i 15 ltac:(lia)) as Hmod.
  replace (INR 15) with 15 in * by (simpl; lra).
  unfold TREE_HEIGHT, TREE_RADIUS_BOTTOM.
  set (m := INR (i mod 15)) in *.
  set (finalH := (0.25 + m / 15 * (0.75 - 0.25) + (rand1 * 0.04 - 0.02)) * 13).
  assert (HfinalH : 0.23 * 13 <= finalH < 0.7367 * 13).
  { subst finalH. lra. }
  set (rMax := 4.8 * (13 - finalH) / 13).
  assert (HrMax : 0 < rMax) by (subst rMax; lra).
  set (rTree := rMax * (0.9 + rand2 * 0.1)).
  assert (HrTree : 0.9 * rMax <= rTree < rMax) by (subst rTree; nra).
  rewrite on_circle, sqrt_Rsqr by lra.
  replace (4.8 * (13 / 2 - (finalH - 13 / 2)) / 13) with rMax
    by (subst rMax; lra).
  repeat split; lra.
Qed.

Lemma tree_position_on_cone_witness :
  -3.51 <= vy (fst (generateFramePosition 2 5 (1 / 2) (1 / 2) 0)) < 3.08.
Proof.
  apply (tree_position_on_cone 2 5 (1 / 2) (1 / 2) 0); lra.
Defined.

Lemma on_sphere (r phi theta : R) :
  Rsqr (r * sin phi * cos theta) + Rsqr (r * cos phi)
  + Rsqr (r * sin phi * sin theta) = Rsqr r.
Proof.
  pose proof (sin2_cos2 phi) as Hp. pose proof (sin2_cos2 theta) as Ht.
  unfold Rsqr in *.
  transitivity
    (r * r * (sin phi * sin phi
              * (sin theta * sin theta + cos theta * cos theta)
              + cos phi * cos phi)); [ring |].
  rewrite Ht, Rmult_1_r, Hp. ring.
Qed.

(** X25. The dispersed position of a generated frame lies on a sphere
    about the origin whose radius is [6 + 1.5 * (i mod 3) + rand3], so
    between 6 and 10 for a draw in [[0, 1)], and its height [y] is held
    within the band [-0.4 r <= y <= 0.36 r]. *)
Theorem scatter_position_on_sphere (index totalExisting : nat)
    (rand1 rand2 rand3 : R) :
  0 <= rand3 < 1 ->
  let s := snd (generateFramePosition index totalExisting
                                      rand1 rand2 rand3) in
  let r := sqrt (Rsqr (vx s) + Rsqr (vy s) + Rsqr (vz s)) in
  r = 6 + INR ((totalExisting + index) mod 3) * 1.5 + rand3
  /\ 6 <= r < 10
  /\ -0.4 * r <= vy s <= 0.36 * r.
Proof.
  intros H3. unfold generateFramePosition. cbv zeta.
  cbn [fst snd vx vy vz].
  set (i := (totalExisting + index)%nat).
  pose proof (INR_mod_bound i 3 ltac:(lia)) as Hm3.
  pose proof (INR_mod_bound (i * 13) 20 ltac:(lia)) as Hm20.
  replace (INR 3) with 3 in * by (simpl; lra).
  replace (INR 20) with 20 in * by (simpl; lra).
  set (m3 := INR (i mod 3)) in *.
  set (m20 := INR ((i * 13) mod 20)) in *.
  set (rScatter := 6.0 + m3 * 1.5 + rand3).
  assert (Hr : 6 <= rScatter < 10) by (subst rScatter; lra).
  set (safeY := (m20 / 20 - 0.5) * 0.8).
  assert (Hy : -0.4 <= safeY <= 0.36) by (subst safeY; lra).
  rewrite on_sphere, sqrt_Rsqr by lra.
  rewrite cos_acos by lra.
  split; [subst rScatter; lra | split; [lra | nra]].
Qed.

Lemma scatter_position_on_sphere_witness :
  let s := snd (generateFramePosition 2 5 0 0 (1 / 2)) in
  6 <= sqrt (Rsqr (vx s) + Rsqr (vy s) + Rsqr (vz s)) < 10.
Proof.
  exact (proj1 (proj2 (scatter_position_on_sphere 2 5 0 0 (1 / 2)
                         ltac:(lra)))).
Defined.

(* ================================================================== *)
(** * Image scaling *)

(** X26. Scaling an image of positive width and height down for storage
    never enlarges it, keeps its aspect ratio, leaves it untouched when
    neither side exceeds 800, and otherwise makes its longer side
    exactly 800; in all cases both sides end up positive and at most
    800. *)
Theorem scale_down_fits (width height : R) :
  0 < width -> 0 < height ->
  let w := fst (scaleDown width height) in
  let h := snd (scaleDown width height) in
  0 < w <= 800 /\ 0 < h <= 800
  /\ w <= width /\ h <= height
  /\ w * height = width * h
  /\ (width <= 800 -> height <= 800 -> w = width /\ h = height)
  /\ (800 < width \/ 800 < height -> w = 800 \/ h = 800).
Proof.
  intros Hw Hh. cbv zeta. unfold scaleDown, MAX_IMAGE_DIMENSION.
  destruct (Rltb height width) eqn:E1;
    [apply Rltb_true in E1 | apply Rltb_false in E1].
  - destruct (Rltb 800 width) eqn:E2;
      [apply Rltb_true in E2 | apply Rltb_false in E2];
      cbn [fst snd].
    + assert (Hq : 0 < 800 / width < 1).
      { split.
        - apply Rmult_lt_0_compat; [lra | now apply Rinv_0_lt_compat].
        - apply (Rmult_lt_reg_r width); [exact Hw |].
          replace (800 / width * width) with 800 by (field; lra). lra. }
      assert (Hs : height * (800 / width) * width = 800 * height)
        by (field; lra).
      repeat split; try lra; nra.
    + repeat split; lra.
  - destruct (Rltb 800 height) eqn:E2;
      [apply Rltb_true in E2 | apply Rltb_false in E2];
      cbn [fst snd].
    + assert (Hq : 0 < 800 / height < 1).
      { split.
        - apply Rmult_lt_0_compat; [lra | now apply Rinv_0_lt_compat].
        - apply (Rmult_lt_reg_r height); [exact Hh |].
          replace (800 / height * height) with 800 by (field; lra). lra. }
      assert (Hs : width * (800 / height) * height = 800 * width)
        by (field; lra).
      repeat split; try lra; nra.
    + repeat split; lra.
Qed.

Lemma scale_down_fits_witness :
  fst (scaleDown 1600 1200) <= 800 /\ snd (scaleDown 1600 1200) <= 800.
Proof.
  destruct (scale_down_fits 1600 1200 ltac:(lra) ltac:(lra))
    as [[_ Hw] [[_ Hh] _]].
  split; [exact Hw | exact Hh].
Defined.

(* ================================================================== *)
(** * Who returns *)

Lemma reachable_wellFormed (c : Controller) :
  reachable c -> wellFormed (sysOf c).
Proof.
  induction 1 as [|f c c' _ IH _ Hrun].
  - unfold wellFormed; cbn.
    split; [constructor | split; [reflexivity | discriminate]].
  - eapply useFrame_wellFormed; eauto.
Qed.

Lemma deleteAll_spec (ks : list string) :
  forall (o : ActiveMap) kv,
    In kv (fold_left (fun o k => objDelete k o) ks o)
    <-> In kv o /\ ~ In (fst kv) ks.
Proof.
  induction ks as [|k ks IH]; intros o kv; cbn [fold_left In].
  - tauto.
  - rewrite IH. unfold objDelete. rewrite filter_In.
    destruct (String.eqb_spec (fst kv) k) as [E|E]; cbn [negb].
    + split; [intros [[_ H] _]; discriminate |].
      intros [_ H]. elim H. auto.
    + split; [intros [[H1 _] H2] | intros [H1 H2]].
      * split; [exact H1 |]. intros [H|H]; [congruence | contradiction].
      * repeat split; auto.
Qed.

Lemma unique_value (o : ActiveMap) (k : string)
    (p q : ShowcaseParticipant) :
  NoDup (objKeys o) -> In (k, p) o -> In (k, q) o -> p = q.
Proof.
  induction o as [|[k0 v0] o IH]; cbn [objKeys map fst In]; [easy |].
  intros Hnd Hp Hq. apply NoDup_cons_iff in Hnd as [Hfresh Hnd].
  assert (Hkey : forall v, In (k0, v) o -> False).
  { intros v Hv. apply Hfresh. apply in_map_iff. now exists (k0, v). }
  destruct Hp as [Hp|Hp], Hq as [Hq|Hq].
  - congruence.
  - injection Hp as <- <-. elim (Hkey q Hq).
  - injection Hq as <- <-. elim (Hkey p Hp).
  - now apply IH.
Qed.

(** The map the ACTIVE loop leaves: the marked entries that do not
    return. *)
Lemma activeLoop_remaining (f : Frame) (spin : R)
    (sys : ShowcaseSystemState) (prev : R) (k : string)
    (p : ShowcaseParticipant) :
  NoDup (objKeys (active sys)) ->
  In (k, p) (active sys) ->
  let sys' := fst (activeLoop f spin sys prev) in
  let p' := markPresented (fr_time f) (systemAngle sys') (lapCounter sys') p in
  In (k, p') (active sys')
  <-> returns (inPresentationZoneOf (fr_time f) sys) (fr_time f) spin
              (systemAngle sys') p' = false.
Proof.
  intros Hnd Hin. cbv zeta.
  destruct (activeLoop_laps f spin sys prev) as [Ha [_ Hl]].
  rewrite Ha, Hl. clear Ha Hl.
  unfold activeLoop, orbitSpeed, fullTurns. cbv zeta.
  set (inZone := inPresentationZoneOf (fr_time f) sys).
  set (angle := systemAngle sys + _ * fr_delta f).
  set (laps := if (_ <? _)%Z then _ else _).
  set (marked := map _ (active sys)).
  set (p' := markPresented (fr_time f) angle laps p).
  set (toRemove := objKeys _).
  assert (Hmarked : In (k, p') marked).
  { subst marked. apply in_map_iff. exists (k, p). auto. }
  assert (Hmnd : NoDup (objKeys marked))
    by (subst marked; now rewrite marked_keys).
  assert (Hrem : In k toRemove
                 <-> returns inZone (fr_time f) spin angle p' = true).
  { subst toRemove. unfold objKeys. rewrite in_map_iff. split.
    - intros [[k0 q] [E Hq]]. cbn [fst] in E. subst k0.
      apply filter_In in Hq as [Hq Hret]. cbn [snd] in Hret.
      now rewrite (unique_value marked k p' q Hmnd Hmarked Hq).
    - intros Hret. exists (k, p'). split; [reflexivity |].
      apply filter_In. auto. }
  assert (Hkeep : In (k, p')
                     (fold_left (fun o k => objDelete k o) toRemove marked)
                  <-> returns inZone (fr_time f) spin angle p' = false).
  { rewrite deleteAll_spec. cbn [fst]. rewrite Hrem.
    destruct (returns inZone (fr_time f) spin angle p').
    - split; [intros [_ H]; now elim H | discriminate].
    - split; [reflexivity | intros _; split; [exact Hmarked | discriminate]]. }
  destruct (0 <? List.length toRemove)%nat eqn:Hany.
  - destruct (_ =? 0)%nat; cbn [fst active]; exact Hkeep.
  - cbn [fst active]. split; [| intros _; exact Hmarked]. intros _.
    apply Nat.ltb_ge in Hany.
    apply not_true_is_false. intros Hret. apply Hrem in Hret.
    destruct toRemove; [contradiction | cbn in Hany; lia].
Qed.

(** X27. Who returns in a frame of the ACTIVE loop, run in a reachable
    state: a participant stays in the map exactly when the return test
    fails for it, that is, unless (after this frame's marking) it has
    presented, the frame did not start in the presentation zone, and
    its orbit angle is within 0.3 of the world angle of its slot. *)
Theorem return_test_decides (f : Frame) (c c' : Controller) (k : string)
    (p : ShowcaseParticipant) :
  reachable c ->
  activeFrame f c ->
  useFrame f c = Some c' ->
  In (k, p) (active (sysOf c)) ->
  let p' := markPresented (fr_time f) (systemAngle (sysOf c'))
                          (lapCounter (sysOf c')) p in
  In (k, p') (active (sysOf c'))
  <-> ~ (hasPresented p' = true
         /\ inPresentationZoneOf (fr_time f) (sysOf c) = false
         /\ slotDiff (fr_time f) (accumulatedSpin c')
                     (systemAngle (sysOf c')) p' < 0.3).
Proof.
  intros Hreach [Hm [Hlen Hph]] Hrun Hin. cbv zeta.
  destruct (reachable_wellFormed c Hreach) as [Hnd _].
  destruct (useFrame_spin f c c' Hrun) as [_ [Hacc _]]. cbv zeta in Hacc.
  unfold useFrame in Hrun.
  rewrite scheduler_assembled in Hrun by auto. rewrite Hph in Hrun.
  match type of Hrun with
  | context [activeLoop f ?spin ?sys ?prev] =>
      pose proof (activeLoop_remaining f spin sys prev k p Hnd Hin) as Hkeep;
      destruct (activeLoop f spin sys prev) as [sys' prev']
  end.
  injection Hrun as <-. cbn [showcaseSystemRef fst accumulatedSpin] in *.
  cbv zeta in Hkeep. rewrite Hkeep. unfold returns.
  destruct (hasPresented _); cbn [andb]; [| split; [intros _ [H _] |]; easy].
  destruct (inPresentationZoneOf _ _); cbn [negb andb];
    [split; [intros _ [_ [H _]] |]; easy |].
  rewrite Rltb_false. split.
  - intros Hge [_ [_ Hlt]]. lra.
  - intros Hnot.
    destruct (Rle_dec 0.3 (slotDiff (fr_time f)
                (accumulatedSpin c
                 + kick (fr_mode f) (prevMode c) (spinVelocity c)
                   * (if mode_eqb (fr_mode f) DISPERSED then 0.82 else 0.85)
                   * fr_delta f)
                (systemAngle sys')
                (markPresented (fr_time f) (systemAngle sys')
                               (lapCounter sys') p))) as [H|H];
      [exact H |].
    elim Hnot. repeat split; auto. lra.
Qed.

Lemma return_test_decides_witness :
  let c' := orbiting [("B"%string, partB)] (93 * PI / 2) 2 in
  let p' := markPresented (20 * PI) (systemAngle (sysOf c'))
                          (lapCounter (sysOf c')) partB in
  In ("B"%string, p') (active (sysOf c'))
  <-> ~ (hasPresented p' = true
         /\ inPresentationZoneOf (20 * PI)
              (sysOf (orbiting bothActive (13 * PI / 2) 1)) = false
         /\ slotDiff (20 * PI) (accumulatedSpin c')
                     (systemAngle (sysOf c')) p' < 0.3).
Proof.
  apply (return_test_decides
           (assembledFrame (20 * PI) (16 * PI))
           (orbiting bothActive (13 * PI / 2) 1)
           (orbiting [("B"%string, partB)] (93 * PI / 2) 2)
           "B"%string partB reachable_step2).
  - repeat split; cbn; auto.
  - exact trace_step3.
  - right; left; reflexivity.
Defined.

(* ================================================================== *)
(** * From landmarks to the mode *)

Lemma predict_present (landmarks : list NormalizedLandmark)
    (rest : list (list NormalizedLandmark)) (r r' : StabilityRefs)
    (h : HandState) :
  predict (landmarks :: rest) r = Some (r', h) ->
  r' = stabilize (detectGesture landmarks) r
  /\ gesture h = stableGestureRef r'
  /\ isPresent h = true.
Proof.
  unfold predict.
  destruct (calculateHandRotation landmarks); [| discriminate].
  destruct (nth_error landmarks 9); [| discriminate].
  intros H; injection H as <- <-. now cbn.
Qed.

(** X28. Classifier, stabilizer and mode machine together: when two
    successive predictions see a hand and classify it alike, the second
    one reports that label with the hand present; if the label is FIST,
    the gesture effect run on that report ends in ASSEMBLED, clearing
    the focus if the mode was another one; if it is OPEN_PALM, the effect
    takes ASSEMBLED and FOCUS to DISPERSED. *)
Theorem two_alike_predictions_switch
    (l1 l2 : list NormalizedLandmark)
    (rest1 rest2 : list (list NormalizedLandmark))
    (r r1 r2 : StabilityRefs) (h1 h2 : HandState) (st : AppState) :
  detectGesture l1 = detectGesture l2 ->
  predict (l1 :: rest1) r = Some (r1, h1) ->
  predict (l2 :: rest2) r1 = Some (r2, h2) ->
  gesture h2 = detectGesture l2
  /\ isPresent h2 = true
  /\ exists st',
      gestureEffect (onHandUpdate h2 st) = Some st'
      /\ (detectGesture l2 = FIST ->
          mode st' = ASSEMBLED
          /\ (mode st <> ASSEMBLED -> focusId st' = None))
      /\ (detectGesture l2 = OPEN_PALM ->
          mode st <> DISPERSED -> mode st' = DISPERSED).
Proof.
  intros Hsame H1 H2.
  apply predict_present in H1 as [Hr1 _].
  apply predict_present in H2 as [Hr2 [Hg Hp]].
  assert (Hstable : gesture h2 = detectGesture l2).
  { rewrite Hg, Hr2, Hr1, Hsame.
    destruct (stabilize_last (detectGesture l2) r) as [Hl Hc].
    rewrite stabilize_step by exact Hc. rewrite Hl.
    now destruct (GestureType_eq_dec (detectGesture l2) (detectGesture l2)). }
  split; [exact Hstable | split; [exact Hp |]].
  destruct (gestureEffect_total (onHandUpdate h2 st)) as [st' Hrun].
  exists st'. split; [exact Hrun |].
  unfold gestureEffect in Hrun.
  cbn [onHandUpdate handState mode photos focusId nextPhotoIndex] in Hrun.
  rewrite Hp, Hstable in Hrun. cbn [negb] in Hrun.
  split.
  - intros Hfist. rewrite Hfist in Hrun.
    change (gesture_eqb FIST FIST) with true in Hrun.
    change (gesture_eqb FIST OPEN_PALM) with false in Hrun.
    change (gesture_eqb FIST PINCH) with false in Hrun.
    destruct (mode_eqb (mode st) ASSEMBLED) eqn:Hm;
      cbn [negb andb] in Hrun; injection Hrun as <-;
      cbn [mode focusId onHandUpdate].
    + apply mode_eqb_eq in Hm. split; [exact Hm | intros H; now elim H].
    + split; reflexivity.
  - intros Hpalm Hmode. rewrite Hpalm in Hrun.
    change (gesture_eqb OPEN_PALM FIST) with false in Hrun.
    change (gesture_eqb OPEN_PALM OPEN_PALM) with true in Hrun.
    cbn [andb] in Hrun.
    destruct (mode st) eqn:Hm; [| now elim Hmode |];
      cbn in Hrun; injection Hrun as <-; reflexivity.
Qed.

Lemma predict_closedHand (r : StabilityRefs) :
  exists h,
    predict [closedHand] r = Some (stabilize (detectGesture closedHand) r, h).
Proof.
  unfold predict, calculateHandRotation, closedHand.
  cbn [nth_error repeat]. eexists; reflexivity.
Qed.

Lemma two_alike_predictions_switch_witness :
  exists h2,
    gesture h2 = detectGesture closedHand /\ isPresent h2 = true.
Proof.
  destruct (predict_closedHand initialRefs) as [h1 H1].
  destruct (predict_closedHand
              (stabilize (detectGesture closedHand) initialRefs))
    as [h2 H2].
  exists h2.
  destruct (two_alike_predictions_switch closedHand closedHand [] []
              initialRefs _ _ h1 h2 scenarioC eq_refl H1 H2)
    as [Hg [Hp _]].
  split; [exact Hg | exact Hp].
Defined.
